(** * The YAPF node list ([src/pathfinder/yapf/nodelist.hpp])

    [NodeList<Titem>] is the multi-container of the A-star pathfinder: an
    arena of items, an open and a closed hash table of pointers into the
    arena, a binary heap of pointers ordered by cost estimate, and the
    pointer to the node under construction.

    - A pointer or reference to an item is the index of the item in the arena
      ([Handle]); the item data is read through it from the arena, so a store
      by the search loop to a node is seen by every container that points to
      it.
    - The methods are programs of a state-and-error monad over the object.
      A failed [dbg_assert] ends in [FatalErrorI] ([src/error.cpp]) and is the
      [Abort] outcome: the development describes a build in which
      [dbg_assert] is compiled in.
    - The three collaborators (arena_alloc.hpp, hashtable.hpp, binaryheap.hpp)
      are written from their contracts in the specification; each such
      definition says so.
    - The search loop is the client: it calls the methods and writes the
      fields of the nodes it holds ([step]).
    - In the first part the search loop passes the nodes that
      [CreateNewNode] has given it, as the pathfinder does, and a pointer is
      an index into the arena.  [InMemory] has the same methods over a
      memory in which the search loop also has nodes of its own; it is used
      where the difference matters, for the counts of the nodes. *)

From Stdlib Require Import ZArith Ascii String DecimalString DecimalNat.
From Stdlib Require Import Permutation Sorted Lia.
From stdpp Require Import gmap list strings.

Local Open Scope Z_scope.
Local Open Scope nat_scope.

(** ** Failures ([src/error.cpp]) *)

(** How a call ends that does not return: in [FatalErrorI] with a message, in
    a broken contract of a collaborator (spec section 7, "programming errors
    in the search loop"), or by reading through a pointer that designates no
    item. *)
Inductive failure : Type :=
| FatalError (msg : string)
| ContractBroken (component what : string)
| BadReference.

Inductive outcome (A : Type) : Type :=
| Done (a : A)
| Abort (f : failure).
Arguments Done {A} a.
Arguments Abort {A} f.

Definition obind {A B : Type} (m : outcome A) (f : A → outcome B) : outcome B :=
  match m with
  | Done a => f a
  | Abort e => Abort e
  end.

(** [FatalErrorI] does not return ([[noreturn]] callers). *)
Definition FatalErrorI {A : Type} (msg : string) : outcome A :=
  Abort (FatalError msg).

(** The [{}] of [fmt::format] for an [int] that is a line number. *)
Definition format_line (line : nat) : string :=
  NilZero.string_of_uint (Nat.to_uint line).

Definition newline : string := String (Ascii.ascii_of_nat 10) EmptyString.

Definition not_reached_message (line : nat) (file : string) : string :=
  "NOT_REACHED triggered at line " +:+ format_line line +:+ " of " +:+ file.

Definition not_reached_error {A : Type} (line : nat) (file : string) : outcome A :=
  FatalErrorI (not_reached_message line file).

(** The message of [assert_str_error]; [str] is [None] for [nullptr]. *)
Definition assert_message (line : nat) (file expr : string)
    (str : option string) : string :=
  let msg :=
    "Assertion failed at line " +:+ format_line line +:+ " of " +:+ file
      +:+ ": " +:+ expr in
  match str with
  | Some str => msg +:+ newline +:+ str
  | None => msg
  end.

Definition assert_str_error {A : Type} (line : nat) (file expr : string)
    (str : option string) : outcome A :=
  FatalErrorI (assert_message line file expr str).

(** What a [const char *] reader sees of the buffer of a [std::string]
    ([str.c_str()]): the characters before the first NUL. *)
Fixpoint c_str (str : string) : string :=
  match str with
  | EmptyString => EmptyString
  | String c str' =>
      if Ascii.eqb c Ascii.zero then EmptyString else String c (c_str str')
  end.

(** The overload of [assert_str_error] for a [std::string]: it passes
    [str.c_str()], which is never [nullptr]. *)
Definition assert_str_error_string {A : Type} (line : nat) (file expr : string)
    (str : string) : outcome A :=
  assert_str_error line file expr (Some (c_str str)).

(** A text without a blank, as the decimal numeral of a line number is, and
    a text without a NUL, as a C string is. *)
Fixpoint blank_free (str : string) : Prop :=
  match str with
  | EmptyString => True
  | String c str' => c ≠ " "%char ∧ blank_free str'
  end.

Fixpoint nul_free (str : string) : Prop :=
  match str with
  | EmptyString => True
  | String c str' => c ≠ Ascii.zero ∧ nul_free str'
  end.

Arguments assert_message : simpl never.
Arguments not_reached_message : simpl never.

(** Modelled from the spec: the macro [dbg_assert] of stdafx.h, with the
    assertions compiled in.  Spec section 7: a precondition violation "fails
    fast (abort/panic) in debug builds"; the failure is reported through
    [assert_str_error] with no further text. *)
Definition dbg_assert (line : nat) (file expr : string) (cond : bool) : outcome unit :=
  if cond then Done tt else assert_str_error line file expr None.

(** [__FILE__] in the assertions of the node list. *)
Definition nodelist_hpp : string := "src/pathfinder/yapf/nodelist.hpp".

(** Modelled from the spec: a broken precondition of a collaborator that is
    the caller's to guarantee (spec sections 4.2, 4.3 and 7). *)
Definition contract_broken {A : Type} (component what : string) : outcome A :=
  Abort (ContractBroken component what).

(** A pointer to an item: its index in the arena. *)
Abbreviation Handle := nat (only parsing).

(** The comparison of two pointed-to items by a cost read through the
    pointers. *)
Definition by_cost (cost : Handle → Z) (a b : Handle) : bool :=
  (cost a <? cost b)%Z.

(** ** The priority queue ([CBinaryHeapT], misc/binaryheap.hpp) *)

Module CBinaryHeapT.
Section heap.
(** [lt a b] is [*a < *b] on the pointed-to items. *)
Variable lt : Handle → Handle → bool.

(** Modelled from the spec: the layout of the "binary heap" of handles, an
    array with the root at position 0. *)
Definition parent (i : nat) : nat := (i - 1) / 2.
Definition left_child (i : nat) : nat := 2 * i + 1.
Definition right_child (i : nat) : nat := 2 * i + 2.

(** Modelled from the spec: one exchange of a sift. *)
Definition swap (data : list Handle) (i j : nat) : list Handle :=
  <[j := data !!! i]> (<[i := data !!! j]> data).

(** Modelled from the spec: the sift-up of [Include] ("insert a node handle;
    restores heap invariant (sift-up)").  The item at [gap] moves towards
    the root while it is smaller than its parent. *)
Fixpoint sift_up (fuel : nat) (data : list Handle) (gap : nat) : list Handle :=
  match fuel with
  | 0 => data
  | S fuel' =>
      if decide (0 < gap) then
        if lt (data !!! gap) (data !!! parent gap)
        then sift_up fuel' (swap data gap (parent gap)) (parent gap)
        else data
      else data
  end.

(** Modelled from the spec: the sift-down used by [Shift] and [Remove]
    ("restores heap invariant").  The item at [gap] moves towards the leaves
    while its smaller child is smaller than it. *)
Fixpoint sift_down (fuel : nat) (data : list Handle) (gap : nat) : list Handle :=
  match fuel with
  | 0 => data
  | S fuel' =>
      if decide (left_child gap < length data) then
        let child :=
          if decide (right_child gap < length data) then
            if lt (data !!! right_child gap) (data !!! left_child gap)
            then right_child gap else left_child gap
          else left_child gap in
        if lt (data !!! child) (data !!! gap)
        then sift_down fuel' (swap data gap child) child
        else data
      else data
  end.

(** Modelled from the spec: [IsEmpty() -> bool]. *)
Definition IsEmpty (data : list Handle) : bool :=
  match data with [] => true | _ => false end.

(** Modelled from the spec: the "element count" of the queue (P2). *)
Definition Length (data : list Handle) : nat := length data.

(** Modelled from the spec: [Begin() -> NodeHandle], "peek current minimum
    without removing; precondition: not empty". *)
Definition Begin (data : list Handle) : outcome Handle :=
  match data with
  | [] => contract_broken "binaryheap.hpp" "Begin: not empty"
  | first :: _ => Done first
  end.

(** Modelled from the spec: [Include(node)]. *)
Definition Include (new_item : Handle) (data : list Handle) : list Handle :=
  sift_up (length data) (data ++ [new_item]) (length data).

(** Modelled from the spec: [Shift() -> NodeHandle], "remove and return
    current minimum; precondition: not empty; restores heap invariant".  The
    last element takes the place of the root and sinks. *)
Definition Shift (data : list Handle) : outcome (Handle * list Handle) :=
  match data with
  | [] => contract_broken "binaryheap.hpp" "Shift: not empty"
  | first :: _ =>
      let n := length data - 1 in
      let data' := take n (<[0 := data !!! n]> data) in
      Done (first, sift_down n data' 0)
  end.

(** Modelled from the spec: [FindIndex(node) -> index], "locate a node's
    current position"; a linear scan.  A node that is not queued has no
    position: the caller contract of spec section 7 (presence asserted by the
    caller) is broken. *)
Fixpoint FindIndex (item : Handle) (data : list Handle) : outcome nat :=
  match data with
  | [] => contract_broken "binaryheap.hpp" "FindIndex: item is queued"
  | x :: data' =>
      if decide (x = item) then Done 0
      else obind (FindIndex item data') (λ i, Done (S i))
  end.

(** Modelled from the spec: [Remove(index)], "delete the element at that
    position, replacing it with the last element and restoring the
    invariant (sift-down or sift-up as needed)". *)
Definition Remove (index : nat) (data : list Handle) : outcome (list Handle) :=
  if decide (index < length data) then
    let n := length data - 1 in
    let last := data !!! n in
    let data' := take n (<[index := last]> data) in
    if decide (index = n) then Done data'
    else if bool_decide (0 < index) && lt last (data' !!! parent index)
         then Done (sift_up index data' index)
         else Done (sift_down n data' index)
  else contract_broken "binaryheap.hpp" "Remove: index is a position".
End heap.
End CBinaryHeapT.

Arguments CBinaryHeapT.IsEmpty : simpl never.
Arguments CBinaryHeapT.Include : simpl never.
Arguments CBinaryHeapT.Shift : simpl never.
Arguments CBinaryHeapT.Remove : simpl never.

(** The heap invariant: no element is smaller than its parent. *)
Definition ord_at (cost : Handle → Z) (data : list Handle) (i : nat) : Prop :=
  (cost (data !!! CBinaryHeapT.parent i) ≤ cost (data !!! i))%Z.

Definition heap_ordered (cost : Handle → Z) (data : list Handle) : Prop :=
  ∀ i, 0 < i < length data → ord_at cost data i.

(** The heap invariant while an element is being sifted: the positions in
    [bad] are exempt, and the children of the gap [g] are not smaller than the
    parent of [g]. *)
Definition heap_but (cost : Handle → Z) (bad : nat → Prop) (data : list Handle) : Prop :=
  ∀ i, 0 < i < length data → ¬ bad i → ord_at cost data i.

Definition grand_ok (cost : Handle → Z) (data : list Handle) (g : nat) : Prop :=
  ∀ i, 0 < g → 0 < i < length data → CBinaryHeapT.parent i = g →
    (cost (data !!! CBinaryHeapT.parent g) ≤ cost (data !!! i))%Z.

(** ** The membership index ([HashTable], misc/hashtable.hpp) *)

Module HashTable.
Section table.
Context {K : Type} `{Countable K}.

(** Modelled from the spec: [Find(key) -> optional NodeHandle], "returns the
    node with that key if present, else empty".  The table "maps a node's key
    to the node handle". *)
Definition Find (key : K) (t : gmap K Handle) : option Handle := t !! key.

(** Modelled from the spec: [Push(node)], "inserts the node keyed by its own
    key; caller guarantees the key is not already present (duplicate insertion
    is a programming error ...)". *)
Definition Push (key : K) (item : Handle) (t : gmap K Handle) : outcome (gmap K Handle) :=
  match Find key t with
  | None => Done (<[key := item]> t)
  | Some _ => contract_broken "hashtable.hpp" "Push: key not present"
  end.

(** Modelled from the spec: [Pop(key) -> NodeHandle], "removes and returns the
    node for that key; caller guarantees presence". *)
Definition Pop (key : K) (t : gmap K Handle) : outcome (Handle * gmap K Handle) :=
  match Find key t with
  | Some item => Done (item, delete key t)
  | None => contract_broken "hashtable.hpp" "Pop: key present"
  end.

(** Modelled from the spec: [Pop(node)], "removes a node known to be present,
    using its key". *)
Definition PopItem (key : K) (item : Handle) (t : gmap K Handle) : outcome (gmap K Handle) :=
  match Find key t with
  | Some item' =>
      if decide (item' = item) then Done (delete key t)
      else contract_broken "hashtable.hpp" "Pop: item present"
  | None => contract_broken "hashtable.hpp" "Pop: item present"
  end.

(** Modelled from the spec: [Count() -> integer]. *)
Definition Count (t : gmap K Handle) : nat := size t.
End table.
End HashTable.

(** ** The arena ([BumpAllocContainer<Titem, 4096>], core/arena_alloc.hpp) *)

Module BumpAllocContainer.
Section arena.
Context {Titem : Type}.

(** Modelled from the spec: [Allocate() -> NodeHandle], "returns a handle to
    freshly zero/default-initialized node storage.  Must never invalidate
    previously issued handles".  The chunks of 4096 items are storage layout
    and do not appear. *)
Definition New (init : Titem) (arena : list Titem) : Handle * list Titem :=
  (length arena, arena ++ [init]).

(** Modelled from the spec: [Count() -> integer], "total nodes ever
    allocated". *)
Definition Length (arena : list Titem) : nat := length arena.
End arena.
End BumpAllocContainer.

(** ** What [NodeList] asks of its template parameter [Titem] *)

(** [Titem::Key] and [item.GetKey()] are used by nodelist.hpp itself.  The
    order of the items is what the priority queue compares (spec section 6:
    "mutable cost fields usable as the Priority Queue's sort key"; section 3:
    "the total estimated cost is the sort key"), and the arena constructs the
    items. *)

Class NodeItem (Titem : Type) : Type := {
  Key : Type;
  Key_eq_dec :: EqDecision Key;
  Key_countable :: Countable Key;
  (** [item.GetKey()] *)
  GetKey : Titem → Key;
  (** the sort key of [operator<]: the total estimated cost *)
  GetCostEstimate : Titem → Z;
  (** the value of a freshly allocated item *)
  item_init : Titem;
}.

#[global] Instance NodeItem_inhabited {Titem : Type} {item_ops : NodeItem Titem} : Inhabited Titem :=
  populate item_init.

(** [(int)] of an unsigned count: two's complement on 32 bits. *)
Definition to_int (n : nat) : Z :=
  let z := (Z.of_nat n mod 2 ^ 32)%Z in
  if (z <? 2 ^ 31)%Z then z else (z - 2 ^ 32)%Z.

Definition INT_MAX : Z := (2 ^ 31 - 1)%Z.

(** ** The node list *)

Section node_list.
Context {Titem : Type} {item_ops : NodeItem Titem}.

Record NodeList : Type := mkNodeList {
  items : list Titem;              (* full item data *)
  open_nodes : gmap Key Handle;    (* hash table of pointers to open item data *)
  closed_nodes : gmap Key Handle;  (* hash table of pointers to closed item data *)
  open_queue : list Handle;        (* priority queue of pointers to open item data *)
  new_node : option Handle;        (* new open node under construction *)
}.

Definition set_items (v : list Titem) (s : NodeList) : NodeList :=
  mkNodeList v (open_nodes s) (closed_nodes s) (open_queue s) (new_node s).
Definition set_open_nodes (v : gmap Key Handle) (s : NodeList) : NodeList :=
  mkNodeList (items s) v (closed_nodes s) (open_queue s) (new_node s).
Definition set_closed_nodes (v : gmap Key Handle) (s : NodeList) : NodeList :=
  mkNodeList (items s) (open_nodes s) v (open_queue s) (new_node s).
Definition set_open_queue (v : list Handle) (s : NodeList) : NodeList :=
  mkNodeList (items s) (open_nodes s) (closed_nodes s) v (new_node s).
Definition set_new_node (v : option Handle) (s : NodeList) : NodeList :=
  mkNodeList (items s) (open_nodes s) (closed_nodes s) (open_queue s) v.

(** The methods run in a state monad over the object, with [Abort] for a
    failed assertion. *)
Definition M (A : Type) : Type := NodeList → outcome (A * NodeList).

#[global] Instance M_ret : MRet M := λ A a s, Done (a, s).
#[global] Instance M_bind : MBind M := λ A B f m s,
  match m s with
  | Done (a, s') => f a s'
  | Abort e => Abort e
  end.

Definition gets {A : Type} (f : NodeList → A) : M A := λ s, Done (f s, s).
Definition modify (f : NodeList → NodeList) : M unit := λ s, Done (tt, f s).
Definition lift {A : Type} (m : outcome A) : M A := λ s, obind m (λ a, Done (a, s)).

(** Reading through a [Titem &] or a non-null [Titem *]: the pointer has to
    designate an item of the arena. *)
Definition deref (item : Handle) : M Titem := λ s,
  match items s !! item with
  | Some it => Done (it, s)
  | None => Abort BadReference
  end.

(** [*a < *b], the order of the priority queue, on the current item data. *)
Definition cost_of (its : list Titem) (a : Handle) : Z :=
  GetCostEstimate (its !!! a).
Definition item_lt (its : list Titem) : Handle → Handle → bool :=
  by_cost (cost_of its).

(** [NodeList() : open_queue(2048)]; the initial capacity is not observable. *)
Definition NodeList_ctor : NodeList := mkNodeList [] ∅ ∅ [] None.

Definition OpenCount : M Z :=
  gets (λ s, to_int (HashTable.Count (open_nodes s))).

Definition ClosedCount : M Z :=
  gets (λ s, to_int (HashTable.Count (closed_nodes s))).

Definition TotalCount : M Z :=
  gets (λ s, to_int (BumpAllocContainer.Length (items s))).

Definition CreateNewNode : M Handle :=
  n ← gets new_node;
  match n with
  | None =>
      its ← gets items;
      let '(p, its') := BumpAllocContainer.New item_init its in
      _ ← modify (set_items its');
      _ ← modify (set_new_node (Some p));
      mret p
  | Some p => mret p
  end.

Definition FoundBestNode (item : Handle) : M unit :=
  _ ← deref item;
  n ← gets new_node;
  if decide (Some item = n) then modify (set_new_node None) else mret tt.

Definition InsertOpenNode (item : Handle) : M unit :=
  it ← deref item;
  closed ← gets closed_nodes;
  _ ← lift (dbg_assert 79 nodelist_hpp
               "this->closed_nodes.Find(item.GetKey()) == nullptr"
               (bool_decide (HashTable.Find (GetKey it) closed = None)));
  open ← gets open_nodes;
  open' ← lift (HashTable.Push (GetKey it) item open);
  _ ← modify (set_open_nodes open');
  its ← gets items;
  q ← gets open_queue;
  _ ← modify (set_open_queue (CBinaryHeapT.Include (item_lt its) item q));
  n ← gets new_node;
  if decide (Some item = n) then modify (set_new_node None) else mret tt.

Definition GetBestOpenNode : M (option Handle) :=
  q ← gets open_queue;
  if negb (CBinaryHeapT.IsEmpty q) then
    item ← lift (CBinaryHeapT.Begin q);
    mret (Some item)
  else mret None.

Definition PopBestOpenNode : M (option Handle) :=
  q ← gets open_queue;
  if negb (CBinaryHeapT.IsEmpty q) then
    its ← gets items;
    '(item, q') ← lift (CBinaryHeapT.Shift (item_lt its) q);
    _ ← modify (set_open_queue q');
    it ← deref item;
    open ← gets open_nodes;
    open' ← lift (HashTable.PopItem (GetKey it) item open);
    _ ← modify (set_open_nodes open');
    mret (Some item)
  else mret None.

Definition DequeueBestOpenNode : M unit :=
  q ← gets open_queue;
  _ ← lift (dbg_assert 109 nodelist_hpp "!this->open_queue.IsEmpty()"
               (negb (CBinaryHeapT.IsEmpty q)));
  its ← gets items;
  '(_, q') ← lift (CBinaryHeapT.Shift (item_lt its) q);
  modify (set_open_queue q').

Definition ReenqueueOpenNode (item : Handle) : M unit :=
  _ ← deref item;
  its ← gets items;
  q ← gets open_queue;
  modify (set_open_queue (CBinaryHeapT.Include (item_lt its) item q)).

Definition PopAlreadyDequeuedOpenNode (key : Key) : M Handle :=
  open ← gets open_nodes;
  '(item, open') ← lift (HashTable.Pop key open);
  _ ← modify (set_open_nodes open');
  mret item.

Definition FindOpenNode (key : Key) : M (option Handle) :=
  gets (λ s, HashTable.Find key (open_nodes s)).

Definition PopOpenNode (key : Key) : M Handle :=
  open ← gets open_nodes;
  '(item, open') ← lift (HashTable.Pop key open);
  _ ← modify (set_open_nodes open');
  its ← gets items;
  q ← gets open_queue;
  index ← lift (CBinaryHeapT.FindIndex item q);
  q' ← lift (CBinaryHeapT.Remove (item_lt its) index q);
  _ ← modify (set_open_queue q');
  mret item.

Definition InsertClosedNode (item : Handle) : M unit :=
  it ← deref item;
  open ← gets open_nodes;
  _ ← lift (dbg_assert 141 nodelist_hpp
               "this->open_nodes.Find(item.GetKey()) == nullptr"
               (bool_decide (HashTable.Find (GetKey it) open = None)));
  closed ← gets closed_nodes;
  closed' ← lift (HashTable.Push (GetKey it) item closed);
  modify (set_closed_nodes closed').

Definition FindClosedNode (key : Key) : M (option Handle) :=
  gets (λ s, HashTable.Find key (closed_nodes s)).

(** *** The search loop as the client of the node list *)

Inductive call : Type :=
| Call_CreateNewNode
| Call_FoundBestNode (item : Handle)
| Call_InsertOpenNode (item : Handle)
| Call_GetBestOpenNode
| Call_PopBestOpenNode
| Call_DequeueBestOpenNode
| Call_ReenqueueOpenNode (item : Handle)
| Call_PopAlreadyDequeuedOpenNode (key : Key)
| Call_FindOpenNode (key : Key)
| Call_PopOpenNode (key : Key)
| Call_InsertClosedNode (item : Handle)
| Call_FindClosedNode (key : Key)
| Call_OpenCount
| Call_ClosedCount
| Call_TotalCount.

(** The state a method leaves behind. *)
Definition after {A : Type} (m : M A) (s : NodeList) : outcome NodeList :=
  obind (m s) (λ r, Done r.2).

Definition exec (c : call) : NodeList → outcome NodeList :=
  match c with
  | Call_CreateNewNode => after CreateNewNode
  | Call_FoundBestNode item => after (FoundBestNode item)
  | Call_InsertOpenNode item => after (InsertOpenNode item)
  | Call_GetBestOpenNode => after GetBestOpenNode
  | Call_PopBestOpenNode => after PopBestOpenNode
  | Call_DequeueBestOpenNode => after DequeueBestOpenNode
  | Call_ReenqueueOpenNode item => after (ReenqueueOpenNode item)
  | Call_PopAlreadyDequeuedOpenNode key => after (PopAlreadyDequeuedOpenNode key)
  | Call_FindOpenNode key => after (FindOpenNode key)
  | Call_PopOpenNode key => after (PopOpenNode key)
  | Call_InsertClosedNode item => after (InsertClosedNode item)
  | Call_FindClosedNode key => after (FindClosedNode key)
  | Call_OpenCount => after OpenCount
  | Call_ClosedCount => after ClosedCount
  | Call_TotalCount => after TotalCount
  end.

(** The value a method returns. *)
Definition returns {A : Type} (m : M A) (s : NodeList) (a : A) : Prop :=
  ∃ s', m s = Done (a, s').

(** The state changes of the returning calls, as a relation: what is left of
    each method once its assertions have passed. *)
Inductive transition (s : NodeList) : call → NodeList → Prop :=
| tr_create_fresh
    (Hnew : new_node s = None) :
    transition s Call_CreateNewNode
      (mkNodeList (items s ++ [item_init]) (open_nodes s) (closed_nodes s)
         (open_queue s) (Some (length (items s))))
| tr_create_again p
    (Hnew : new_node s = Some p) :
    transition s Call_CreateNewNode s
| tr_found item
    (Hitem : item < length (items s)) :
    transition s (Call_FoundBestNode item)
      (if decide (Some item = new_node s) then set_new_node None s else s)
| tr_insert_open item it
    (Hit : items s !! item = Some it)
    (Hclosed : closed_nodes s !! GetKey it = None)
    (Hopen : open_nodes s !! GetKey it = None) :
    transition s (Call_InsertOpenNode item)
      (mkNodeList (items s) (<[GetKey it := item]> (open_nodes s))
         (closed_nodes s)
         (CBinaryHeapT.Include (item_lt (items s)) item (open_queue s))
         (if decide (Some item = new_node s) then None else new_node s))
| tr_get_best : transition s Call_GetBestOpenNode s
| tr_pop_best_none
    (Hempty : CBinaryHeapT.IsEmpty (open_queue s) = true) :
    transition s Call_PopBestOpenNode s
| tr_pop_best item q' it
    (HShift : CBinaryHeapT.Shift (item_lt (items s)) (open_queue s) = Done (item, q'))
    (Hit : items s !! item = Some it)
    (Hopen : open_nodes s !! GetKey it = Some item) :
    transition s Call_PopBestOpenNode
      (mkNodeList (items s) (delete (GetKey it) (open_nodes s))
         (closed_nodes s) q' (new_node s))
| tr_dequeue item q'
    (HShift : CBinaryHeapT.Shift (item_lt (items s)) (open_queue s) = Done (item, q')) :
    transition s Call_DequeueBestOpenNode (set_open_queue q' s)
| tr_reenqueue item
    (Hitem : item < length (items s)) :
    transition s (Call_ReenqueueOpenNode item)
      (set_open_queue
         (CBinaryHeapT.Include (item_lt (items s)) item (open_queue s)) s)
| tr_pop_dequeued key item
    (Hopen : open_nodes s !! key = Some item) :
    transition s (Call_PopAlreadyDequeuedOpenNode key)
      (set_open_nodes (delete key (open_nodes s)) s)
| tr_find_open key : transition s (Call_FindOpenNode key) s
| tr_pop_open key item index q'
    (Hopen : open_nodes s !! key = Some item)
    (Hindex : CBinaryHeapT.FindIndex item (open_queue s) = Done index)
    (HRemove : CBinaryHeapT.Remove (item_lt (items s)) index (open_queue s) = Done q') :
    transition s (Call_PopOpenNode key)
      (mkNodeList (items s) (delete key (open_nodes s)) (closed_nodes s)
         q' (new_node s))
| tr_insert_closed item it
    (Hit : items s !! item = Some it)
    (Hopen : open_nodes s !! GetKey it = None)
    (Hclosed : closed_nodes s !! GetKey it = None) :
    transition s (Call_InsertClosedNode item)
      (set_closed_nodes (<[GetKey it := item]> (closed_nodes s)) s)
| tr_find_closed key : transition s (Call_FindClosedNode key) s
| tr_open_count : transition s Call_OpenCount s
| tr_closed_count : transition s Call_ClosedCount s
| tr_total_count : transition s Call_TotalCount s.

(** The search loop fills in the fields of a node through the reference it
    holds ([n.Set(...)], [*open_node = n]). *)
Definition store_item (item : Handle) (v : Titem) (s : NodeList) : NodeList :=
  set_items (<[item := v]> (items s)) s.

Definition in_open (s : NodeList) (item : Handle) : Prop :=
  open_nodes s !! GetKey (items s !!! item) = Some item.
Definition in_closed (s : NodeList) (item : Handle) : Prop :=
  closed_nodes s !! GetKey (items s !!! item) = Some item.

(** Spec section 6, the obligation of the search loop: "never mutate a node's
    key after it has been indexed (open or closed)". *)
Definition store_allowed (s : NodeList) (item : Handle) (v : Titem) : Prop :=
  item < length (items s) ∧
  (in_open s item ∨ in_closed s item → GetKey v = GetKey (items s !!! item)).

(** A stricter discipline, for the nodes of the queue: a queued node is not
    written at all, so that its cost estimate stays what the heap has
    sorted. *)
Definition store_unqueued (s : NodeList) (item : Handle) (v : Titem) : Prop :=
  item < length (items s) ∧ item ∉ open_queue s.

(** The two disciplines together. *)
Definition store_settled (s : NodeList) (item : Handle) (v : Titem) : Prop :=
  store_allowed s item v ∧ store_unqueued s item v.

(** One step of the search loop: a call of a method among [allowed] that
    returns, or a store to a node that [may_store] admits. *)
Inductive step (allowed : call → Prop)
    (may_store : NodeList → Handle → Titem → Prop)
    (s : NodeList) : NodeList → Prop :=
| step_call c s'
    (Hallowed : allowed c)
    (Hexec : exec c s = Done s') :
    step allowed may_store s s'
| step_store item v
    (Hstore : may_store s item v) :
    step allowed may_store s (store_item item v s).

Definition reachable_via (allowed : call → Prop) (s : NodeList) : Prop :=
  rtc (step allowed store_allowed) NodeList_ctor s.

Definition any_call (c : call) : Prop := True.

Definition reachable : NodeList → Prop := reachable_via any_call.

(** The three methods that take the queue and the index of the open set apart
    ([DequeueBestOpenNode]) and put them together again. *)
Definition split_phase (c : call) : bool :=
  match c with
  | Call_DequeueBestOpenNode
  | Call_ReenqueueOpenNode _
  | Call_PopAlreadyDequeuedOpenNode _ => true
  | _ => false
  end.

Definition combined_call (c : call) : Prop := split_phase c = false.

(** The states the search loop reaches through the combined methods when it
    leaves the queued nodes alone. *)
Definition settled (s : NodeList) : Prop :=
  rtc (step combined_call store_settled) NodeList_ctor s.

(** The two methods that reset [new_node]. *)
Definition commits (c : call) : bool :=
  match c with
  | Call_InsertOpenNode _ | Call_FoundBestNode _ => true
  | _ => false
  end.

Definition keeps_new_node (c : call) : Prop := commits c = false.

(** Filling the open set: nodes are created, written while they are not
    queued, and put into the queue by [InsertOpenNode] and
    [ReenqueueOpenNode]. *)
Definition fills_open_set (c : call) : bool :=
  match c with
  | Call_CreateNewNode
  | Call_InsertOpenNode _
  | Call_ReenqueueOpenNode _ => true
  | _ => false
  end.

Definition fill_call (c : call) : Prop := fills_open_set c = true.

Definition fill : NodeList → NodeList → Prop := step fill_call store_unqueued.

(** *** Runs of the search loop, for evaluation *)

Inductive action : Type :=
| Act_call (c : call)
| Act_store (item : Handle) (v : Titem).

Definition store_allowed_b (s : NodeList) (item : Handle) (v : Titem) : bool :=
  bool_decide (item < length (items s)) &&
  implb
    (bool_decide (open_nodes s !! GetKey (items s !!! item) = Some item) ||
     bool_decide (closed_nodes s !! GetKey (items s !!! item) = Some item))
    (bool_decide (GetKey v = GetKey (items s !!! item))).

Definition store_unqueued_b (s : NodeList) (item : Handle) (v : Titem) : bool :=
  bool_decide (item < length (items s)) &&
  bool_decide (item ∉ open_queue s).

Definition store_settled_b (s : NodeList) (item : Handle) (v : Titem) : bool :=
  store_allowed_b s item v && store_unqueued_b s item v.

(** The state after the actions, when every call is among [allowed] and
    returns and every store is admitted by [may_store]. *)
Fixpoint run (allowed : call → bool)
    (may_store : NodeList → Handle → Titem → bool)
    (acts : list action) (s : NodeList) : option NodeList :=
  match acts with
  | [] => Some s
  | Act_call c :: acts' =>
      if allowed c then
        match exec c s with
        | Done s' => run allowed may_store acts' s'
        | Abort _ => None
        end
      else None
  | Act_store item v :: acts' =>
      if may_store s item v
      then run allowed may_store acts' (store_item item v s)
      else None
  end.

(** [PopBestOpenNode] called [n] times, or until it returns [nullptr] or
    fails: the nodes it returned, in order. *)
Fixpoint drain (n : nat) (s : NodeList) : list Handle :=
  match n with
  | 0 => []
  | S n' =>
      match PopBestOpenNode s with
      | Done (Some item, s') => item :: drain n' s'
      | _ => []
      end
  end.

(** The state after these pops. *)
Fixpoint drained (n : nat) (s : NodeList) : NodeList :=
  match n with
  | 0 => s
  | S n' =>
      match PopBestOpenNode s with
      | Done (Some item, s') => drained n' s'
      | _ => s
      end
  end.

(** *** Invariants *)

(** The queue is a heap on the current cost estimates. *)
Definition queue_ordered (s : NodeList) : Prop :=
  heap_ordered (cost_of (items s)) (open_queue s).

(** Every queued pointer designates an item of the arena. *)
Definition queue_valid (s : NodeList) : Prop :=
  ∀ item, item ∈ open_queue s → item < length (items s).

(** Invariant I2, from the queue to the index: a queued node is queued once and
    is in the open index under its key. *)
Definition queue_indexed (s : NodeList) : Prop :=
  NoDup (open_queue s) ∧
  ∀ item, item ∈ open_queue s → item < length (items s) ∧ in_open s item.

(** Invariant I2, from the index to the queue. *)
Definition index_queued (s : NodeList) : Prop :=
  ∀ key item, open_nodes s !! key = Some item → item ∈ open_queue s.

(** The entries of a table are nodes of the arena, under their own key. *)
Definition keyed (its : list Titem) (t : gmap Key Handle) : Prop :=
  ∀ key item, t !! key = Some item →
    item < length its ∧ GetKey (its !!! item) = key.

(** Invariant I1. *)
Definition disjoint_index (s : NodeList) : Prop :=
  ∀ key, ¬ (is_Some (open_nodes s !! key) ∧ is_Some (closed_nodes s !! key)).

(** I2 in both directions, with the heap order and the keys of the open
    index. *)
Definition paired_heap (s : NodeList) : Prop :=
  queue_indexed s ∧ index_queued s ∧ queue_ordered s ∧
  keyed (items s) (open_nodes s).

(** [new_node], when set, designates an item of the arena. *)
Definition new_node_valid (s : NodeList) : Prop :=
  ∀ p, new_node s = Some p → p < length (items s).

(** The uncommitted node is outside the open set. *)
Definition new_node_apart (s : NodeList) : Prop :=
  ∀ p, new_node s = Some p →
    p < length (items s) ∧ (p ∉ open_queue s) ∧
    ∀ key, open_nodes s !! key ≠ Some p.

(** *** The queue against the open index along a run *)

(** How far a returning call moves the open index ahead of the queue:
    [DequeueBestOpenNode] takes a node off the queue and leaves it in the
    index; [ReenqueueOpenNode] and [PopAlreadyDequeuedOpenNode] make up for
    one such node. *)
Definition unmatched (c : call) : Z :=
  match c with
  | Call_DequeueBestOpenNode => 1
  | Call_ReenqueueOpenNode _ | Call_PopAlreadyDequeuedOpenNode _ => -1
  | _ => 0
  end.

(** The dequeues of a run that have not been made up for. *)
Fixpoint pending (acts : list action) : Z :=
  match acts with
  | [] => 0
  | Act_call c :: acts' => unmatched c + pending acts'
  | Act_store _ _ :: acts' => pending acts'
  end.

(** The open index against the queue. *)
Definition deficit (s : NodeList) : Z :=
  Z.of_nat (HashTable.Count (open_nodes s)) -
  Z.of_nat (CBinaryHeapT.Length (open_queue s)).

(** A run of the search loop, action by action: every call returns and
    every store is allowed. *)
Inductive runs : list action → NodeList → NodeList → Prop :=
| runs_nil s : runs [] s s
| runs_call c acts s s' s''
    (Hexec : exec c s = Done s')
    (Hrest : runs acts s' s'') :
    runs (Act_call c :: acts) s s''
| runs_store item v acts s s''
    (Hstore : store_allowed s item v)
    (Hrest : runs acts (store_item item v s) s'') :
    runs (Act_store item v :: acts) s s''.

End node_list.
Arguments NodeList Titem {_}.
Arguments M Titem {_} A.
Arguments call Titem {_}.
Arguments action Titem {_}.

(** ** The node list among all the nodes of the search loop *)

(** [FoundBestNode], [InsertOpenNode], [ReenqueueOpenNode] and
    [InsertClosedNode] take a [Titem &]: any node, not only an item of the
    arena.  Above, a pointer is an index into the arena and the search loop
    passes the nodes that [CreateNewNode] gave it.  Here the search loop may
    also pass nodes of its own: the methods are the same, read over a memory
    of nodes of which the arena has allocated some. *)

Module InMemory.
Section node_list.
Context {Titem : Type} {item_ops : NodeItem Titem}.

(** The node list and the nodes around it.  A pointer is the address of a
    node; [memory] has the item data of every node that exists, and [items],
    the arena, has the addresses of the items it has allocated. *)
Record World : Type := mkWorld {
  memory : gmap Handle Titem;      (* the nodes there are, by address *)
  items : list Handle;             (* the arena: the addresses of its items *)
  open_nodes : gmap Key Handle;    (* hash table of pointers to open item data *)
  closed_nodes : gmap Key Handle;  (* hash table of pointers to closed item data *)
  open_queue : list Handle;        (* priority queue of pointers to open item data *)
  new_node : option Handle;        (* new open node under construction *)
}.

Definition set_memory (v : gmap Handle Titem) (w : World) : World :=
  mkWorld v (items w) (open_nodes w) (closed_nodes w) (open_queue w) (new_node w).
Definition set_items (v : list Handle) (w : World) : World :=
  mkWorld (memory w) v (open_nodes w) (closed_nodes w) (open_queue w) (new_node w).
Definition set_open_nodes (v : gmap Key Handle) (w : World) : World :=
  mkWorld (memory w) (items w) v (closed_nodes w) (open_queue w) (new_node w).
Definition set_closed_nodes (v : gmap Key Handle) (w : World) : World :=
  mkWorld (memory w) (items w) (open_nodes w) v (open_queue w) (new_node w).
Definition set_open_queue (v : list Handle) (w : World) : World :=
  mkWorld (memory w) (items w) (open_nodes w) (closed_nodes w) v (new_node w).
Definition set_new_node (v : option Handle) (w : World) : World :=
  mkWorld (memory w) (items w) (open_nodes w) (closed_nodes w) (open_queue w) v.

(** The methods, as above. *)
Definition M (A : Type) : Type := World → outcome (A * World).

#[global] Instance M_ret : MRet M := λ A a w, Done (a, w).
#[global] Instance M_bind : MBind M := λ A B f m w,
  match m w with
  | Done (a, w') => f a w'
  | Abort e => Abort e
  end.

Definition gets {A : Type} (f : World → A) : M A := λ w, Done (f w, w).
Definition modify (f : World → World) : M unit := λ w, Done (tt, f w).
Definition lift {A : Type} (m : outcome A) : M A := λ w, obind m (λ a, Done (a, w)).

(** Reading through a [Titem &] or a non-null [Titem *]: the pointer has to
    designate a node that exists, of the arena or not. *)
Definition deref (item : Handle) : M Titem := λ w,
  match memory w !! item with
  | Some it => Done (it, w)
  | None => Abort BadReference
  end.

(** [*a < *b] on the current item data. *)
Definition cost_of (mem : gmap Handle Titem) (a : Handle) : Z :=
  GetCostEstimate (mem !!! a).
Definition item_lt (mem : gmap Handle Titem) : Handle → Handle → bool :=
  by_cost (cost_of mem).

(** [NodeList()], before the search loop has made a node. *)
Definition NodeList_ctor : World := mkWorld ∅ [] ∅ ∅ [] None.

Definition OpenCount : M Z :=
  gets (λ w, to_int (HashTable.Count (open_nodes w))).

Definition ClosedCount : M Z :=
  gets (λ w, to_int (HashTable.Count (closed_nodes w))).

Definition TotalCount : M Z :=
  gets (λ w, to_int (BumpAllocContainer.Length (items w))).

(** Modelled from the spec: [Allocate() -> NodeHandle] of the arena, "returns
    a handle to freshly zero/default-initialized node storage.  Must never
    invalidate previously issued handles": the new item is at an address
    where no node is. *)
Definition New (init : Titem) : M Handle :=
  mem ← gets memory;
  its ← gets items;
  let p := fresh (dom mem) in
  _ ← modify (set_memory (<[p := init]> mem));
  _ ← modify (set_items (its ++ [p]));
  mret p.

Definition CreateNewNode : M Handle :=
  n ← gets new_node;
  match n with
  | None =>
      p ← New item_init;
      _ ← modify (set_new_node (Some p));
      mret p
  | Some p => mret p
  end.

Definition FoundBestNode (item : Handle) : M unit :=
  _ ← deref item;
  n ← gets new_node;
  if decide (Some item = n) then modify (set_new_node None) else mret tt.

Definition InsertOpenNode (item : Handle) : M unit :=
  it ← deref item;
  closed ← gets closed_nodes;
  _ ← lift (dbg_assert 79 nodelist_hpp
               "this->closed_nodes.Find(item.GetKey()) == nullptr"
               (bool_decide (HashTable.Find (GetKey it) closed = None)));
  open ← gets open_nodes;
  open' ← lift (HashTable.Push (GetKey it) item open);
  _ ← modify (set_open_nodes open');
  mem ← gets memory;
  q ← gets open_queue;
  _ ← modify (set_open_queue (CBinaryHeapT.Include (item_lt mem) item q));
  n ← gets new_node;
  if decide (Some item = n) then modify (set_new_node None) else mret tt.

Definition GetBestOpenNode : M (option Handle) :=
  q ← gets open_queue;
  if negb (CBinaryHeapT.IsEmpty q) then
    item ← lift (CBinaryHeapT.Begin q);
    mret (Some item)
  else mret None.

Definition PopBestOpenNode : M (option Handle) :=
  q ← gets open_queue;
  if negb (CBinaryHeapT.IsEmpty q) then
    mem ← gets memory;
    '(item, q') ← lift (CBinaryHeapT.Shift (item_lt mem) q);
    _ ← modify (set_open_queue q');
    it ← deref item;
    open ← gets open_nodes;
    open' ← lift (HashTable.PopItem (GetKey it) item open);
    _ ← modify (set_open_nodes open');
    mret (Some item)
  else mret None.

Definition DequeueBestOpenNode : M unit :=
  q ← gets open_queue;
  _ ← lift (dbg_assert 109 nodelist_hpp "!this->open_queue.IsEmpty()"
               (negb (CBinaryHeapT.IsEmpty q)));
  mem ← gets memory;
  '(_, q') ← lift (CBinaryHeapT.Shift (item_lt mem) q);
  modify (set_open_queue q').

Definition ReenqueueOpenNode (item : Handle) : M unit :=
  _ ← deref item;
  mem ← gets memory;
  q ← gets open_queue;
  modify (set_open_queue (CBinaryHeapT.Include (item_lt mem) item q)).

Definition PopAlreadyDequeuedOpenNode (key : Key) : M Handle :=
  open ← gets open_nodes;
  '(item, open') ← lift (HashTable.Pop key open);
  _ ← modify (set_open_nodes open');
  mret item.

Definition FindOpenNode (key : Key) : M (option Handle) :=
  gets (λ w, HashTable.Find key (open_nodes w)).

Definition PopOpenNode (key : Key) : M Handle :=
  open ← gets open_nodes;
  '(item, open') ← lift (HashTable.Pop key open);
  _ ← modify (set_open_nodes open');
  mem ← gets memory;
  q ← gets open_queue;
  index ← lift (CBinaryHeapT.FindIndex item q);
  q' ← lift (CBinaryHeapT.Remove (item_lt mem) index q);
  _ ← modify (set_open_queue q');
  mret item.

Definition InsertClosedNode (item : Handle) : M unit :=
  it ← deref item;
  open ← gets open_nodes;
  _ ← lift (dbg_assert 141 nodelist_hpp
               "this->open_nodes.Find(item.GetKey()) == nullptr"
               (bool_decide (HashTable.Find (GetKey it) open = None)));
  closed ← gets closed_nodes;
  closed' ← lift (HashTable.Push (GetKey it) item closed);
  modify (set_closed_nodes closed').

Definition FindClosedNode (key : Key) : M (option Handle) :=
  gets (λ w, HashTable.Find key (closed_nodes w)).

(** The calls of the search loop. *)
Definition after {A : Type} (m : M A) (w : World) : outcome World :=
  obind (m w) (λ r, Done r.2).

Definition exec (c : call Titem) : World → outcome World :=
  match c with
  | Call_CreateNewNode => after CreateNewNode
  | Call_FoundBestNode item => after (FoundBestNode item)
  | Call_InsertOpenNode item => after (InsertOpenNode item)
  | Call_GetBestOpenNode => after GetBestOpenNode
  | Call_PopBestOpenNode => after PopBestOpenNode
  | Call_DequeueBestOpenNode => after DequeueBestOpenNode
  | Call_ReenqueueOpenNode item => after (ReenqueueOpenNode item)
  | Call_PopAlreadyDequeuedOpenNode key => after (PopAlreadyDequeuedOpenNode key)
  | Call_FindOpenNode key => after (FindOpenNode key)
  | Call_PopOpenNode key => after (PopOpenNode key)
  | Call_InsertClosedNode item => after (InsertClosedNode item)
  | Call_FindClosedNode key => after (FindClosedNode key)
  | Call_OpenCount => after OpenCount
  | Call_ClosedCount => after ClosedCount
  | Call_TotalCount => after TotalCount
  end.

Definition returns {A : Type} (m : M A) (w : World) (a : A) : Prop :=
  ∃ w', m w = Done (a, w').

Definition in_open (w : World) (item : Handle) : Prop :=
  open_nodes w !! GetKey (memory w !!! item) = Some item.
Definition in_closed (w : World) (item : Handle) : Prop :=
  closed_nodes w !! GetKey (memory w !!! item) = Some item.

(** The search loop writes a node, or makes a node of its own at an address
    where no node is. *)
Definition store_item (item : Handle) (v : Titem) (w : World) : World :=
  set_memory (<[item := v]> (memory w)) w.

(** Spec section 6: "never mutate a node's key after it has been indexed". *)
Definition store_allowed (w : World) (item : Handle) (v : Titem) : Prop :=
  is_Some (memory w !! item) ∧
  (in_open w item ∨ in_closed w item → GetKey v = GetKey (memory w !!! item)).

(** One step of the search loop: a call that returns, a store to a node, or
    a new node of its own. *)
Inductive step (w : World) : World → Prop :=
| step_call c w'
    (Hexec : exec c w = Done w') :
    step w w'
| step_store item v
    (Hstore : store_allowed w item v) :
    step w (store_item item v w)
| step_own item v
    (Hfree : memory w !! item = None) :
    step w (store_item item v w).

Definition reachable (w : World) : Prop := rtc step NodeList_ctor w.

(** The items of the arena that are in neither index. *)
Definition unindexed (w : World) : list Handle :=
  filter
    (λ item,
       open_nodes w !! GetKey (memory w !!! item) ≠ Some item ∧
       closed_nodes w !! GetKey (memory w !!! item) ≠ Some item)
    (items w).

(** The entries of an index that point to nodes outside the arena. *)
Definition outside (w : World) (t : gmap Key Handle) : gmap Key Handle :=
  filter (λ entry, entry.2 ∉ items w) t.

(** The entries of a table are nodes that exist, under their own key. *)
Definition keyed (mem : gmap Handle Titem) (t : gmap Key Handle) : Prop :=
  ∀ key item, t !! key = Some item →
    ∃ it, mem !! item = Some it ∧ GetKey it = key.

(** Invariant I1. *)
Definition disjoint_index (w : World) : Prop :=
  ∀ key, ¬ (is_Some (open_nodes w !! key) ∧ is_Some (closed_nodes w !! key)).

(** The items of the arena are distinct nodes that exist. *)
Definition arena_sound (w : World) : Prop :=
  NoDup (items w) ∧ ∀ item, item ∈ items w → is_Some (memory w !! item).

(** What a returning call does to the memory, the arena and the two
    indexes. *)
Inductive effect (w w' : World) : Prop :=
| eff_none
    (Hmemory : memory w' = memory w) (Hitems : items w' = items w)
    (Hopen : open_nodes w' = open_nodes w)
    (Hclosed : closed_nodes w' = closed_nodes w)
| eff_alloc p
    (Hfree : memory w !! p = None)
    (Hmemory : memory w' = <[p := item_init]> (memory w))
    (Hitems : items w' = items w ++ [p])
    (Hopen : open_nodes w' = open_nodes w)
    (Hclosed : closed_nodes w' = closed_nodes w)
| eff_open_insert item it
    (Hit : memory w !! item = Some it)
    (Hwas_closed : closed_nodes w !! GetKey it = None)
    (Hwas_open : open_nodes w !! GetKey it = None)
    (Hmemory : memory w' = memory w) (Hitems : items w' = items w)
    (Hopen : open_nodes w' = <[GetKey it := item]> (open_nodes w))
    (Hclosed : closed_nodes w' = closed_nodes w)
| eff_open_delete key
    (Hmemory : memory w' = memory w) (Hitems : items w' = items w)
    (Hopen : open_nodes w' = delete key (open_nodes w))
    (Hclosed : closed_nodes w' = closed_nodes w)
| eff_closed_insert item it
    (Hit : memory w !! item = Some it)
    (Hwas_open : open_nodes w !! GetKey it = None)
    (Hwas_closed : closed_nodes w !! GetKey it = None)
    (Hmemory : memory w' = memory w) (Hitems : items w' = items w)
    (Hopen : open_nodes w' = open_nodes w)
    (Hclosed : closed_nodes w' = <[GetKey it := item]> (closed_nodes w)).

(** What every reachable world satisfies: I1, the entries of both indexes
    under the keys of their nodes, and an arena of distinct nodes that
    exist. *)
Definition invariant (w : World) : Prop :=
  disjoint_index w ∧
  keyed (memory w) (open_nodes w) ∧
  keyed (memory w) (closed_nodes w) ∧
  arena_sound w.

End node_list.
End InMemory.

Arguments InMemory.World Titem {_}.
Arguments InMemory.M Titem {_} A.

(** ** A sample item type *)

Record SampleNode : Type := mkSampleNode {
  sample_key : string;
  sample_estimate : Z;
}.

#[global] Instance SampleNode_item : NodeItem SampleNode := {|
  Key := string;
  GetKey := sample_key;
  GetCostEstimate := sample_estimate;
  item_init := mkSampleNode "" 0;
|}.

(** The search loop creating a node, filling it in and committing it as an
    open node. *)
Definition open_new (key : string) (estimate : Z) (s : NodeList SampleNode)
  : outcome (Handle * NodeList SampleNode) :=
  obind (CreateNewNode s) (λ '(item, s1),
    let s2 := store_item item (mkSampleNode key estimate) s1 in
    obind (InsertOpenNode item s2) (λ '(_, s3), Done (item, s3))).

(** Scenario A: nodes A, B, C with cost estimates 5, 3, 7 are opened. *)
Definition scenario_A : outcome (NodeList SampleNode) :=
  obind (open_new "A" 5 NodeList_ctor) (λ '(_, s1),
  obind (open_new "B" 3 s1) (λ '(_, s2),
  obind (open_new "C" 7 s2) (λ '(_, s3), Done s3))).

(** Scenario B: node X is opened, popped as the best node and closed. *)
Definition scenario_B : outcome (Handle * NodeList SampleNode) :=
  obind (open_new "X" 1 NodeList_ctor) (λ '(x, s1),
  obind (PopBestOpenNode s1) (λ '(_, s2),
  obind (InsertClosedNode x s2) (λ '(_, s3), Done (x, s3)))).

(** The states of the scenarios. *)
Definition node_A : SampleNode := mkSampleNode "A" 5.
Definition node_B : SampleNode := mkSampleNode "B" 3.
Definition node_C : SampleNode := mkSampleNode "C" 7.
Definition node_X : SampleNode := mkSampleNode "X" 1.

(** After scenario A: A, B and C are open, B is the root of the heap. *)
Definition opened_ABC : NodeList SampleNode :=
  mkNodeList [node_A; node_B; node_C]
    (<["C"%string := 2]> (<["B"%string := 1]> {["A"%string := 0]})) ∅
    [1; 0; 2] None.

(** After scenario B: X is closed. *)
Definition closed_X : NodeList SampleNode :=
  mkNodeList [node_X] ∅ {["X"%string := 0]} [] None.

(** A node has been created. *)
Definition created : NodeList SampleNode :=
  mkNodeList [item_init] ∅ ∅ [] (Some 0).

(** X has been created and filled in, and is still uncommitted. *)
Definition fresh_X : NodeList SampleNode :=
  mkNodeList [node_X] ∅ ∅ [] (Some 0).

(** X has been closed while it was the uncommitted node. *)
Definition closed_uncommitted : NodeList SampleNode :=
  mkNodeList [node_X] ∅ {["X"%string := 0]} [] (Some 0).

(** A is open and has been taken off the queue by [DequeueBestOpenNode]. *)
Definition dequeued_A : NodeList SampleNode :=
  mkNodeList [node_A] {["A"%string := 0]} ∅ [] None.

(** Two nodes were created and released by [FoundBestNode]. *)
Definition two_released : NodeList SampleNode :=
  mkNodeList [item_init; item_init] ∅ ∅ [] None.

(** The runs of the search loop that lead to these states. *)
Definition open_A_B_C : list (action SampleNode) :=
  [ Act_call Call_CreateNewNode; Act_store 0 node_A;
    Act_call (Call_InsertOpenNode 0);
    Act_call Call_CreateNewNode; Act_store 1 node_B;
    Act_call (Call_InsertOpenNode 1);
    Act_call Call_CreateNewNode; Act_store 2 node_C;
    Act_call (Call_InsertOpenNode 2) ].

Definition open_pop_close_X : list (action SampleNode) :=
  [ Act_call Call_CreateNewNode; Act_store 0 node_X;
    Act_call (Call_InsertOpenNode 0);
    Act_call Call_PopBestOpenNode;
    Act_call (Call_InsertClosedNode 0) ].

Definition close_uncommitted_X : list (action SampleNode) :=
  [ Act_store 0 node_X; Act_call (Call_InsertClosedNode 0) ].

Definition open_dequeue_A : list (action SampleNode) :=
  [ Act_call Call_CreateNewNode; Act_store 0 node_A;
    Act_call (Call_InsertOpenNode 0);
    Act_call Call_DequeueBestOpenNode ].

Definition create_release_twice : list (action SampleNode) :=
  [ Act_call Call_CreateNewNode; Act_call (Call_FoundBestNode 0);
    Act_call Call_CreateNewNode; Act_call (Call_FoundBestNode 1) ].

(** X is open and is the only node. *)
Definition opened_X : NodeList SampleNode :=
  mkNodeList [node_X] {["X"%string := 0]} ∅ [0] None.

(** X is closed and a further node has been created. *)
Definition created_beside_X : NodeList SampleNode :=
  mkNodeList [node_X; item_init] ∅ {["X"%string := 0]} [] (Some 1).

(** B with a higher cost estimate. *)
Definition node_B_late : SampleNode := mkSampleNode "B" 9.

Definition create_fill_X : list (action SampleNode) :=
  [ Act_call Call_CreateNewNode; Act_store 0 node_X ].

(** A, B and C are open; B was dequeued and, after a further node had been
    created, taken out of the open index. *)
Definition matched_B : NodeList SampleNode :=
  mkNodeList [node_A; node_B; node_C; item_init]
    (<["C"%string := 2]> {["A"%string := 0]}) ∅ [0; 2] (Some 3).

Definition open_dequeue_match_B : list (action SampleNode) :=
  open_A_B_C ++
  [ Act_call Call_DequeueBestOpenNode;
    Act_call Call_CreateNewNode;
    Act_call (Call_FindOpenNode "B"%string);
    Act_call (Call_PopAlreadyDequeuedOpenNode "B"%string) ].

(** The search loop has a node X of its own. *)
Definition own_X : InMemory.World SampleNode :=
  InMemory.mkWorld {[0 := node_X]} [] ∅ ∅ [] None.

(** It has opened this node. *)
Definition own_X_opened : InMemory.World SampleNode :=
  InMemory.mkWorld {[0 := node_X]} [] {["X"%string := 0]} ∅ [0] None.

(** ** Proof automation *)

(** Case analysis on the indices of a heap after a swap. *)
Ltac index_cases :=
  unfold ord_at in *; cbv beta in *;
  repeat case_decide;
  repeat match goal with
  | H : @eq nat ?a ?b |- _ => first [subst a | subst b | rewrite H in *; clear H | clear H]
  end;
  try lia.

(** Unfolding a method down to the matches on its collaborators' results. *)
Ltac run_method :=
  unfold CreateNewNode, FoundBestNode, InsertOpenNode, GetBestOpenNode,
    PopBestOpenNode, DequeueBestOpenNode, ReenqueueOpenNode,
    PopAlreadyDequeuedOpenNode, FindOpenNode, PopOpenNode, InsertClosedNode,
    FindClosedNode, OpenCount, ClosedCount, TotalCount,
    mbind, M_bind, mret, M_ret, gets, modify, lift, deref, obind,
    dbg_assert, assert_str_error, FatalErrorI, contract_broken,
    HashTable.Push, HashTable.Pop, HashTable.PopItem, HashTable.Find,
    BumpAllocContainer.New in *;
  simpl in *.

(** Unfolding a method of [InMemory] likewise. *)
Ltac run_in_memory :=
  unfold InMemory.CreateNewNode, InMemory.New, InMemory.FoundBestNode,
    InMemory.InsertOpenNode, InMemory.GetBestOpenNode,
    InMemory.PopBestOpenNode, InMemory.DequeueBestOpenNode,
    InMemory.ReenqueueOpenNode, InMemory.PopAlreadyDequeuedOpenNode,
    InMemory.FindOpenNode, InMemory.PopOpenNode, InMemory.InsertClosedNode,
    InMemory.FindClosedNode, InMemory.OpenCount, InMemory.ClosedCount,
    InMemory.TotalCount, InMemory.after,
    mbind, InMemory.M_bind, mret, InMemory.M_ret, InMemory.gets,
    InMemory.modify, InMemory.lift, InMemory.deref, obind,
    dbg_assert, assert_str_error, FatalErrorI, contract_broken,
    HashTable.Push, HashTable.Pop, HashTable.PopItem, HashTable.Find in *;
  simpl in *.

(** * Facts *)

(** ** The binary heap *)

Import CBinaryHeapT.

Lemma half_bounds n : 2 * (n / 2) ≤ n < 2 * (n / 2) + 2.
Proof.
  pose proof (Nat.div_mod_eq n 2).
  pose proof (Nat.mod_upper_bound n 2).
  lia.
Qed.

Lemma parent_below i : 0 < i → parent i < i.
Proof. unfold parent. pose proof (half_bounds (i - 1)). lia. Qed.

Lemma parent_children i g :
  0 < i → parent i = g → i = left_child g ∨ i = right_child g.
Proof.
  unfold parent, left_child, right_child.
  pose proof (half_bounds (i - 1)). lia.
Qed.

Lemma parent_left_child g : parent (left_child g) = g.
Proof.
  unfold parent, left_child. pose proof (half_bounds (2 * g + 1 - 1)). lia.
Qed.

Lemma parent_right_child g : parent (right_child g) = g.
Proof.
  unfold parent, right_child. pose proof (half_bounds (2 * g + 2 - 1)). lia.
Qed.

Lemma length_swap data i j : length (swap data i j) = length data.
Proof. unfold swap. by rewrite !length_insert. Qed.

Lemma swap_total data i j k :
  i < length data → j < length data →
  swap data i j !!! k =
    if decide (k = j) then data !!! i
    else if decide (k = i) then data !!! j else data !!! k.
Proof.
  intros Hi Hj. unfold swap.
  destruct (decide (k = j)) as [->|Hkj].
  - rewrite list_lookup_total_insert_eq; [done|by rewrite length_insert].
  - rewrite list_lookup_total_insert_ne by done.
    destruct (decide (k = i)) as [->|Hki].
    + by rewrite list_lookup_total_insert_eq.
    + by rewrite list_lookup_total_insert_ne.
Qed.

Lemma swap_Permutation data i j :
  i < length data → j < length data → swap data i j ≡ₚ data.
Proof.
  intros Hi Hj. unfold swap.
  apply Permutation_insert_swap; by apply list_lookup_lookup_total_lt.
Qed.

Section heap_facts.
Variable cost : Handle → Z.

Local Abbreviation ord_at := (ord_at cost).
Local Abbreviation heap_but := (heap_but cost).
Local Abbreviation grand_ok := (grand_ok cost).

Lemma by_cost_false a b : by_cost cost a b = false → (cost b ≤ cost a)%Z.
Proof. unfold by_cost. lia. Qed.
Lemma by_cost_true a b : by_cost cost a b = true → (cost a < cost b)%Z.
Proof. unfold by_cost. lia. Qed.

Lemma heap_but_all data g :
  heap_but (λ i, i = g) data → (0 < g < length data → ord_at data g) →
  heap_ordered cost data.
Proof.
  intros Hbut Hg i Hi. destruct (decide (i = g)) as [->|Hne]; [by apply Hg|].
  by apply Hbut.
Qed.

Lemma sift_up_ordered fuel : ∀ data g,
  g ≤ fuel → g < length data →
  heap_but (λ i, i = g) data → grand_ok data g →
  heap_ordered cost (sift_up (by_cost cost) fuel data g).
Proof.
  induction fuel as [|fuel IH]; intros data g Hfuel Hlen Hbut Hgrand; simpl.
  { apply (heap_but_all data g); [done|lia]. }
  destruct (decide (0 < g)) as [Hpos|Hroot];
    last by (apply (heap_but_all data g); [done|lia]).
  pose proof (parent_below g Hpos) as Hpg.
  destruct (by_cost cost _ _) eqn:Hlt.
  - apply by_cost_true in Hlt.
    assert (0 < parent g → ord_at data (parent g)) as Hup
      by (intros; apply Hbut; lia).
    apply IH; [lia|rewrite length_swap; lia| |].
    + intros i Hi Hne. rewrite length_swap in Hi. unfold ord_at in *.
      pose proof (parent_below i ltac:(lia)) as Hpi.
      pose proof (Hbut i Hi) as Hord. pose proof (Hgrand i Hpos Hi) as Hgr.
      rewrite !swap_total by lia.
      index_cases.
    + intros i Hpp Hi Hpar. rewrite length_swap in Hi. unfold ord_at in *.
      pose proof (parent_below _ Hpp).
      pose proof (Hbut i Hi) as Hord. 
      rewrite !swap_total by lia.
      index_cases.
  - apply by_cost_false in Hlt. by apply (heap_but_all data g).
Qed.

Lemma sift_up_length fuel : ∀ data g,
  length (sift_up (by_cost cost) fuel data g) = length data.
Proof.
  induction fuel as [|fuel IH]; intros data g; simpl; [done|].
  repeat case_match; try done. by rewrite IH, length_swap.
Qed.

Lemma sift_up_Permutation fuel : ∀ data g,
  g < length data → sift_up (by_cost cost) fuel data g ≡ₚ data.
Proof.
  induction fuel as [|fuel IH]; intros data g Hg; simpl; [done|].
  destruct (decide (0 < g)) as [Hpos|]; [|done].
  pose proof (parent_below g Hpos).
  case_match; [|done].
  rewrite IH by (rewrite length_swap; lia).
  apply swap_Permutation; lia.
Qed.

Lemma heap_but_down_all data g :
  heap_but (λ i, parent i = g) data →
  (∀ i, 0 < i < length data → parent i = g → ord_at data i) →
  heap_ordered cost data.
Proof.
  intros Hbut Hg i Hi. destruct (decide (parent i = g)) as [Heq|Hne];
    [by apply Hg|by apply Hbut].
Qed.

Lemma sift_down_ordered fuel : ∀ data g,
  length data - g ≤ fuel →
  heap_but (λ i, parent i = g) data → grand_ok data g →
  heap_ordered cost (sift_down (by_cost cost) fuel data g).
Proof.
  induction fuel as [|fuel IH]; intros data g Hfuel Hbut Hgrand; simpl.
  { apply (heap_but_down_all data g); [done|].
    intros i Hi Hp. pose proof (parent_below i). lia. }
  pose proof (parent_left_child g) as Hpl.
  pose proof (parent_right_child g) as Hpr.
  destruct (decide (left_child g < length data)) as [Hl|Hl]; last first.
  { apply (heap_but_down_all data g); [done|].
    intros i Hi Hp. apply parent_children in Hp; [|lia].
    unfold left_child, right_child in *. lia. }
  set (child := if decide (right_child g < length data) then _ else _).
  assert (parent child = g ∧ g < child < length data ∧
          (∀ i, 0 < i < length data → parent i = g →
             (cost (data !!! child) ≤ cost (data !!! i))%Z))
    as (Hpc & Hc & Hmin).
  { subst child. unfold left_child, right_child in *.
    destruct (decide (_ < length data)) as [Hr|Hr].
    - destruct (by_cost cost _ _) eqn:Hlt;
        [apply by_cost_true in Hlt|apply by_cost_false in Hlt];
        (split; [done|split; [lia|]]); intros i Hi Hp;
        apply parent_children in Hp; [|lia| |lia];
        unfold left_child, right_child in Hp;
        destruct Hp as [->| ->]; lia.
    - split; [done|split; [lia|]]. intros i Hi Hp.
      apply parent_children in Hp; [|lia].
      unfold left_child, right_child in Hp. destruct Hp as [->| ->]; lia. }
  clearbody child.
  destruct (by_cost cost _ _) eqn:Hlt.
  - apply by_cost_true in Hlt.
    apply IH; [rewrite length_swap; lia| |].
    + intros i Hi Hne. rewrite length_swap in Hi. unfold ord_at in *.
      pose proof (parent_below i ltac:(lia)) as Hpi.
      pose proof (Hbut i Hi) as Hord. pose proof (Hmin i Hi) as Hm.
      pose proof (Hgrand child) as Hgc.
      rewrite !swap_total by lia.
      index_cases.
    + intros i Hpp Hi Hpar. rewrite length_swap in Hi. unfold ord_at in *.
      pose proof (parent_below i ltac:(lia)) as Hpi.
      pose proof (Hbut i Hi) as Hord.
      rewrite !swap_total by lia.
      index_cases.
  - apply by_cost_false in Hlt.
    apply (heap_but_down_all data g); [done|].
    intros i Hi Hp. unfold ord_at. rewrite Hp. specialize (Hmin i Hi Hp). lia.
Qed.

Lemma sift_down_length fuel : ∀ data g,
  length (sift_down (by_cost cost) fuel data g) = length data.
Proof.
  induction fuel as [|fuel IH]; intros data g; simpl; [done|].
  repeat case_match; try done; by rewrite IH, length_swap.
Qed.

Lemma sift_down_Permutation fuel : ∀ data g,
  g < length data → sift_down (by_cost cost) fuel data g ≡ₚ data.
Proof.
  induction fuel as [|fuel IH]; intros data g Hg; simpl; [done|].
  unfold left_child, right_child.
  repeat case_match; try done;
    (rewrite IH by (rewrite length_swap; lia));
    apply swap_Permutation; lia.
Qed.

Lemma root_minimal data i :
  heap_ordered cost data → i < length data →
  (cost (data !!! 0%nat) ≤ cost (data !!! i))%Z.
Proof.
  intros Hord. induction (lt_wf i) as [i _ IH]. intros Hi.
  destruct (decide (i = 0)) as [->|Hpos]; [lia|].
  pose proof (parent_below i ltac:(lia)) as Hp.
  specialize (IH (parent i) Hp ltac:(lia)).
  specialize (Hord i ltac:(lia)). unfold ord_at in Hord. lia.
Qed.

Lemma split_last (data : list Handle) :
  0 < length data →
  data = take (length data - 1) data ++ [data !!! (length data - 1)].
Proof.
  destruct data as [|x data _] using rev_ind; simpl; [lia|]. intros _.
  rewrite length_app. simpl.
  replace (length data + 1 - 1) with (length data) by lia.
  rewrite take_app_length. by rewrite list_lookup_total_middle.
Qed.

Lemma replaced_total (data : list Handle) n index x k :
  length data = S n → index < length data → k < n →
  take n (<[index := x]> data) !!! k =
    if decide (k = index) then x else data !!! k.
Proof.
  intros Hn Hindex Hk. rewrite lookup_total_take_lt by done.
  case_decide as Heq.
  - subst k. by rewrite list_lookup_total_insert_eq.
  - by rewrite list_lookup_total_insert_ne.
Qed.

Lemma length_replaced (data : list Handle) n index x :
  length data = S n → length (take n (<[index := x]> data)) = n.
Proof. intros Hn. rewrite length_take, length_insert. lia. Qed.

Lemma replaced_Permutation (data : list Handle) n index :
  length data = S n → index < n →
  data ≡ₚ data !!! index :: take n (<[index := data !!! n]> data).
Proof.
  intros Hn Hindex.
  rewrite take_insert_lt by done.
  assert (length (take n data) = n) as Hfront by (rewrite length_take; lia).
  assert (data !!! index = take n data !!! index) as ->
    by (by rewrite lookup_total_take_lt).
  rewrite (split_last data) at 1 by lia.
  replace (length data - 1) with n by lia.
  set (front := take n data) in *. set (last := data !!! n).
  rewrite insert_take_drop by lia.
  rewrite (delete_Permutation front index (front !!! index)) at 1
    by (apply list_lookup_lookup_total_lt; lia).
  rewrite delete_take_drop.
  rewrite <-!Permutation_middle. simpl.
  by rewrite app_nil_r, Permutation_swap.
Qed.

Lemma Include_length item data :
  length (Include (by_cost cost) item data) = S (length data).
Proof. unfold Include. rewrite sift_up_length, length_app. simpl. lia. Qed.

Lemma Include_Permutation item data :
  Include (by_cost cost) item data ≡ₚ item :: data.
Proof.
  unfold Include. rewrite sift_up_Permutation.
  - by rewrite Permutation_app_comm.
  - rewrite length_app. simpl. lia.
Qed.

Lemma Include_ordered item data :
  heap_ordered cost data → heap_ordered cost (Include (by_cost cost) item data).
Proof.
  intros Hord. unfold Include. apply sift_up_ordered.
  - done.
  - rewrite length_app. simpl. lia.
  - intros i Hi Hne. rewrite length_app in Hi. simpl in Hi.
    pose proof (parent_below i ltac:(lia)).
    unfold ord_at. rewrite !lookup_total_app_l by lia.
    apply Hord. lia.
  - intros i Hg Hi Hp. rewrite length_app in Hi. simpl in Hi.
    pose proof (parent_below i ltac:(lia)). lia.
Qed.

Lemma Shift_cons x rest :
  Shift (by_cost cost) (x :: rest) =
  Done (x, sift_down (by_cost cost) (length rest)
             (take (length rest) (<[0 := (x :: rest) !!! length rest]> (x :: rest))) 0).
Proof. unfold Shift. cbn [length]. by rewrite Nat.sub_succ, Nat.sub_0_r. Qed.

Lemma Shift_Done first data data' :
  Shift (by_cost cost) data = Done (first, data') →
  data !! 0 = Some first ∧ data ≡ₚ first :: data' ∧
  length data = S (length data') ∧
  (heap_ordered cost data →
   heap_ordered cost data' ∧ ∀ x, x ∈ data → (cost first ≤ cost x)%Z).
Proof.
  destruct data as [|x rest]; [done|]. rewrite Shift_cons.
  set (data := x :: rest). set (n := length rest).
  assert (length data = S n) as Hn by done.
  set (data1 := take _ _).
  assert (length data1 = n) as Hlen1 by (by apply length_replaced).
  intros [= <- <-]. split; [done|]. 
  split; [|split].
  - destruct (decide (n = 0)) as [Hz|Hnz].
    { subst n data. destruct rest; [|done]. done. }
    rewrite sift_down_Permutation by lia.
    subst data1. apply (replaced_Permutation data n 0); [done|lia].
  - rewrite sift_down_length. lia.
  - intros Hord. split.
    + apply sift_down_ordered; [lia| |].
      * intros i Hi Hne. rewrite Hlen1 in Hi.
        pose proof (parent_below i ltac:(lia)).
        unfold ord_at. subst data1. 
        rewrite !(replaced_total data n) by lia.
        rewrite !decide_False by lia. apply Hord. lia.
      * intros i Hg. lia.
    + intros y [i Hi]%list_elem_of_lookup.
      pose proof (lookup_lt_Some _ _ _ Hi) as Hlt.
      apply list_lookup_total_correct in Hi. subst y.
      by apply (root_minimal data i).
Qed.

Lemma Shift_nonempty data :
  IsEmpty data = false →
  ∃ first data', Shift (by_cost cost) data = Done (first, data').
Proof. destruct data; [done|]. intros _. unfold Shift. eauto. Qed.

Lemma Shift_Done_nonempty first data data' :
  Shift (by_cost cost) data = Done (first, data') → IsEmpty data = false.
Proof. by destruct data. Qed.

Lemma IsEmpty_true data : IsEmpty data = true ↔ data = [].
Proof. by destruct data. Qed.

Lemma FindIndex_Done item data i :
  FindIndex item data = Done i → data !! i = Some item.
Proof.
  revert i. induction data as [|x data IH]; intros i; simpl; [done|].
  case_decide as Heq; [by intros [= <-]; subst|].
  destruct (FindIndex item data) as [j|]; simpl; [|done].
  intros [= <-]. simpl. by apply IH.
Qed.

Lemma FindIndex_elem item data :
  item ∈ data → ∃ i, FindIndex item data = Done i.
Proof.
  induction data as [|x data IH]; simpl; [by intros ?%elem_of_nil|].
  case_decide as Heq; [by eauto|].
  intros [?|Hin]%elem_of_cons; [done|].
  destruct (IH Hin) as [i ->]. simpl. eauto.
Qed.

Lemma Remove_Done index data data' :
  Remove (by_cost cost) index data = Done data' →
  index < length data ∧ data ≡ₚ data !!! index :: data' ∧
  (heap_ordered cost data → heap_ordered cost data').
Proof.
  unfold Remove. case_decide as Hindex; [|done]. simpl.
  set (n := length data - 1).
  assert (length data = S n) as Hn by lia.
  set (last := data !!! n). set (data1 := take n _).
  assert (length data1 = n) as Hlen1 by (by apply length_replaced).
  assert (∀ k, k < n →
    data1 !!! k = if decide (k = index) then last else data !!! k) as Hat.
  { intros k Hk. by apply replaced_total. }
  case_decide as Hlast.
  { intros [= <-]. split; [done|]. subst data1 last.
    rewrite take_insert_ge by lia. rewrite Hlast. split.
    - rewrite (split_last data) at 1 by lia.
      replace (length data - 1) with n by lia.
      by rewrite Permutation_app_comm.
    - intros Hord i Hi. rewrite length_take in Hi.
      pose proof (parent_below i ltac:(lia)).
      unfold ord_at. rewrite !lookup_total_take_lt by lia.
      apply Hord. lia. }
  assert (data ≡ₚ data !!! index :: data1) as Hperm
    by (apply replaced_Permutation; [done|lia]).
  destruct (bool_decide (0 < index) && _) eqn:Hup.
  - apply andb_prop in Hup as [Hpos%bool_decide_eq_true Hlt%by_cost_true].
    pose proof (parent_below index Hpos) as Hp.
    rewrite Hat in Hlt by lia. rewrite decide_False in Hlt by lia.
    intros [= <-]. split; [done|]. split.
    + rewrite sift_up_Permutation by lia. done.
    + intros Hord. apply sift_up_ordered; [done|lia| |].
      * intros i Hi Hne. rewrite Hlen1 in Hi.
        pose proof (parent_below i ltac:(lia)).
        pose proof (Hord i ltac:(lia)) as Hoi.
        pose proof (Hord index ltac:(lia)) as Hox.
        unfold ord_at in *. rewrite !Hat by lia. index_cases.
      * intros i _ Hi Hpi. rewrite Hlen1 in Hi.
        pose proof (Hord i ltac:(lia)) as Hoi.
        pose proof (Hord index ltac:(lia)) as Hox.
        unfold ord_at in *. rewrite !Hat by lia. index_cases.
  - intros [= <-]. split; [done|]. split.
    + rewrite sift_down_Permutation by lia. done.
    + intros Hord. apply sift_down_ordered; [lia| |].
      * intros i Hi Hne. rewrite Hlen1 in Hi.
        pose proof (parent_below i ltac:(lia)).
        pose proof (Hord i ltac:(lia)) as Hoi.
        unfold ord_at in *. rewrite !Hat by lia.
        destruct (decide (i = index)) as [->|Hne'].
        -- rewrite decide_False by lia.
           rewrite Hat in Hup by lia. rewrite decide_False in Hup by lia.
           apply andb_false_iff in Hup as [Hup|Hup].
           ++ apply bool_decide_eq_false in Hup. lia.
           ++ by apply by_cost_false in Hup.
        -- rewrite decide_False by done. done.
      * intros i Hpos Hi Hpi. rewrite Hlen1 in Hi.
        pose proof (parent_below index Hpos) as Hp.
        pose proof (Hord i ltac:(lia)) as Hoi.
        pose proof (Hord index ltac:(lia)) as Hox.
        unfold ord_at in *. rewrite !Hat by lia. index_cases.
Qed.
Lemma Remove_ok index data :
  index < length data →
  ∃ data', Remove (by_cost cost) index data = Done data'.
Proof.
  intros Hindex. unfold Remove. rewrite decide_True by done.
  simpl. repeat case_match; eauto.
Qed.
End heap_facts.

(** ** Counting with filters *)

Lemma filter_none {A} (P : A → Prop) `{∀ x, Decision (P x)} (l : list A) :
  (∀ x, x ∈ l → ¬ P x) → filter P l = [].
Proof.
  induction l as [|x l IH]; intros Hnone; [done|].
  rewrite filter_cons_False by (apply Hnone; by left).
  apply IH. intros y Hy. apply Hnone. by right.
Qed.

Lemma filter_ext_in {A} (P Q : A → Prop)
    `{∀ x, Decision (P x)} `{∀ x, Decision (Q x)} (l : list A) :
  (∀ x, x ∈ l → (P x ↔ Q x)) → filter P l = filter Q l.
Proof.
  induction l as [|x l IH]; intros Hiff; [done|].
  rewrite !filter_cons.
  rewrite IH by (intros y Hy; apply Hiff; by right).
  assert (P x ↔ Q x) as Hx by (apply Hiff; by left).
  destruct (decide (P x)), (decide (Q x)); tauto || done.
Qed.

Lemma length_filter_one_more `{EqDecision A} (P Q : A → Prop)
    `{∀ x, Decision (P x)} `{∀ x, Decision (Q x)} (l : list A) h :
  NoDup l → h ∈ l → P h → ¬ Q h → (∀ x, x ≠ h → (P x ↔ Q x)) →
  length (filter P l) = S (length (filter Q l)).
Proof.
  intros Hnodup Hin HPh HQh Hiff.
  induction l as [|x l IH]; [by apply elem_of_nil in Hin|].
  apply NoDup_cons in Hnodup as [Hx Hnodup].
  destruct (decide (x = h)) as [->|Hne].
  - rewrite filter_cons_True, filter_cons_False by done. simpl. f_equal.
    f_equal. apply filter_ext_in. intros y Hy. apply Hiff. by intros ->.
  - apply elem_of_cons in Hin as [Heq|Hin]; [done|].
    rewrite !filter_cons. specialize (IH Hnodup Hin).
    pose proof (Hiff x Hne) as Hxiff.
    destruct (decide (P x)), (decide (Q x)); simpl; tauto || by rewrite IH.
Qed.

Lemma length_filter_three {A} (P Q : A → Prop)
    `{∀ x, Decision (P x)} `{∀ x, Decision (Q x)} (l : list A) :
  (∀ x, ¬ (P x ∧ Q x)) →
  length l =
    length (filter P l) + length (filter Q l) +
    length (filter (λ x, ¬ P x ∧ ¬ Q x) l).
Proof.
  intros Hexcl. induction l as [|x l IH]; [done|].
  rewrite !filter_cons. simpl.
  destruct (decide (P x)) as [HP|HP], (decide (Q x)) as [HQ|HQ];
    [by destruct (Hexcl x)|..];
    destruct (decide (¬ P x ∧ ¬ Q x)) as [[? ?]|Hn]; simpl; try done; try lia.
  destruct Hn. done.
Qed.

(** ** The methods of the node list *)

Section node_list_facts.
Context {Titem : Type} {item_ops : NodeItem Titem}.
Implicit Types s : NodeList Titem.

Lemma CreateNewNode_eq s :
  CreateNewNode s =
  Done (match new_node s with
        | Some p => (p, s)
        | None => (length (items s),
                   mkNodeList (items s ++ [item_init]) (open_nodes s)
                     (closed_nodes s) (open_queue s) (Some (length (items s))))
        end).
Proof. run_method. by destruct (new_node s). Qed.

Lemma FoundBestNode_Done item s r s' :
  FoundBestNode item s = Done (r, s') →
  item < length (items s) ∧
  s' = if decide (Some item = new_node s) then set_new_node None s else s.
Proof.
  run_method. destruct (items s !! item) as [it|] eqn:Hit; [|done].
  apply lookup_lt_Some in Hit.
  case_decide; intros [= <- <-]; done.
Qed.

Lemma InsertOpenNode_Done item s r s' :
  InsertOpenNode item s = Done (r, s') →
  ∃ it, items s !! item = Some it ∧
    closed_nodes s !! GetKey it = None ∧
    open_nodes s !! GetKey it = None ∧
    s' = mkNodeList (items s) (<[GetKey it := item]> (open_nodes s))
           (closed_nodes s)
           (Include (item_lt (items s)) item (open_queue s))
           (if decide (Some item = new_node s) then None else new_node s).
Proof.
  run_method. destruct (items s !! item) as [it|] eqn:Hit; [|done].
  case_bool_decide as Hclosed; [|done]. simpl.
  destruct (open_nodes s !! GetKey it) eqn:Hopen; [done|]. simpl.
  case_decide as Hnew; intros [= <- <-]; exists it;
    unfold set_new_node; simpl; repeat split; try done.
Qed.

Lemma InsertOpenNode_ok item it s :
  items s !! item = Some it →
  closed_nodes s !! GetKey it = None →
  open_nodes s !! GetKey it = None →
  InsertOpenNode item s =
  Done (tt, mkNodeList (items s) (<[GetKey it := item]> (open_nodes s))
              (closed_nodes s)
              (Include (item_lt (items s)) item (open_queue s))
              (if decide (Some item = new_node s) then None else new_node s)).
Proof.
  intros Hit Hclosed Hopen. run_method. rewrite Hit.
  rewrite bool_decide_eq_true_2 by done. simpl. rewrite Hopen. simpl.
  by case_decide.
Qed.

Lemma GetBestOpenNode_eq s :
  GetBestOpenNode s = Done (head (open_queue s), s).
Proof. run_method. unfold IsEmpty, Begin. by destruct (open_queue s). Qed.

Lemma PopBestOpenNode_empty s :
  IsEmpty (open_queue s) = true → PopBestOpenNode s = Done (None, s).
Proof. intros Hq. run_method. by rewrite Hq. Qed.

Lemma PopBestOpenNode_Done s r s' :
  PopBestOpenNode s = Done (r, s') →
  (IsEmpty (open_queue s) = true ∧ r = None ∧ s' = s) ∨
  ∃ item q' it,
    r = Some item ∧
    Shift (item_lt (items s)) (open_queue s) = Done (item, q') ∧
    items s !! item = Some it ∧
    open_nodes s !! GetKey it = Some item ∧
    s' = mkNodeList (items s) (delete (GetKey it) (open_nodes s))
           (closed_nodes s) q' (new_node s).
Proof.
  run_method. destruct (IsEmpty (open_queue s)) eqn:Hq; simpl.
  { intros [= <- <-]. by left. }
  destruct (Shift _ _) as [[item q']|] eqn:HShift; simpl; [|done].
  destruct (items s !! item) as [it|] eqn:Hit; simpl; [|done].
  destruct (open_nodes s !! GetKey it) as [item'|] eqn:Hopen; simpl; [|done].
  case_decide as Heq; simpl; [|done]. subst item'.
  intros [= <- <-]. right. by exists item, q', it.
Qed.

Lemma PopBestOpenNode_ok s item q' it :
  Shift (item_lt (items s)) (open_queue s) = Done (item, q') →
  items s !! item = Some it →
  open_nodes s !! GetKey it = Some item →
  PopBestOpenNode s =
  Done (Some item, mkNodeList (items s) (delete (GetKey it) (open_nodes s))
                     (closed_nodes s) q' (new_node s)).
Proof.
  intros HShift Hit Hopen. run_method.
  rewrite (Shift_Done_nonempty _ _ _ _ HShift). simpl. rewrite HShift. simpl.
  rewrite Hit. simpl. rewrite Hopen. simpl. by rewrite decide_True.
Qed.

Lemma DequeueBestOpenNode_Done s r s' :
  DequeueBestOpenNode s = Done (r, s') →
  ∃ item q',
    Shift (item_lt (items s)) (open_queue s) = Done (item, q') ∧
    s' = set_open_queue q' s.
Proof.
  run_method. destruct (IsEmpty (open_queue s)); simpl; [done|].
  destruct (Shift _ _) as [[item q']|]; simpl; [|done].
  intros [= <- <-]. eauto.
Qed.

Lemma DequeueBestOpenNode_ok s item q' :
  Shift (item_lt (items s)) (open_queue s) = Done (item, q') →
  DequeueBestOpenNode s = Done (tt, set_open_queue q' s).
Proof.
  intros HShift. run_method.
  rewrite (Shift_Done_nonempty _ _ _ _ HShift). simpl. by rewrite HShift.
Qed.

Lemma ReenqueueOpenNode_Done item s r s' :
  ReenqueueOpenNode item s = Done (r, s') →
  item < length (items s) ∧
  s' = set_open_queue (Include (item_lt (items s)) item (open_queue s)) s.
Proof.
  run_method. destruct (items s !! item) as [it|] eqn:Hit; [|done].
  apply lookup_lt_Some in Hit. by intros [= <- <-].
Qed.

Lemma PopAlreadyDequeuedOpenNode_eq key s :
  PopAlreadyDequeuedOpenNode key s =
  match open_nodes s !! key with
  | Some item => Done (item, set_open_nodes (delete key (open_nodes s)) s)
  | None => contract_broken "hashtable.hpp" "Pop: key present"
  end.
Proof. run_method. by destruct (open_nodes s !! key). Qed.

Lemma PopOpenNode_Done key s item s' :
  PopOpenNode key s = Done (item, s') →
  open_nodes s !! key = Some item ∧
  ∃ index q',
    FindIndex item (open_queue s) = Done index ∧
    Remove (item_lt (items s)) index (open_queue s) = Done q' ∧
    s' = mkNodeList (items s) (delete key (open_nodes s)) (closed_nodes s)
           q' (new_node s).
Proof.
  run_method. destruct (open_nodes s !! key) as [item'|] eqn:Hopen; [|done].
  simpl. destruct (FindIndex _ _) as [index|] eqn:Hindex; simpl; [|done].
  destruct (Remove _ _ _) as [q'|] eqn:HRemove; simpl; [|done].
  intros [= <- <-]. split; [done|]. by exists index, q'.
Qed.

Lemma PopOpenNode_ok key s item index q' :
  open_nodes s !! key = Some item →
  FindIndex item (open_queue s) = Done index →
  Remove (item_lt (items s)) index (open_queue s) = Done q' →
  PopOpenNode key s =
  Done (item, mkNodeList (items s) (delete key (open_nodes s))
                (closed_nodes s) q' (new_node s)).
Proof.
  intros Hopen Hindex HRemove. run_method. rewrite Hopen. simpl.
  rewrite Hindex. simpl. by rewrite HRemove.
Qed.

Lemma InsertClosedNode_Done item s r s' :
  InsertClosedNode item s = Done (r, s') →
  ∃ it, items s !! item = Some it ∧
    open_nodes s !! GetKey it = None ∧
    closed_nodes s !! GetKey it = None ∧
    s' = set_closed_nodes (<[GetKey it := item]> (closed_nodes s)) s.
Proof.
  run_method. destruct (items s !! item) as [it|] eqn:Hit; [|done].
  case_bool_decide as Hopen; [|done]. simpl.
  destruct (closed_nodes s !! GetKey it) eqn:Hclosed; [done|]. simpl.
  intros [= <- <-]. by exists it.
Qed.

Lemma InsertClosedNode_ok item it s :
  items s !! item = Some it →
  open_nodes s !! GetKey it = None →
  closed_nodes s !! GetKey it = None →
  InsertClosedNode item s =
  Done (tt, set_closed_nodes (<[GetKey it := item]> (closed_nodes s)) s).
Proof.
  intros Hit Hopen Hclosed. run_method. rewrite Hit.
  rewrite bool_decide_eq_true_2 by done. simpl. by rewrite Hclosed.
Qed.

Lemma FindOpenNode_eq key s : FindOpenNode key s = Done (open_nodes s !! key, s).
Proof. done. Qed.

Lemma FindClosedNode_eq key s :
  FindClosedNode key s = Done (closed_nodes s !! key, s).
Proof. done. Qed.

Lemma after_Done {A} (m : M Titem A) s s' :
  after m s = Done s' → ∃ r, m s = Done (r, s').
Proof.
  unfold after, obind. destruct (m s) as [[r s1]|]; [|done].
  intros [= <-]. by exists r.
Qed.

(** The methods refine the transition relation. *)
Lemma exec_transition c s s' : exec c s = Done s' → transition s c s'.
Proof.
  destruct c; simpl; intros [r Hm]%after_Done.
  - rewrite CreateNewNode_eq in Hm.
    destruct (new_node s) as [p|] eqn:Hnew; injection Hm as <- <-.
    + by eapply tr_create_again.
    + by apply tr_create_fresh.
  - apply FoundBestNode_Done in Hm as [Hitem ->]. by constructor.
  - apply InsertOpenNode_Done in Hm as (it & ? & ? & ? & ->). by constructor.
  - rewrite GetBestOpenNode_eq in Hm. injection Hm as <- <-. constructor.
  - apply PopBestOpenNode_Done in Hm
      as [(? & -> & ->)|(item' & q' & it & -> & ? & ? & ? & ->)].
    + by constructor.
    + by econstructor.
  - apply DequeueBestOpenNode_Done in Hm as (item' & q' & ? & ->).
    by econstructor.
  - apply ReenqueueOpenNode_Done in Hm as [? ->]. by constructor.
  - rewrite PopAlreadyDequeuedOpenNode_eq in Hm.
    destruct (open_nodes s !! key) as [item'|] eqn:Hopen; [|done].
    injection Hm as <- <-. by econstructor.
  - injection Hm as <- <-. constructor.
  - apply PopOpenNode_Done in Hm as (? & index & q' & ? & ? & ->).
    by econstructor.
  - apply InsertClosedNode_Done in Hm as (it & ? & ? & ? & ->). by constructor.
  - injection Hm as <- <-. constructor.
  - injection Hm as <- <-. constructor.
  - injection Hm as <- <-. constructor.
  - injection Hm as <- <-. constructor.
Qed.

(** *** Invariant I1 *)

Lemma disjoint_index_ctor : disjoint_index (Titem := Titem) NodeList_ctor.
Proof. intros key [[? Hopen] _]. simpl in Hopen. by rewrite lookup_empty in Hopen. Qed.

Lemma transition_disjoint s c s' :
  transition s c s' → disjoint_index s → disjoint_index s'.
Proof.
  unfold disjoint_index.
  destruct 1; intros Hdis key'; try (by apply Hdis); simpl.
  - case_decide; by apply Hdis.
  - destruct (decide (GetKey it = key')) as [<-|Hne].
    + intros [_ [? Hc]]. congruence.
    + rewrite lookup_insert_ne by done. apply Hdis.
  - intros [[x [_ Hx]%lookup_delete_Some] Hc]. apply (Hdis key'). eauto.
  - intros [[x [_ Hx]%lookup_delete_Some] Hc]. apply (Hdis key'). eauto.
  - intros [[x [_ Hx]%lookup_delete_Some] Hc]. apply (Hdis key'). eauto.
  - destruct (decide (GetKey it = key')) as [<-|Hne].
    + intros [[? Ho] _]. congruence.
    + rewrite lookup_insert_ne by done. apply Hdis.
Qed.

Lemma step_disjoint allowed may_store s s' :
  step allowed may_store s s' → disjoint_index s → disjoint_index s'.
Proof.
  destruct 1 as [c s' _ Hexec|item v _].
  - apply exec_transition in Hexec. by eapply transition_disjoint.
  - done.
Qed.

Lemma rtc_step_disjoint allowed may_store s s' :
  rtc (step allowed may_store) s s' → disjoint_index s → disjoint_index s'.
Proof. induction 1; eauto using step_disjoint. Qed.

(** *** The entries of the tables are arena nodes under their own keys *)

Lemma keyed_ctor : keyed (Titem := Titem) [] ∅.
Proof. intros key item Hl. by rewrite lookup_empty in Hl. Qed.

Lemma keyed_delete its (t : gmap Key Handle) key :
  keyed its t → keyed its (delete key t).
Proof. intros Hk key' item [_ Hl]%lookup_delete_Some. by apply Hk. Qed.

Lemma keyed_insert its (t : gmap Key Handle) item it :
  its !! item = Some it → keyed its t → keyed its (<[GetKey it := item]> t).
Proof.
  intros Hit Hk key' item' [[<- <-]|[_ Hl]]%lookup_insert_Some; [|by apply Hk].
  split; [by eapply lookup_lt_Some|].
  by rewrite (list_lookup_total_correct _ _ _ Hit).
Qed.

Lemma keyed_alloc its (t : gmap Key Handle) v :
  keyed its t → keyed (its ++ [v]) t.
Proof.
  intros Hk key item Hl. destruct (Hk key item Hl) as [Hlt Hkey].
  rewrite length_app, lookup_total_app_l by done. split; [lia|done].
Qed.

Lemma transition_keyed s c s' :
  transition s c s' →
  keyed (items s) (open_nodes s) ∧ keyed (items s) (closed_nodes s) →
  keyed (items s') (open_nodes s') ∧ keyed (items s') (closed_nodes s').
Proof.
  destruct 1; intros [Hko Hkc]; simpl;
    eauto using keyed_delete, keyed_insert, keyed_alloc.
  by case_decide.
Qed.

Lemma store_keyed s item v :
  store_allowed s item v →
  keyed (items s) (open_nodes s) ∧ keyed (items s) (closed_nodes s) →
  keyed (items (store_item item v s)) (open_nodes s) ∧
  keyed (items (store_item item v s)) (closed_nodes s).
Proof.
  intros [Hitem Hkey] [Hopen Hclosed]. simpl.
  split; intros key item' Hl; rewrite length_insert.
  - destruct (Hopen key item' Hl) as [Hlt Hk]. split; [done|].
    destruct (decide (item' = item)) as [->|Hne].
    + rewrite list_lookup_total_insert_eq by done.
      rewrite Hkey; [done|]. left. unfold in_open. by subst key.
    + by rewrite list_lookup_total_insert_ne.
  - destruct (Hclosed key item' Hl) as [Hlt Hk]. split; [done|].
    destruct (decide (item' = item)) as [->|Hne].
    + rewrite list_lookup_total_insert_eq by done.
      rewrite Hkey; [done|]. right. unfold in_closed. by subst key.
    + by rewrite list_lookup_total_insert_ne.
Qed.

Lemma step_keyed allowed s s' :
  step allowed store_allowed s s' →
  keyed (items s) (open_nodes s) ∧ keyed (items s) (closed_nodes s) →
  keyed (items s') (open_nodes s') ∧ keyed (items s') (closed_nodes s').
Proof.
  destruct 1 as [c s' _ Hexec|item v Hallowed].
  - apply exec_transition in Hexec. by eapply transition_keyed.
  - intros Hk. exact (store_keyed s item v Hallowed Hk).
Qed.

Lemma reachable_via_invariants allowed s :
  reachable_via allowed s →
  disjoint_index s ∧
  keyed (items s) (open_nodes s) ∧ keyed (items s) (closed_nodes s).
Proof.
  unfold reachable_via. revert s.
  apply (rtc_ind_r (R := step allowed store_allowed) (λ s, disjoint_index s ∧
    keyed (items s) (open_nodes s) ∧ keyed (items s) (closed_nodes s))).
  - split; [apply disjoint_index_ctor|]. split; apply keyed_ctor.
  - intros s1 s2 _ Hstep [Hdis Hkeyed].
    split; [by eapply step_disjoint|by eapply step_keyed].
Qed.

(** *** The queue and the open index have the same number of entries *)

Lemma transition_paired s c s' :
  transition s c s' → combined_call c →
  size (open_nodes s) = length (open_queue s) →
  size (open_nodes s') = length (open_queue s').
Proof.
  unfold combined_call.
  destruct 1; intros Hc Hsize; simpl in *; try done.
  - by case_decide.
  - rewrite map_size_insert_None by done.
    unfold item_lt. by rewrite Include_length, Hsize.
  - apply Shift_Done in HShift as (_ & _ & Hlen & _).
    pose proof (map_size_delete_Some _ _ (mk_is_Some _ _ Hopen)). lia.
  - apply Remove_Done in HRemove as (_ & Hperm & _).
    apply Permutation_length in Hperm. simpl in Hperm.
    pose proof (map_size_delete_Some _ _ (mk_is_Some _ _ Hopen)). lia.
Qed.

Lemma reachable_combined_paired s :
  reachable_via combined_call s →
  size (open_nodes s) = length (open_queue s).
Proof.
  unfold reachable_via. revert s.
  apply (rtc_ind_r (R := step combined_call store_allowed)
    (λ s, size (open_nodes s) = length (open_queue s))); [done|].
  intros s1 s2 _ [c s' Hc Hexec|item v _] Hsize; [|done].
  apply exec_transition in Hexec. by eapply transition_paired.
Qed.

(** *** The frame of [new_node] *)

Lemma transition_new_node s c s' p :
  transition s c s' → keeps_new_node c →
  new_node s = Some p → new_node s' = Some p.
Proof.
  unfold keeps_new_node. destruct 1; intros Hc Hp; simpl in *; congruence.
Qed.

Lemma steps_new_node may_store s s' p :
  rtc (step keeps_new_node may_store) s s' →
  new_node s = Some p → new_node s' = Some p.
Proof.
  induction 1 as [|s1 s2 s3 Hstep _ IH]; [done|]. intros Hnew. apply IH.
  destruct Hstep as [c s' Hc Hexec|item v _]; [|done].
  apply exec_transition in Hexec. by eapply transition_new_node.
Qed.

(** *** The queue stays a heap while the open set is filled *)

Lemma heap_ordered_ext (cost cost' : Handle → Z) data :
  (∀ x, x ∈ data → cost' x = cost x) →
  heap_ordered cost data → heap_ordered cost' data.
Proof.
  intros Hext Hord i Hi. unfold ord_at.
  pose proof (parent_below i ltac:(lia)).
  rewrite !Hext by (apply list_elem_of_lookup_total_2; lia).
  by apply Hord.
Qed.

Lemma Include_valid (P : Handle → Prop) cost item data :
  P item → (∀ x, x ∈ data → P x) →
  ∀ x, x ∈ Include (by_cost cost) item data → P x.
Proof.
  intros Hitem Hdata x. rewrite Include_Permutation.
  intros [->|?]%elem_of_cons; eauto.
Qed.

Lemma fill_heap s s' :
  fill s s' → queue_ordered s ∧ queue_valid s →
  queue_ordered s' ∧ queue_valid s'.
Proof.
  unfold queue_ordered, queue_valid.
  destruct 1 as [c s' Hc Hexec|item v [Hitem Hnotin]]; intros [Hord Hvalid].
  - apply exec_transition in Hexec.
    destruct Hexec; try discriminate Hc; simpl; try done.
    + split.
      * eapply heap_ordered_ext; [|done]. intros x Hx. unfold cost_of.
        by rewrite lookup_total_app_l by eauto.
      * intros x Hx. rewrite length_app. specialize (Hvalid x Hx). lia.
    + split.
      * by apply Include_ordered.
      * apply Include_valid; [by eapply lookup_lt_Some|done].
    + split.
      * by apply Include_ordered.
      * by apply Include_valid.
  - simpl. split.
    + eapply heap_ordered_ext; [|done]. intros x Hx. unfold cost_of.
      rewrite list_lookup_total_insert_ne; [done|]. by intros ->.
    + intros x Hx. rewrite length_insert. by apply Hvalid.
Qed.

Lemma fills_heap s s' :
  rtc fill s s' → queue_ordered s ∧ queue_valid s →
  queue_ordered s' ∧ queue_valid s'.
Proof. induction 1; eauto using fill_heap. Qed.

(** *** Popping the best node of a paired open set *)

Lemma queue_head_indexed s item q' :
  queue_indexed s →
  Shift (item_lt (items s)) (open_queue s) = Done (item, q') →
  items s !! item = Some (items s !!! item) ∧ in_open s item ∧
  (item ∉ q') ∧ NoDup q' ∧ (∀ x, x ∈ q' → x ∈ open_queue s).
Proof.
  intros [Hnodup Hin] HShift.
  apply Shift_Done in HShift as (Hhead & Hperm & _ & _).
  destruct (Hin item) as [Hlt Hopen]; [by eapply list_elem_of_lookup_2|].
  rewrite Hperm in Hnodup. apply NoDup_cons in Hnodup as [Hnotin Hnodup].
  split; [by apply list_lookup_lookup_total_lt|].
  repeat split; try done.
  intros x Hx. rewrite Hperm. by right.
Qed.

Lemma PopBestOpenNode_paired s :
  queue_indexed s → IsEmpty (open_queue s) = false →
  ∃ item q',
    Shift (item_lt (items s)) (open_queue s) = Done (item, q') ∧
    in_open s item ∧
    PopBestOpenNode s =
      Done (Some item,
            mkNodeList (items s)
              (delete (GetKey (items s !!! item)) (open_nodes s))
              (closed_nodes s) q' (new_node s)).
Proof.
  intros Hpaired Hne.
  destruct (Shift_nonempty (cost_of (items s)) _ Hne) as (item & q' & HShift).
  destruct (queue_head_indexed s item q' Hpaired HShift) as (Hit & Hopen & _).
  exists item, q'. split; [done|]. split; [done|].
  by apply (PopBestOpenNode_ok s item q' (items s !!! item)).
Qed.

Lemma pop_queue_indexed s item q' :
  queue_indexed s →
  Shift (item_lt (items s)) (open_queue s) = Done (item, q') →
  queue_indexed
    (mkNodeList (items s) (delete (GetKey (items s !!! item)) (open_nodes s))
       (closed_nodes s) q' (new_node s)).
Proof.
  intros Hpaired HShift.
  destruct (queue_head_indexed s item q' Hpaired HShift)
    as (_ & Hopen & Hnotin & Hnodup & Hsub).
  destruct Hpaired as [_ Hin]. split; [done|]. simpl.
  intros x Hx. destruct (Hin x (Hsub x Hx)) as [Hlt Hxo]. split; [done|].
  unfold in_open in *. simpl. apply lookup_delete_Some. split; [|done].
  intros Hkey. rewrite Hkey in Hopen.
  assert (x = item) as -> by congruence. done.
Qed.

Lemma pop_index_queued s item q' :
  keyed (items s) (open_nodes s) → index_queued s →
  Shift (item_lt (items s)) (open_queue s) = Done (item, q') →
  index_queued
    (mkNodeList (items s) (delete (GetKey (items s !!! item)) (open_nodes s))
       (closed_nodes s) q' (new_node s)).
Proof.
  intros Hkeyed Hiq HShift key x Hl. simpl in *.
  apply lookup_delete_Some in Hl as [Hne Hl].
  apply Shift_Done in HShift as (_ & Hperm & _ & _).
  pose proof (Hiq key x Hl) as Hx. rewrite Hperm in Hx.
  apply elem_of_cons in Hx as [->|Hx]; [|done].
  destruct (Hkeyed key item Hl) as [_ Hkey]. done.
Qed.

(** *** Draining the queue *)

Lemma drain_elem n : ∀ s x, x ∈ drain n s → x ∈ open_queue s.
Proof.
  induction n as [|n IH]; intros s x; simpl; [by intros ?%elem_of_nil|].
  destruct (PopBestOpenNode s) as [[[item|] s']|] eqn:Hpop;
    try (by intros ?%elem_of_nil).
  apply PopBestOpenNode_Done in Hpop
    as [(_ & [=] & _)|(item' & q' & it & [= <-] & HShift & _ & _ & ->)].
  apply Shift_Done in HShift as (Hhead & Hperm & _).
  rewrite Hperm. intros [->|Hx]%elem_of_cons; [by left|right].
  by apply (IH _ _ Hx).
Qed.

Lemma drain_sorted n : ∀ s,
  queue_ordered s →
  StronglySorted Z.le (cost_of (items s) <$> drain n s).
Proof.
  induction n as [|n IH]; intros s Hord; simpl; [constructor|].
  destruct (PopBestOpenNode s) as [[[item|] s']|] eqn:Hpop; try constructor.
  - apply PopBestOpenNode_Done in Hpop
      as [(_ & [=] & _)|(item' & q' & it & [= <-] & HShift & _ & _ & ->)].
    apply Shift_Done in HShift as (_ & _ & _ & Hheap).
    destruct (Hheap Hord) as [Hord' _]. by apply (IH (mkNodeList _ _ _ _ _)).
  - apply Forall_fmap, Forall_forall. intros x Hx%drain_elem. simpl.
    apply PopBestOpenNode_Done in Hpop
      as [(_ & [=] & _)|(item' & q' & it & [= <-] & HShift & _ & _ & ->)].
    apply Shift_Done in HShift as (_ & Hperm & _ & Hheap).
    destruct (Hheap Hord) as [_ Hmin]. simpl in Hx.
    apply Hmin. rewrite Hperm. by right.
Qed.

Lemma drain_complete n : ∀ s,
  queue_indexed s → length (open_queue s) ≤ n →
  drain n s ≡ₚ open_queue s ∧ open_queue (drained n s) = [] ∧
  items (drained n s) = items s ∧
  (keyed (items s) (open_nodes s) → index_queued s →
   open_nodes (drained n s) = ∅).
Proof.
  induction n as [|n IH]; intros s Hpaired Hlen; simpl.
  { destruct (open_queue s) eqn:Hq; simpl in Hlen; [|lia].
    repeat split; try done. intros _ Hiq. apply map_empty. intros key.
    destruct (open_nodes s !! key) as [x|] eqn:Hl; [|done].
    apply Hiq in Hl. rewrite Hq in Hl. by apply elem_of_nil in Hl. }
  destruct (IsEmpty (open_queue s)) eqn:Hempty.
  { rewrite PopBestOpenNode_empty by done. apply IsEmpty_true in Hempty.
    rewrite Hempty. repeat split; try done. intros _ Hiq. apply map_empty.
    intros key. destruct (open_nodes s !! key) as [x|] eqn:Hl; [|done].
    apply Hiq in Hl. rewrite Hempty in Hl. by apply elem_of_nil in Hl. }
  destruct (PopBestOpenNode_paired s Hpaired Hempty)
    as (item & q' & HShift & Hopen & ->).
  pose proof (pop_queue_indexed s item q' Hpaired HShift) as Hpaired'.
  pose proof HShift as (_ & Hperm & Hlen' & _)%Shift_Done.
  destruct (IH _ Hpaired') as (Hdrain & Hq & Hitems & Hidx);
    [simpl; lia|].
  simpl in *. split; [by rewrite Hdrain, Hperm|]. split; [done|].
  split; [done|]. intros Hkeyed Hiq. apply Hidx.
  - by apply keyed_delete.
  - by apply pop_index_queued.
Qed.

Lemma to_int_small n : (Z.of_nat n ≤ INT_MAX)%Z → to_int n = Z.of_nat n.
Proof.
  unfold INT_MAX, to_int. intros Hn.
  rewrite Z.mod_small by lia. by rewrite (proj2 (Z.ltb_lt _ _)) by lia.
Qed.
(** *** Invariant I2 in the settled states *)

Lemma paired_heap_ctor : paired_heap (NodeList_ctor (Titem := Titem)).
Proof.
  split; [|split; [|split]].
  - split; [apply NoDup_nil_2|]. by intros item ?%elem_of_nil.
  - intros key item Hl. simpl in Hl. by rewrite lookup_empty in Hl.
  - intros i Hi. simpl in Hi. lia.
  - apply keyed_ctor.
Qed.

Lemma transition_paired_heap s c s' :
  transition s c s' → combined_call c → paired_heap s → paired_heap s'.
Proof.
  unfold combined_call.
  destruct 1; intros Hc ([Hnodup Hin] & Hiq & Hord & Hkeyed);
    try discriminate Hc; try done;
    unfold paired_heap, queue_indexed, index_queued, queue_ordered, in_open
      in *; simpl in *.
  - (* a fresh node *)
    split; [|split; [|split]]; simpl.
    + split; [done|]. intros x Hx. destruct (Hin x Hx) as [Hlt Hxo].
      rewrite length_app. split; [lia|]. unfold in_open in *. simpl.
      by rewrite lookup_total_app_l.
    + done.
    + eapply heap_ordered_ext; [|done]. intros x Hx. unfold cost_of.
      rewrite lookup_total_app_l; [done|]. by apply Hin.
    + by apply keyed_alloc.
  - (* FoundBestNode *)
    by case_decide.
  - (* InsertOpenNode *)
    assert (item ∉ open_queue s) as Hnotin.
    { intros [_ Hxo]%Hin. unfold in_open in Hxo.
      rewrite (list_lookup_total_correct _ _ _ Hit) in Hxo. congruence. }
    split; [|split; [|split]]; simpl.
    + split.
      * unfold item_lt. rewrite Include_Permutation. by apply NoDup_cons.
      * intros x. unfold item_lt. rewrite Include_Permutation.
        unfold in_open. simpl.
        intros [->|Hx]%elem_of_cons.
        -- split; [by eapply lookup_lt_Some|].
           rewrite (list_lookup_total_correct _ _ _ Hit).
           apply lookup_insert_eq.
        -- destruct (Hin x Hx) as [Hlt Hxo]. split; [done|].
           unfold in_open in Hxo. rewrite lookup_insert_ne; [done|].
           intros Hkey. rewrite Hkey in Hopen. congruence.
    + intros key x. unfold item_lt. rewrite Include_Permutation.
      intros [[_ <-]|[_ Hl]]%lookup_insert_Some; [by left|right; eauto].
    + by apply Include_ordered.
    + by apply keyed_insert.
  - (* PopBestOpenNode *)
    rewrite <-(list_lookup_total_correct _ _ _ Hit).
    split; [|split; [|split]].
    + by apply (pop_queue_indexed s item q').
    + by apply (pop_index_queued s item q').
    + apply Shift_Done in HShift as (_ & _ & _ & Hheap). by apply Hheap.
    + by apply keyed_delete.
  - (* PopOpenNode *)
    apply Remove_Done in HRemove as (Hlt & Hperm & Hheap).
    apply FindIndex_Done in Hindex.
    rewrite (list_lookup_total_correct _ _ _ Hindex) in Hperm.
    pose proof Hnodup as Hnodup'. rewrite Hperm in Hnodup'.
    apply NoDup_cons in Hnodup' as [Hnotin Hnodup'].
    destruct (Hkeyed key item Hopen) as [_ Hkey].
    split; [|split; [|split]]; simpl.
    + split; [done|]. intros x Hx.
      destruct (Hin x) as [Hxlt Hxo]; [rewrite Hperm; by right|].
      split; [done|]. unfold in_open in *. simpl.
      apply lookup_delete_Some. split; [|done].
      intros Hk. rewrite <-Hk in Hxo.
      assert (x = item) as -> by congruence. done.
    + intros key' x [Hne Hl]%lookup_delete_Some.
      pose proof (Hiq key' x Hl) as Hx. rewrite Hperm in Hx.
      apply elem_of_cons in Hx as [->|Hx]; [|done].
      destruct (Hkeyed key' item Hl) as [_ Hkey']. congruence.
    + by apply Hheap.
    + by apply keyed_delete.
Qed.

Lemma store_paired_heap s item v :
  store_settled s item v → paired_heap s → paired_heap (store_item item v s).
Proof.
  intros [Hallowed [Hitem Hnotin]] ([Hnodup Hin] & Hiq & Hord & Hkeyed).
  assert (∀ x, x ∈ open_queue s →
    <[item := v]> (items s) !!! x = items s !!! x) as Hsame.
  { intros x Hx. rewrite list_lookup_total_insert_ne; [done|]. by intros ->. }
  unfold paired_heap, queue_indexed, index_queued, queue_ordered, in_open
    in *; simpl in *.
  split; [|split; [|split]].
  - split; [done|]. intros x Hx. destruct (Hin x Hx) as [Hlt Hxo].
    rewrite length_insert. split; [done|]. unfold in_open in *. simpl.
    by rewrite Hsame.
  - done.
  - eapply heap_ordered_ext; [|done]. intros x Hx. unfold cost_of.
    by rewrite Hsame.
  - intros key x Hl. rewrite length_insert.
    destruct (Hkeyed key x Hl) as [Hlt Hkey]. split; [done|].
    rewrite Hsame; [done|]. by eapply Hiq.
Qed.

Lemma settled_paired_heap s : settled s → paired_heap s.
Proof.
  unfold settled. revert s.
  apply (rtc_ind_r (R := step combined_call store_settled) paired_heap).
  - apply paired_heap_ctor.
  - intros s1 s2 _ [c s' Hc Hexec|item v Hstore] Hpaired.
    + apply exec_transition in Hexec. by eapply transition_paired_heap.
    + by apply store_paired_heap.
Qed.
Lemma settled_reachable s : settled s → reachable_via combined_call s.
Proof.
  unfold settled, reachable_via. apply rtc_subrel.
  intros s1 s2 [c s' Hc Hexec|item v [Hstore _]].
  - by apply (step_call _ _ _ c).
  - by apply step_store.
Qed.

End node_list_facts.

(** ** Runs and scenarios *)

Lemma scenario_A_state : scenario_A = Done opened_ABC.
Proof. vm_compute. reflexivity. Qed.

Lemma scenario_B_state : scenario_B = Done (0, closed_X).
Proof. vm_compute. reflexivity. Qed.

Section runs.
Context {Titem : Type} {item_ops : NodeItem Titem}.
Implicit Types s : NodeList Titem.

Lemma store_allowed_b_true s item v :
  store_allowed_b s item v = true → store_allowed s item v.
Proof.
  unfold store_allowed_b, store_allowed, in_open, in_closed.
  intros [Hitem%bool_decide_eq_true Himpl]%andb_prop. split; [done|].
  intros Hindexed.
  destruct (bool_decide (GetKey v = _)) eqn:Hkey;
    [by apply bool_decide_eq_true in Hkey|].
  rewrite implb_false_r in Himpl. apply negb_true_iff, orb_false_iff in Himpl.
  destruct Himpl as [Ho%bool_decide_eq_false Hc%bool_decide_eq_false].
  by destruct Hindexed.
Qed.

Lemma store_unqueued_b_true s item v :
  store_unqueued_b s item v = true → store_unqueued s item v.
Proof.
  unfold store_unqueued_b, store_unqueued.
  by intros [?%bool_decide_eq_true ?%bool_decide_eq_true]%andb_prop.
Qed.

Lemma store_settled_b_true s item v :
  store_settled_b s item v = true → store_settled s item v.
Proof.
  unfold store_settled_b, store_settled.
  intros [?%store_allowed_b_true ?%store_unqueued_b_true]%andb_prop. done.
Qed.

(** A run that evaluates to a state is a sequence of steps to it. *)
Lemma run_sound (allowed : call Titem → Prop) allowed_b
    (may_store : NodeList Titem → Handle → Titem → Prop) may_store_b :
  (∀ c, allowed_b c = true → allowed c) →
  (∀ s item v, may_store_b s item v = true → may_store s item v) →
  ∀ acts s s',
    run allowed_b may_store_b acts s = Some s' →
    rtc (step allowed may_store) s s'.
Proof.
  intros Hallowed Hstore acts.
  induction acts as [|[c|item v] acts IH]; intros s s'; simpl.
  - intros [= <-]. apply rtc_refl.
  - destruct (allowed_b c) eqn:Hc; [|done].
    destruct (exec c s) as [s1|] eqn:Hexec; [|done]. intros Hrun.
    eapply rtc_l; [|by apply IH]. apply (step_call _ _ _ c); auto.
  - destruct (may_store_b s item v) eqn:Hs; [|done]. intros Hrun.
    eapply rtc_l; [|by apply IH]. apply step_store; auto.
Qed.

Lemma run_reachable (allowed : call Titem → Prop) allowed_b acts s :
  (∀ c, allowed_b c = true → allowed c) →
  run allowed_b store_allowed_b acts NodeList_ctor = Some s →
  reachable_via allowed s.
Proof.
  intros Hallowed Hrun. unfold reachable_via.
  eapply run_sound; [done|apply store_allowed_b_true|done].
Qed.
End runs.

(** ** The reports of [src/error.cpp] *)

Lemma string_of_uint_blank_free d : blank_free (NilEmpty.string_of_uint d).
Proof. induction d; simpl; (split; [discriminate|done]) || done. Qed.

Lemma format_line_blank_free line : blank_free (format_line line).
Proof.
  unfold format_line, NilZero.string_of_uint.
  destruct (Nat.to_uint line); try apply string_of_uint_blank_free.
  simpl. split; [discriminate|done].
Qed.

Lemma to_uint_nonnil n : Nat.to_uint n ≠ Decimal.Nil.
Proof.
  pose proof (Unsigned.to_of (Nat.to_uint n)) as Hn.
  rewrite Unsigned.of_to in Hn. rewrite Hn. unfold Decimal.unorm.
  destruct (Decimal.nzhead _); discriminate.
Qed.

Lemma format_line_inj line line' :
  format_line line = format_line line' → line = line'.
Proof.
  unfold format_line. intros Heq.
  pose proof (NilZero.usu _ (to_uint_nonnil line)) as H1.
  pose proof (NilZero.usu _ (to_uint_nonnil line')) as H2.
  rewrite Heq in H1. rewrite H1 in H2. injection H2 as H2.
  rewrite <-(Unsigned.of_to line), <-(Unsigned.of_to line'). by rewrite H2.
Qed.

(** Two texts that agree and start with a word and a blank start with the
    same word. *)
Lemma word_then_blank a : ∀ b x y,
  blank_free a → blank_free b →
  a +:+ String " " x = b +:+ String " " y → a = b ∧ x = y.
Proof.
  induction a as [|c a IH]; intros [|c' b] x y Ha Hb Heq; simpl in *.
  - by injection Heq as ->.
  - injection Heq as <- _. by destruct Hb.
  - injection Heq as -> _. by destruct Ha.
  - injection Heq as -> Heq. destruct Ha as [_ Ha], Hb as [_ Hb].
    destruct (IH b x y Ha Hb Heq) as [-> ->]. done.
Qed.

Lemma length_append (a b : string) :
  String.length (a +:+ b) = String.length a + String.length b.
Proof. induction a; simpl; [done|]. by rewrite IHa. Qed.

Lemma append_assoc (a b c : string) : (a +:+ b) +:+ c = a +:+ b +:+ c.
Proof.
  induction a as [|x a IH]; [done|].
  change (String x ((a +:+ b) +:+ c) = String x (a +:+ b +:+ c)).
  by rewrite IH.
Qed.

Lemma append_inv_head (a x y : string) : a +:+ x = a +:+ y → x = y.
Proof. induction a; simpl; [done|]. intros [= Heq]. auto. Qed.

Lemma c_str_nul_free str : nul_free (c_str str).
Proof.
  induction str as [|c str IH]; simpl; [done|].
  destruct (Ascii.eqb c Ascii.zero) eqn:Hc; simpl; [done|].
  split; [|done]. intros ->. by rewrite Ascii.eqb_refl in Hc.
Qed.

Lemma c_str_id str : nul_free str → c_str str = str.
Proof.
  induction str as [|c str IH]; simpl; [done|]. intros [Hc Hstr].
  destruct (Ascii.eqb_spec c Ascii.zero); [done|]. by rewrite IH.
Qed.

Lemma c_str_prefix str : ∃ rest, str = c_str str +:+ rest.
Proof.
  induction str as [|c str [rest IH]]; simpl; [by exists ""%string|].
  destruct (Ascii.eqb c Ascii.zero).
  - by exists (String c str).
  - exists rest. rewrite IH at 1. reflexivity.
Qed.

(** The report of a failed assertion starts with the line number and a
    blank. *)
Lemma assert_message_shape line file expr str :
  ∃ rest,
    assert_message line file expr str =
    ("Assertion failed at line " +:+ format_line line +:+ String " " rest)%string.
Proof.
  unfold assert_message. destruct str as [t|].
  - exists (("of " +:+ file +:+ ": " +:+ expr) +:+ newline +:+ t)%string.
    rewrite !append_assoc. reflexivity.
  - eexists. reflexivity.
Qed.

(** ** More about the node list *)

Section more_facts.
Context {Titem : Type} {item_ops : NodeItem Titem}.
Implicit Types s : NodeList Titem.

(** *** The methods when they return *)

Lemma FoundBestNode_ok item s :
  item < length (items s) →
  FoundBestNode item s =
  Done (tt, if decide (Some item = new_node s) then set_new_node None s else s).
Proof.
  intros [it Hit]%lookup_lt_is_Some. run_method. rewrite Hit.
  by case_decide.
Qed.

Lemma ReenqueueOpenNode_ok item s :
  item < length (items s) →
  ReenqueueOpenNode item s =
  Done (tt, set_open_queue
              (Include (item_lt (items s)) item (open_queue s)) s).
Proof. intros [it Hit]%lookup_lt_is_Some. run_method. by rewrite Hit. Qed.

Lemma DequeueBestOpenNode_empty s :
  IsEmpty (open_queue s) = true →
  DequeueBestOpenNode s =
  assert_str_error 109 nodelist_hpp "!this->open_queue.IsEmpty()" None.
Proof. intros Hempty. run_method. by rewrite Hempty. Qed.

(** The node [CreateNewNode] returns is then the uncommitted node. *)
Lemma CreateNewNode_new_node s item s1 :
  CreateNewNode s = Done (item, s1) →
  new_node s1 = Some item ∧
  (new_node_valid s → item < length (items s1)).
Proof.
  rewrite CreateNewNode_eq.
  destruct (new_node s) as [p|] eqn:Hn; intros [= <- <-]; simpl.
  - split; [done|]. intros Hvalid. by apply Hvalid.
  - split; [done|]. intros _. rewrite length_app. simpl. lia.
Qed.

(** The best node after one more node has been put into the queue. *)
Lemma Include_best (cost : Handle → Z) item data :
  heap_ordered cost data →
  ∃ best,
    head (Include (by_cost cost) item data) = Some best ∧
    (best = item ∨ best ∈ data) ∧
    (cost best ≤ cost item)%Z ∧
    ∀ x, x ∈ data → (cost best ≤ cost x)%Z.
Proof.
  intros Hord.
  pose proof (Include_ordered cost item data Hord) as Hord'.
  pose proof (Include_Permutation cost item data) as Hperm.
  pose proof (Include_length cost item data) as Hlen.
  destruct (Include (by_cost cost) item data) as [|best q] eqn:Hq;
    [done|].
  exists best. split; [done|].
  assert (∀ x, x ∈ item :: data → (cost best ≤ cost x)%Z) as Hmin.
  { intros x Hx. rewrite <-Hperm in Hx.
    apply list_elem_of_lookup in Hx as [i Hi].
    pose proof (root_minimal cost (best :: q) i Hord') as Hroot.
    rewrite (list_lookup_total_correct _ _ _ Hi) in Hroot.
    apply Hroot. by eapply lookup_lt_Some. }
  split; [|split].
  - assert (best ∈ item :: data) as [->|Hb]%elem_of_cons;
      [rewrite <-Hperm; by left|by left|by right].
  - apply Hmin. by left.
  - intros x Hx. apply Hmin. by right.
Qed.

(** *** The pointers of the node list designate nodes *)

Lemma transition_queue_valid s c s' :
  transition s c s' → queue_valid s → queue_valid s'.
Proof.
  destruct 1; intros Hvalid; try done; unfold queue_valid in *; simpl.
  - intros x Hx%Hvalid. rewrite length_app. lia.
  - by case_decide.
  - intros x. unfold item_lt. rewrite Include_Permutation.
    intros [->|Hx]%elem_of_cons; [by eapply lookup_lt_Some|by apply Hvalid].
  - apply Shift_Done in HShift as (_ & Hperm & _).
    intros x Hx. apply Hvalid. rewrite Hperm. by right.
  - apply Shift_Done in HShift as (_ & Hperm & _).
    intros x Hx. apply Hvalid. rewrite Hperm. by right.
  - intros x. unfold item_lt. rewrite Include_Permutation.
    intros [->|Hx]%elem_of_cons; [done|by apply Hvalid].
  - apply Remove_Done in HRemove as (_ & Hperm & _).
    intros x Hx. apply Hvalid. rewrite Hperm. by right.
Qed.

Lemma transition_new_node_valid s c s' :
  transition s c s' → new_node_valid s → new_node_valid s'.
Proof.
  destruct 1; intros Hvalid; try done; unfold new_node_valid in *; simpl.
  - intros p [= <-]. rewrite length_app. simpl. lia.
  - case_decide; [done|]. done.
  - case_decide; [done|]. done.
Qed.

Lemma reachable_via_valid allowed s :
  reachable_via allowed s → queue_valid s ∧ new_node_valid s.
Proof.
  unfold reachable_via. revert s.
  apply (rtc_ind_r (R := step allowed store_allowed)
           (λ s, queue_valid s ∧ new_node_valid s)).
  - split; [by intros x ?%elem_of_nil|done].
  - intros s1 s2 _ [c s' Hc Hexec|item v Hstore] [Hq Hn].
    + apply exec_transition in Hexec.
      eauto using transition_queue_valid, transition_new_node_valid.
    + unfold queue_valid, new_node_valid, store_item. simpl.
      rewrite length_insert. done.
Qed.

(** *** What the methods leave alone *)

Lemma transition_items s c s' :
  transition s c s' →
  items s' = items s ∨
  (c = Call_CreateNewNode ∧ new_node s = None ∧
   items s' = items s ++ [item_init]).
Proof. destruct 1; try (by left); [by right|left; by case_decide]. Qed.

Lemma transition_closed s c s' :
  transition s c s' → closed_nodes s ⊆ closed_nodes s'.
Proof.
  destruct 1; try done; simpl; [by case_decide|by apply insert_subseteq].
Qed.

Lemma steps_closed allowed may_store s s' :
  rtc (step allowed may_store) s s' → closed_nodes s ⊆ closed_nodes s'.
Proof.
  induction 1 as [|s1 s2 s3 Hstep _ IH]; [done|].
  etrans; [|exact IH].
  destruct Hstep as [c s' _ Hexec|]; [|done].
  by eapply transition_closed, exec_transition.
Qed.

Lemma steps_reachable allowed s s' :
  reachable_via allowed s → rtc (step allowed store_allowed) s s' →
  reachable_via allowed s'.
Proof. unfold reachable_via. intros. by etrans. Qed.

(** *** The uncommitted node and the open set *)

Lemma transition_new_node_apart s c s' :
  transition s c s' → combined_call c → paired_heap s →
  new_node_apart s → new_node_apart s'.
Proof.
  unfold combined_call.
  destruct 1; intros Hc ([Hnodup Hin] & Hiq & Hord & Hkeyed) Hapart;
    try discriminate Hc; try done; unfold new_node_apart in *; simpl in *.
  - (* a fresh node *)
    intros p [= <-]. rewrite length_app. simpl. split; [lia|]. split.
    + intros [Hlt _]%Hin. lia.
    + intros key [Hlt _]%Hkeyed. lia.
  - (* FoundBestNode *)
    by case_decide.
  - (* InsertOpenNode *)
    intros p Hp. case_decide as Hne; [done|].
    destruct (Hapart p Hp) as (Hlt & Hnotin & Hnotopen).
    split; [done|]. split.
    + unfold item_lt. rewrite Include_Permutation.
      intros [->|Hx]%elem_of_cons; [by rewrite Hp in Hne|done].
    + intros key [[_ ->]|[_ Hl]]%lookup_insert_Some;
        [by rewrite Hp in Hne|by eapply Hnotopen].
  - (* PopBestOpenNode *)
    intros p Hp. destruct (Hapart p Hp) as (Hlt & Hnotin & Hnotopen).
    apply Shift_Done in HShift as (_ & Hperm & _).
    split; [done|]. split.
    + intros Hx. apply Hnotin. rewrite Hperm. by right.
    + intros k [_ Hl]%lookup_delete_Some. by eapply Hnotopen.
  - (* PopOpenNode *)
    intros p Hp. destruct (Hapart p Hp) as (Hlt & Hnotin & Hnotopen).
    apply Remove_Done in HRemove as (_ & Hperm & _).
    split; [done|]. split.
    + intros Hx. apply Hnotin. rewrite Hperm. by right.
    + intros k [_ Hl]%lookup_delete_Some. by eapply Hnotopen.
Qed.

Lemma settled_new_node_apart s : settled s → new_node_apart s.
Proof.
  intros Hsettled.
  cut (paired_heap s ∧ new_node_apart s); [by intros [_ ?]|].
  revert s Hsettled.
  apply (rtc_ind_r (R := step combined_call store_settled)
           (λ s, paired_heap s ∧ new_node_apart s)).
  - split; [apply paired_heap_ctor|done].
  - intros s1 s2 _ [c s' Hc Hexec|item v Hstore] [Hpaired Hapart].
    + apply exec_transition in Hexec.
      eauto using transition_paired_heap, transition_new_node_apart.
    + split; [by apply store_paired_heap|].
      unfold new_node_apart, store_item. simpl. by rewrite length_insert.
Qed.

(** *** The split-phase methods and the heap *)

(** Putting the dequeued best node back after the search loop has written
    it. *)
Lemma reenqueue_paired_heap s item q' v :
  paired_heap s →
  Shift (item_lt (items s)) (open_queue s) = Done (item, q') →
  GetKey v = GetKey (items s !!! item) →
  open_queue s ≡ₚ
    Include (item_lt (<[item := v]> (items s))) item q' ∧
  paired_heap
    (mkNodeList (<[item := v]> (items s)) (open_nodes s) (closed_nodes s)
       (Include (item_lt (<[item := v]> (items s))) item q') (new_node s)).
Proof.
  intros ([Hnodup Hin] & Hiq & Hord & Hkeyed) HShift Hkey.
  apply Shift_Done in HShift as (Hhead & Hperm & _ & Hheap).
  destruct (Hheap Hord) as [Hord' _].
  assert (open_queue s ≡ₚ
    Include (item_lt (<[item := v]> (items s))) item q') as Hperm'.
  { unfold item_lt. by rewrite Include_Permutation. }
  pose proof Hnodup as Hnodup'. rewrite Hperm in Hnodup'.
  apply NoDup_cons in Hnodup' as [Hnotin _].
  assert (∀ x, GetKey (<[item := v]> (items s) !!! x) =
               GetKey (items s !!! x)) as Hsame.
  { intros x. destruct (decide (x = item)) as [->|Hne].
    - destruct (decide (item < length (items s))).
      + by rewrite list_lookup_total_insert_eq.
      + by rewrite list_insert_ge by lia.
    - by rewrite list_lookup_total_insert_ne. }
  split; [done|].
  unfold paired_heap, queue_indexed, index_queued, queue_ordered, in_open;
    simpl.
  split; [|split; [|split]].
  - split; [by rewrite <-Hperm'|]. intros x Hx. rewrite <-Hperm' in Hx.
    rewrite length_insert, Hsame. by apply Hin.
  - intros key x Hl. rewrite <-Hperm'. by eapply Hiq.
  - unfold item_lt. apply Include_ordered.
    eapply heap_ordered_ext; [|exact Hord'].
    intros x Hx. unfold cost_of. rewrite list_lookup_total_insert_ne; [done|].
    by intros ->.
  - intros key x Hl. rewrite length_insert, Hsame. by apply Hkeyed.
Qed.

(** *** Draining a settled state *)

Lemma drained_settled n : ∀ s,
  settled s →
  settled (drained n s) ∧ closed_nodes (drained n s) = closed_nodes s.
Proof.
  induction n as [|n IH]; intros s Hsettled; simpl; [done|].
  destruct (PopBestOpenNode s) as [[[item|] s']|] eqn:Hpop; try done.
  assert (settled s') as Hsettled'.
  { unfold settled. eapply rtc_r; [exact Hsettled|].
    apply (step_call _ _ _ Call_PopBestOpenNode); [done|].
    simpl. unfold after. by rewrite Hpop. }
  destruct (IH s' Hsettled') as [? ->]. split; [done|].
  apply PopBestOpenNode_Done in Hpop
    as [(_ & _ & ->)|(item' & q' & it & _ & _ & _ & _ & ->)]; done.
Qed.
End more_facts.

(** ** The queue against the open index *)

Section pairing_facts.
Context {Titem : Type} {item_ops : NodeItem Titem}.
Implicit Types s : NodeList Titem.

Lemma size_lookup_Some {K A} `{Countable K} (m : gmap K A) k x :
  m !! k = Some x → size m ≠ 0.
Proof.
  intros Hl Hz%map_size_empty_iff. rewrite Hz in Hl.
  by rewrite lookup_empty in Hl.
Qed.

Lemma transition_deficit s c s' :
  transition s c s' → deficit s' = (deficit s + unmatched c)%Z.
Proof.
  unfold deficit, HashTable.Count, CBinaryHeapT.Length.
  destruct 1; simpl; try lia.
  - case_decide; simpl; lia.
  - rewrite map_size_insert_None by done.
    unfold item_lt. rewrite Include_length. lia.
  - apply Shift_Done in HShift as (_ & _ & Hlen & _).
    pose proof (map_size_delete_Some _ _ (mk_is_Some _ _ Hopen)).
    pose proof (size_lookup_Some _ _ _ Hopen). lia.
  - apply Shift_Done in HShift as (_ & _ & Hlen & _). lia.
  - unfold item_lt. rewrite Include_length. lia.
  - pose proof (map_size_delete_Some _ _ (mk_is_Some _ _ Hopen)).
    pose proof (size_lookup_Some _ _ _ Hopen). lia.
  - apply Remove_Done in HRemove as (_ & Hperm & _).
    apply Permutation_length in Hperm. simpl in Hperm.
    pose proof (map_size_delete_Some _ _ (mk_is_Some _ _ Hopen)).
    pose proof (size_lookup_Some _ _ _ Hopen). lia.
Qed.

Lemma runs_deficit acts : ∀ s s',
  runs acts s s' → deficit s' = (deficit s + pending acts)%Z.
Proof.
  induction 1 as [s|c acts s s1 s2 Hexec _ IH|item v acts s s2 _ _ IH];
    simpl.
  - lia.
  - apply exec_transition, transition_deficit in Hexec. lia.
  - rewrite IH. unfold deficit. simpl. lia.
Qed.

Lemma runs_steps acts : ∀ s s',
  runs acts s s' → rtc (step any_call store_allowed) s s'.
Proof.
  induction 1 as [s|c acts s s1 s2 Hexec _ IH|item v acts s s2 Hstore _ IH].
  - apply rtc_refl.
  - eapply rtc_l; [|exact IH]. by apply (step_call _ _ _ c).
  - eapply rtc_l; [|exact IH]. by apply step_store.
Qed.

Lemma steps_runs s s' :
  rtc (step any_call store_allowed) s s' → ∃ acts, runs acts s s'.
Proof.
  induction 1 as [s|s1 s2 s3 Hstep _ [acts IH]].
  - exists []. constructor.
  - destruct Hstep as [c s' _ Hexec|item v Hstore].
    + exists (Act_call c :: acts). by eapply runs_call.
    + exists (Act_store item v :: acts). by eapply runs_store.
Qed.

Lemma run_runs acts : ∀ s s',
  run (λ _, true) store_allowed_b acts s = Some s' → runs acts s s'.
Proof.
  induction acts as [|[c|item v] acts IH]; intros s s'; simpl.
  - intros [= <-]. constructor.
  - destruct (exec c s) as [s1|] eqn:Hexec; [|done].
    intros Hrun. eapply runs_call; eauto.
  - destruct (store_allowed_b s item v) eqn:Hstore; [|done].
    intros Hrun. apply runs_store; [by apply store_allowed_b_true|eauto].
Qed.

End pairing_facts.

(** ** The node list among all the nodes of the search loop *)

Section in_memory_facts.
Context {Titem : Type} {item_ops : NodeItem Titem}.
Implicit Types w : InMemory.World Titem.

Lemma exec_effect c w w' : InMemory.exec c w = Done w' → InMemory.effect w w'.
Proof.
  destruct c; simpl; run_in_memory.
  - (* CreateNewNode *)
    destruct (InMemory.new_node w) as [p|]; intros [= <-].
    + by apply InMemory.eff_none.
    + apply (InMemory.eff_alloc _ _ (fresh (dom (InMemory.memory w)))); try done.
      apply not_elem_of_dom, is_fresh.
  - (* FoundBestNode *)
    destruct (InMemory.memory w !! item) as [it|]; [|done].
    case_decide; intros [= <-]; by apply InMemory.eff_none.
  - (* InsertOpenNode *)
    destruct (InMemory.memory w !! item) as [it|] eqn:Hit; [|done]. simpl.
    case_bool_decide as Hclosed; simpl; [|done].
    destruct (InMemory.open_nodes w !! GetKey it) eqn:Hopen; simpl; [done|].
    case_decide; intros [= <-]; by apply (InMemory.eff_open_insert _ _ item it).
  - (* GetBestOpenNode *)
    destruct (CBinaryHeapT.IsEmpty _); simpl.
    + intros [= <-]. by apply InMemory.eff_none.
    + destruct (CBinaryHeapT.Begin _); simpl; [|done].
      intros [= <-]. by apply InMemory.eff_none.
  - (* PopBestOpenNode *)
    destruct (CBinaryHeapT.IsEmpty _); simpl.
    + intros [= <-]. by apply InMemory.eff_none.
    + destruct (CBinaryHeapT.Shift _ _) as [[item q']|]; simpl; [|done].
      destruct (InMemory.memory w !! item) as [it|]; simpl; [|done].
      destruct (InMemory.open_nodes w !! GetKey it) as [item'|]; simpl; [|done].
      case_decide; simpl; [|done].
      intros [= <-]. by apply (InMemory.eff_open_delete _ _ (GetKey it)).
  - (* DequeueBestOpenNode *)
    destruct (CBinaryHeapT.IsEmpty _); simpl; [done|].
    destruct (CBinaryHeapT.Shift _ _) as [[item q']|]; simpl; [|done].
    intros [= <-]. by apply InMemory.eff_none.
  - (* ReenqueueOpenNode *)
    destruct (InMemory.memory w !! item) as [it|]; [|done].
    intros [= <-]. by apply InMemory.eff_none.
  - (* PopAlreadyDequeuedOpenNode *)
    destruct (InMemory.open_nodes w !! key) as [item|]; simpl; [|done].
    intros [= <-]. by apply (InMemory.eff_open_delete _ _ key).
  - intros [= <-]. by apply InMemory.eff_none.
  - (* PopOpenNode *)
    destruct (InMemory.open_nodes w !! key) as [item|]; simpl; [|done].
    destruct (CBinaryHeapT.FindIndex _ _) as [index|]; simpl; [|done].
    destruct (CBinaryHeapT.Remove _ _ _) as [q'|]; simpl; [|done].
    intros [= <-]. by apply (InMemory.eff_open_delete _ _ key).
  - (* InsertClosedNode *)
    destruct (InMemory.memory w !! item) as [it|] eqn:Hit; [|done]. simpl.
    case_bool_decide as Hopen; simpl; [|done].
    destruct (InMemory.closed_nodes w !! GetKey it) eqn:Hclosed; simpl; [done|].
    intros [= <-]. by apply (InMemory.eff_closed_insert _ _ item it).
  - intros [= <-]. by apply InMemory.eff_none.
  - intros [= <-]. by apply InMemory.eff_none.
  - intros [= <-]. by apply InMemory.eff_none.
  - intros [= <-]. by apply InMemory.eff_none.
Qed.

(** The entries of a table, counted by the nodes they point to: those among
    the nodes of [l], and the others. *)
Lemma keyed_count_among (l : list Handle) (mem : gmap Handle Titem)
    (t : gmap Key Handle) :
  NoDup l → InMemory.keyed mem t →
  size t =
    length (filter (λ item, t !! GetKey (mem !!! item) = Some item) l) +
    size (filter (λ entry : Key * Handle, entry.2 ∉ l) t).
Proof.
  intros Hnodup.
  induction t as [|key item t Hfresh IH] using map_ind; intros Hkeyed.
  - rewrite map_size_empty, map_filter_empty, map_size_empty, filter_none;
      [done|].
    intros x _. by rewrite lookup_empty.
  - destruct (Hkeyed key item) as (it & Hit & Hkey); [apply lookup_insert_eq|].
    apply lookup_total_correct in Hit. subst it.
    assert (∀ x, x ≠ item →
      <[key := item]> t !! GetKey (mem !!! x) = Some x ↔
      t !! GetKey (mem !!! x) = Some x) as Hother.
    { intros x Hne. destruct (decide (key = GetKey (mem !!! x))) as [Hk|Hk].
      - rewrite <-Hk, lookup_insert_eq. split; congruence.
      - by rewrite lookup_insert_ne. }
    rewrite map_size_insert_None by done. rewrite IH.
    + destruct (decide (item ∈ l)) as [Hin|Hout].
      * rewrite map_filter_insert_not' ; [|by intros ?|by rewrite Hfresh].
        rewrite (length_filter_one_more
                   (λ x, <[key := item]> t !! GetKey (mem !!! x) = Some x)
                   (λ x, t !! GetKey (mem !!! x) = Some x) l item);
          [lia|done|done| | |done].
        -- rewrite Hkey. apply lookup_insert_eq.
        -- rewrite Hkey. congruence.
      * rewrite map_filter_insert_True by done.
        rewrite map_size_insert_None
          by (apply map_lookup_filter_None; by left).
        rewrite (filter_ext_in
                   (λ x, <[key := item]> t !! GetKey (mem !!! x) = Some x)
                   (λ x, t !! GetKey (mem !!! x) = Some x) l);
          [lia|].
        intros x Hx. apply Hother. by intros ->.
    + intros key' item' Hl. apply Hkeyed. rewrite lookup_insert_ne; [done|].
      intros <-. congruence.
Qed.

Lemma keyed_insert_entry (mem : gmap Handle Titem) (t : gmap Key Handle)
    item it :
  mem !! item = Some it → InMemory.keyed mem t →
  InMemory.keyed mem (<[GetKey it := item]> t).
Proof.
  intros Hit Hk key x [[<- <-]|[_ Hl]]%lookup_insert_Some; [eauto|].
  by apply Hk.
Qed.

Lemma keyed_delete_entry (mem : gmap Handle Titem) (t : gmap Key Handle) key :
  InMemory.keyed mem t → InMemory.keyed mem (delete key t).
Proof. intros Hk key' x [_ Hl]%lookup_delete_Some. by apply Hk. Qed.

Lemma keyed_new_node (mem : gmap Handle Titem) (t : gmap Key Handle) p v :
  mem !! p = None → InMemory.keyed mem t → InMemory.keyed (<[p := v]> mem) t.
Proof.
  intros Hfree Hk key x Hl. destruct (Hk key x Hl) as (it & Hit & Hkey).
  exists it. split; [|done]. rewrite lookup_insert_ne; [done|]. congruence.
Qed.

Lemma effect_invariant w w' :
  InMemory.effect w w' → InMemory.invariant w → InMemory.invariant w'.
Proof.
  unfold InMemory.invariant, InMemory.disjoint_index, InMemory.arena_sound.
  intros Heff (Hdis & Hko & Hkc & Hnodup & Hlive).
  destruct Heff; rewrite Hmemory, Hitems, Hopen, Hclosed.
  - done.
  - split; [done|]. split; [by apply keyed_new_node|].
    split; [by apply keyed_new_node|]. split.
    + apply NoDup_app. split; [done|]. split; [|apply NoDup_singleton].
      intros x Hx ->%list_elem_of_singleton.
      destruct (Hlive p Hx) as [? ?]. congruence.
    + intros x [Hx| ->%list_elem_of_singleton]%elem_of_app.
      * rewrite lookup_insert_ne; [by apply Hlive|].
        intros <-. destruct (Hlive p Hx) as [? ?]. congruence.
      * rewrite lookup_insert_eq. eauto.
  - split; [|split; [by apply keyed_insert_entry|done]].
    intros key [[x Ho] Hc]. apply lookup_insert_Some in Ho
      as [[<- _]|[_ Ho]]; [|apply (Hdis key); eauto].
    rewrite Hwas_closed in Hc. by destruct Hc.
  - split; [|split; [by apply keyed_delete_entry|done]].
    intros key' [[x [_ Ho]%lookup_delete_Some] Hc]. apply (Hdis key'). eauto.
  - split; [|split; [done|split; [by apply keyed_insert_entry|done]]].
    intros key [Ho [x Hc]]. apply lookup_insert_Some in Hc
      as [[<- _]|[_ Hc]]; [|apply (Hdis key); eauto].
    rewrite Hwas_open in Ho. by destruct Ho.
Qed.

Lemma keyed_store (mem : gmap Handle Titem) (t : gmap Key Handle) item v :
  (t !! GetKey (mem !!! item) = Some item →
   GetKey v = GetKey (mem !!! item)) →
  InMemory.keyed mem t → InMemory.keyed (<[item := v]> mem) t.
Proof.
  intros Hsame Hk key x Hl. destruct (Hk key x Hl) as (it & Hit & Hkey).
  destruct (decide (x = item)) as [->|Hne].
  - exists v. rewrite lookup_insert_eq. split; [done|].
    apply lookup_total_correct in Hit. subst it.
    rewrite Hsame; [done|]. by rewrite Hkey.
  - exists it. by rewrite lookup_insert_ne.
Qed.

Lemma step_invariant w w' :
  InMemory.step w w' → InMemory.invariant w → InMemory.invariant w'.
Proof.
  intros [c w2 Hexec|item v [Hlive Hkey]|item v Hfree] Hinv.
  - by eapply effect_invariant, Hinv; apply exec_effect in Hexec.
  - destruct Hinv as (Hdis & Hko & Hkc & Hnodup & Harena).
    unfold InMemory.in_open, InMemory.in_closed in Hkey.
    split; [done|]. split; [apply keyed_store; auto|].
    split; [apply keyed_store; auto|]. split; [done|].
    intros x Hx. simpl. apply lookup_insert_is_Some'. right.
    by apply Harena.
  - destruct Hinv as (Hdis & Hko & Hkc & Hnodup & Harena).
    split; [done|]. split; [by apply keyed_new_node|].
    split; [by apply keyed_new_node|]. split; [done|].
    intros x Hx. simpl. apply lookup_insert_is_Some'. right.
    by apply Harena.
Qed.

Lemma reachable_invariant w : InMemory.reachable w → InMemory.invariant w.
Proof.
  unfold InMemory.reachable. revert w.
  apply (rtc_ind_r (R := InMemory.step) InMemory.invariant).
  - split; [|split; [|split; [|split]]]; simpl.
    + intros key [[? Ho] _]. simpl in Ho. by rewrite lookup_empty in Ho.
    + intros key x Hl. by rewrite lookup_empty in Hl.
    + intros key x Hl. by rewrite lookup_empty in Hl.
    + apply NoDup_nil_2.
    + by intros x ?%elem_of_nil.
  - intros w1 w2 _ Hstep Hinv. by eapply step_invariant.
Qed.

Lemma conservation_among w :
  InMemory.invariant w →
  length (InMemory.items w) +
    size (InMemory.outside w (InMemory.open_nodes w)) +
    size (InMemory.outside w (InMemory.closed_nodes w)) =
  size (InMemory.open_nodes w) + size (InMemory.closed_nodes w) +
    length (InMemory.unindexed w).
Proof.
  intros (Hdis & Hko & Hkc & Hnodup & _).
  unfold InMemory.unindexed, InMemory.outside.
  rewrite (keyed_count_among (InMemory.items w) _ _ Hnodup Hko).
  rewrite (keyed_count_among (InMemory.items w) _ _ Hnodup Hkc).
  rewrite (length_filter_three
             (λ x, InMemory.open_nodes w !!
                     GetKey (InMemory.memory w !!! x) = Some x)
             (λ x, InMemory.closed_nodes w !!
                     GetKey (InMemory.memory w !!! x) = Some x)
             (InMemory.items w)); [lia|].
  intros x [Ho Hc]. apply (Hdis (GetKey (InMemory.memory w !!! x))). eauto.
Qed.

Lemma outside_empty w (t : gmap Key Handle) :
  (∀ key item, t !! key = Some item → item ∈ InMemory.items w) →
  size (InMemory.outside w t) = 0.
Proof.
  intros Hin. apply map_size_empty_iff, map_empty. intros key.
  apply map_lookup_filter_None. destruct (t !! key) as [item|] eqn:Hl;
    [right|by left].
  intros x [= <-] Hout. simpl in Hout. by apply Hout, (Hin key).
Qed.

End in_memory_facts.

Section claims.
Context {Titem : Type} {item_ops : NodeItem Titem}.
Implicit Types s : NodeList Titem.

(** C1 -- open/closed disjointness (P1, I1).  In every state the search loop
    can reach, no key is found both by [FindOpenNode] and by
    [FindClosedNode]; the property survives every further sequence of steps;
    and it is kept because a returning [InsertOpenNode] found the key absent
    from the closed index and a returning [InsertClosedNode] found it absent
    from the open index. *)
Theorem C1_open_closed_disjoint s :
  reachable s →
  (∀ key a b,
     ¬ (returns (FindOpenNode key) s (Some a) ∧
        returns (FindClosedNode key) s (Some b))) ∧
  (∀ s', rtc (step any_call store_allowed) s s' →
     ∀ key a b,
       ¬ (returns (FindOpenNode key) s' (Some a) ∧
          returns (FindClosedNode key) s' (Some b))) ∧
  (∀ item it r s', items s !! item = Some it →
     InsertOpenNode item s = Done (r, s') →
     returns (FindClosedNode (GetKey it)) s None) ∧
  (∀ item it r s', items s !! item = Some it →
     InsertClosedNode item s = Done (r, s') →
     returns (FindOpenNode (GetKey it)) s None).
Proof.
  intros Hreach.
  assert (∀ s', disjoint_index s' → ∀ key a b,
    ¬ (returns (FindOpenNode key) s' (Some a) ∧
       returns (FindClosedNode key) s' (Some b))) as Hfind.
  { intros s' Hdis key a b [[s1 Ho] [s2 Hc]].
    rewrite FindOpenNode_eq in Ho. rewrite FindClosedNode_eq in Hc.
    apply (Hdis key). split; [exists a|exists b]; congruence. }
  destruct (reachable_via_invariants _ _ Hreach) as [Hdis _].
  split; [by apply Hfind|]. split.
  { intros s' Hsteps. apply Hfind. by eapply rtc_step_disjoint. }
  split.
  - intros item it r s' Hit (it' & Hit' & Hclosed & _)%InsertOpenNode_Done.
    exists s. rewrite FindClosedNode_eq. congruence.
  - intros item it r s' Hit (it' & Hit' & Hopen & _)%InsertClosedNode_Done.
    exists s. rewrite FindOpenNode_eq. congruence.
Qed.

(** C3 -- idempotent creation (P5).  Whatever the search loop does after a
    [CreateNewNode], short of calling [InsertOpenNode] or [FoundBestNode], the
    next [CreateNewNode] returns the same node and changes nothing; and the
    first call took a node from the arena exactly when there was no
    uncommitted node. *)
Theorem C3_create_idempotent s a s1 :
  CreateNewNode s = Done (a, s1) →
  (∀ s2, rtc (step keeps_new_node store_allowed) s1 s2 →
     CreateNewNode s2 = Done (a, s2)) ∧
  CreateNewNode s1 = Done (a, s1) ∧
  (new_node s = None →
     a = BumpAllocContainer.Length (items s) ∧
     BumpAllocContainer.Length (items s1) =
       S (BumpAllocContainer.Length (items s))) ∧
  (∀ p, new_node s = Some p → a = p ∧ s1 = s).
Proof.
  rewrite CreateNewNode_eq. intros Hcreate.
  assert (new_node s1 = Some a) as Hnew.
  { destruct (new_node s) eqn:Hn; by injection Hcreate as <- <-. }
  assert (∀ s2, new_node s2 = Some a → CreateNewNode s2 = Done (a, s2))
    as Hagain.
  { intros s2 Hn. rewrite CreateNewNode_eq. by rewrite Hn. }
  split; [|split; [by apply Hagain|split]].
  - intros s2 Hsteps. apply Hagain. by eapply steps_new_node.
  - intros Hn. rewrite Hn in Hcreate. injection Hcreate as <- <-.
    unfold BumpAllocContainer.Length. simpl. rewrite length_app. simpl.
    split; [done|lia].
  - intros p Hn. rewrite Hn in Hcreate. by injection Hcreate as <- <-.
Qed.

(** C4 -- absence is not an error (scenario D).  With nothing in the queue of
    the open set, [GetBestOpenNode] and [PopBestOpenNode] return [nullptr]
    and leave the node list as it is; when the queue and the open index are
    paired (I2) this is the case as soon as the open index is empty; and
    [GetBestOpenNode] returns, without changing the node list, in every
    state. *)
Theorem C4_absence_is_not_an_error s :
  CBinaryHeapT.IsEmpty (open_queue s) = true →
  GetBestOpenNode s = Done (None, s) ∧
  PopBestOpenNode s = Done (None, s) ∧
  (∀ s0, queue_indexed s0 → HashTable.Count (open_nodes s0) = 0 →
     GetBestOpenNode s0 = Done (None, s0) ∧
     PopBestOpenNode s0 = Done (None, s0)) ∧
  (∀ s0, ∃ r, GetBestOpenNode s0 = Done (r, s0)).
Proof.
  intros Hempty.
  assert (∀ s0, IsEmpty (open_queue s0) = true →
    GetBestOpenNode s0 = Done (None, s0) ∧
    PopBestOpenNode s0 = Done (None, s0)) as Hnone.
  { intros s0 He. split; [|by apply PopBestOpenNode_empty].
    rewrite GetBestOpenNode_eq. apply IsEmpty_true in He. by rewrite He. }
  split; [by apply Hnone|]. split; [by apply Hnone|]. split.
  - intros s0 [_ Hin] Hcount. apply Hnone. apply IsEmpty_true.
    destruct (open_queue s0) as [|x q] eqn:Hq; [done|].
    destruct (Hin x) as [_ Hopen]; [by left|].
    unfold HashTable.Count in Hcount. apply map_size_empty_iff in Hcount.
    unfold in_open in Hopen. rewrite Hcount in Hopen.
    by rewrite lookup_empty in Hopen.
  - intros s0. eexists. apply GetBestOpenNode_eq.
Qed.

(** C5 -- [PopBestOpenNode] on a non-empty open set.  When the queue is a
    heap whose nodes are in the open index (I2; both hold in every settled
    state, [settled_paired_heap]) and the count fits an [int], the call
    returns the node [GetBestOpenNode] shows, a node of least cost estimate
    among the queued ones; the node has left the queue and the open index:
    [FindOpenNode] on its key finds nothing and [OpenCount] is one less. *)
Theorem C5_pop_best_open_node s :
  queue_indexed s → queue_ordered s →
  CBinaryHeapT.IsEmpty (open_queue s) = false →
  (Z.of_nat (HashTable.Count (open_nodes s)) ≤ INT_MAX)%Z →
  ∃ item s',
    PopBestOpenNode s = Done (Some item, s') ∧
    GetBestOpenNode s = Done (Some item, s) ∧
    (∀ x, x ∈ open_queue s →
       (cost_of (items s) item ≤ cost_of (items s) x)%Z) ∧
    open_queue s ≡ₚ item :: open_queue s' ∧
    (item ∉ open_queue s') ∧
    returns (FindOpenNode (GetKey (items s !!! item))) s' None ∧
    (∀ n n', returns OpenCount s n → returns OpenCount s' n' →
       n' = (n - 1)%Z) ∧
    items s' = items s ∧ closed_nodes s' = closed_nodes s ∧
    new_node s' = new_node s.
Proof.
  intros Hpaired Hord Hne Hfits.
  destruct (PopBestOpenNode_paired s Hpaired Hne)
    as (item & q' & HShift & Hopen & Hpop).
  destruct (queue_head_indexed s item q' Hpaired HShift)
    as (_ & _ & Hnotin & _ & _).
  pose proof HShift as (Hhead & Hperm & _ & Hheap)%Shift_Done.
  destruct (Hheap Hord) as [_ Hmin].
  eexists item, _. split; [exact Hpop|]. simpl.
  split; [|split; [done|split; [done|split; [done|split; [|split]]]]].
  - rewrite GetBestOpenNode_eq. by rewrite head_lookup, Hhead.
  - eexists. rewrite FindOpenNode_eq. simpl. by rewrite lookup_delete_eq.
  - intros n n' [s1 [= <- _]] [s2 [= <- _]]. simpl.
    unfold HashTable.Count in *.
    pose proof (map_size_delete_Some _ _ (mk_is_Some _ _ Hopen)) as Hsize.
    assert (size (open_nodes s) ≠ 0) as Hpos.
    { intros Hz%map_size_empty_iff. unfold in_open in Hopen.
      rewrite Hz in Hopen. by rewrite lookup_empty in Hopen. }
    rewrite !to_int_small by lia. lia.
  - done.
Qed.

(** C6 -- matched-pair removal (scenario C).  In a state whose queued nodes
    are in the open index (I2; it holds in every settled state,
    [settled_paired_heap]), [DequeueBestOpenNode] followed by
    [PopAlreadyDequeuedOpenNode] on the key of the best node returns, gives
    that node, and leaves it neither in the queue nor in the open index: the
    same state as [PopBestOpenNode] leaves. *)
Theorem C6_matched_pair_removal s :
  queue_indexed s → CBinaryHeapT.IsEmpty (open_queue s) = false →
  ∃ item s1 s2,
    GetBestOpenNode s = Done (Some item, s) ∧
    DequeueBestOpenNode s = Done (tt, s1) ∧
    PopAlreadyDequeuedOpenNode (GetKey (items s !!! item)) s1 =
      Done (item, s2) ∧
    returns (FindOpenNode (GetKey (items s !!! item))) s2 None ∧
    (item ∉ open_queue s2) ∧
    PopBestOpenNode s = Done (Some item, s2).
Proof.
  intros Hpaired Hne.
  destruct (PopBestOpenNode_paired s Hpaired Hne)
    as (item & q' & HShift & Hopen & Hpop).
  destruct (queue_head_indexed s item q' Hpaired HShift)
    as (_ & _ & Hnotin & _ & _).
  pose proof HShift as (Hhead & _)%Shift_Done.
  eexists item, (set_open_queue q' s), _.
  split; [|split; [|split; [|split; [|split; [|exact Hpop]]]]].
  - rewrite GetBestOpenNode_eq. by rewrite head_lookup, Hhead.
  - by eapply DequeueBestOpenNode_ok.
  - rewrite PopAlreadyDequeuedOpenNode_eq. simpl.
    unfold in_open in Hopen. by rewrite Hopen.
  - eexists. rewrite FindOpenNode_eq. simpl. by rewrite lookup_delete_eq.
  - done.
Qed.

(** C7 -- precondition enforcement (scenario B).  For a node of the arena
    whose key is in the closed index [InsertOpenNode] fails the assertion of
    nodelist.hpp on the closed index, and for one whose key is in the open
    index [InsertClosedNode] fails the assertion on the open index; once
    [InsertClosedNode] has closed a node, [InsertOpenNode] of any node with
    that key fails. *)
Theorem C7_preconditions_fail_fast s item it :
  items s !! item = Some it →
  (∀ x, returns (FindClosedNode (GetKey it)) s (Some x) →
     InsertOpenNode item s =
       assert_str_error 79 nodelist_hpp
         "this->closed_nodes.Find(item.GetKey()) == nullptr" None) ∧
  (∀ x, returns (FindOpenNode (GetKey it)) s (Some x) →
     InsertClosedNode item s =
       assert_str_error 141 nodelist_hpp
         "this->open_nodes.Find(item.GetKey()) == nullptr" None) ∧
  (∀ r s', InsertClosedNode item s = Done (r, s') →
     ∀ item' it', items s' !! item' = Some it' → GetKey it' = GetKey it →
       InsertOpenNode item' s' =
         assert_str_error 79 nodelist_hpp
           "this->closed_nodes.Find(item.GetKey()) == nullptr" None).
Proof.
  intros Hit.
  assert (∀ s0 item0 it0 x, items s0 !! item0 = Some it0 →
    closed_nodes s0 !! GetKey it0 = Some x →
    InsertOpenNode item0 s0 =
      assert_str_error 79 nodelist_hpp
        "this->closed_nodes.Find(item.GetKey()) == nullptr" None)
    as Hfail.
  { intros s0 item0 it0 x Hit0 Hclosed. run_method. rewrite Hit0.
    rewrite bool_decide_eq_false_2; [done|]. by rewrite Hclosed. }
  split; [|split].
  - intros x [s1 Hfind]. rewrite FindClosedNode_eq in Hfind.
    injection Hfind as Hfind _. by eapply Hfail.
  - intros x [s1 Hfind]. rewrite FindOpenNode_eq in Hfind.
    injection Hfind as Hfind _. run_method. rewrite Hit.
    rewrite bool_decide_eq_false_2; [done|]. by rewrite Hfind.
  - intros r s' (it0 & Hit0 & _ & _ & ->)%InsertClosedNode_Done
      item' it' Hit' Hkey.
    assert (it0 = it) as -> by congruence.
    apply (Hfail _ item' it' item); [done|]. simpl.
    rewrite Hkey. apply lookup_insert_eq.
Qed.

(** C8, as the code has it -- queue/index pairing (P2, I2).  Along every run
    of the search loop from the empty node list, the number of nodes of the
    open index is the number of elements of the priority queue plus the
    number of [DequeueBestOpenNode] calls of the run, minus the number of
    its [ReenqueueOpenNode] and [PopAlreadyDequeuedOpenNode] calls; every
    reachable state is the end of such a run.  So [OpenCount] counts the
    queue when the dequeues of the run have been made up for, as in every
    run without these three methods; a [DequeueBestOpenNode] leaves the
    queue one element further behind, whatever is called next, until a
    [ReenqueueOpenNode] or a [PopAlreadyDequeuedOpenNode] brings it one
    element back: no other call changes the difference. *)
Theorem C8_open_count_and_queue s :
  reachable s →
  (∃ acts, runs acts NodeList_ctor s) ∧
  (∀ acts, runs acts NodeList_ctor s →
     Z.of_nat (HashTable.Count (open_nodes s)) =
       (Z.of_nat (CBinaryHeapT.Length (open_queue s)) + pending acts)%Z ∧
     (pending acts = 0%Z →
      returns OpenCount s (to_int (CBinaryHeapT.Length (open_queue s)))) ∧
     ((∀ c, Act_call c ∈ acts → combined_call c) → pending acts = 0%Z)) ∧
  (∀ c s', exec c s = Done s' →
     deficit s' = (deficit s + unmatched c)%Z) ∧
  (∀ acts s', runs acts s s' →
     reachable s' ∧ deficit s' = (deficit s + pending acts)%Z).
Proof.
  intros Hreach. split; [by apply steps_runs|]. split; [|split].
  - intros acts Hruns. pose proof (runs_deficit _ _ _ Hruns) as Hdef.
    unfold deficit in Hdef. simpl in Hdef.
    unfold HashTable.Count, CBinaryHeapT.Length in *.
    rewrite map_size_empty in Hdef. simpl in Hdef.
    split; [lia|]. split.
    + intros Hzero. exists s. unfold OpenCount, gets, HashTable.Count.
      do 3 f_equal. lia.
    + clear Hruns Hdef. induction acts as [|[c|item v] acts IH]; intros Hall;
        simpl; [done| |].
      * rewrite IH by (intros c' Hc'; apply Hall; by right).
        assert (combined_call c) as Hc by (apply Hall; by left).
        unfold combined_call in Hc. by destruct c.
      * apply IH. intros c' Hc'. apply Hall. by right.
  - intros c s' Hexec. by apply transition_deficit, exec_transition.
  - intros acts s' Hruns. split; [|by apply (runs_deficit acts)].
    unfold reachable, reachable_via. etrans; [exact Hreach|].
    by apply (runs_steps acts).
Qed.

(** C9, as the code has it -- conservation (P4, I3).  [TotalCount] counts the
    items of the arena, and the indexes hold whatever nodes the search loop
    has passed in.  In every state the search loop can reach, as long as the
    counts fit an [int], [TotalCount] plus the number of index entries that
    point to nodes outside the arena is [OpenCount] plus [ClosedCount] plus
    the number of items of the arena that are in neither index.  So when
    every indexed node is an item of the arena, [TotalCount] is [OpenCount]
    plus [ClosedCount] plus the number of items in neither index, and at
    least [OpenCount] plus [ClosedCount]. *)
Theorem C9_conservation_among_all_nodes (w : InMemory.World Titem)
    total open closed :
  InMemory.reachable w →
  (Z.of_nat (BumpAllocContainer.Length (InMemory.items w)) ≤ INT_MAX)%Z →
  (Z.of_nat (HashTable.Count (InMemory.open_nodes w)) ≤ INT_MAX)%Z →
  (Z.of_nat (HashTable.Count (InMemory.closed_nodes w)) ≤ INT_MAX)%Z →
  InMemory.returns InMemory.TotalCount w total →
  InMemory.returns InMemory.OpenCount w open →
  InMemory.returns InMemory.ClosedCount w closed →
  (total +
     Z.of_nat (HashTable.Count (InMemory.outside w (InMemory.open_nodes w))) +
     Z.of_nat (HashTable.Count (InMemory.outside w (InMemory.closed_nodes w)))
   = open + closed + Z.of_nat (length (InMemory.unindexed w)))%Z ∧
  ((∀ key item,
      InMemory.returns (InMemory.FindOpenNode key) w (Some item) ∨
      InMemory.returns (InMemory.FindClosedNode key) w (Some item) →
      item ∈ InMemory.items w) →
   (total = open + closed + Z.of_nat (length (InMemory.unindexed w)))%Z ∧
   (open + closed ≤ total)%Z).
Proof.
  intros Hinv%reachable_invariant Hfits Hfits_open Hfits_closed
    [w1 [= <- _]] [w2 [= <- _]] [w3 [= <- _]].
  pose proof (conservation_among w Hinv) as Hsize.
  unfold HashTable.Count, BumpAllocContainer.Length in *.
  rewrite !to_int_small by done.
  split; [lia|]. intros Harena.
  rewrite (outside_empty w (InMemory.open_nodes w)) in Hsize.
  - rewrite (outside_empty w (InMemory.closed_nodes w)) in Hsize; [lia|].
    intros key item Hl. apply (Harena key). right. exists w.
    unfold InMemory.FindClosedNode, InMemory.gets, HashTable.Find.
    by rewrite Hl.
  - intros key item Hl. apply (Harena key). left. exists w.
    unfold InMemory.FindOpenNode, InMemory.gets, HashTable.Find.
    by rewrite Hl.
Qed.

(** C10 -- [InsertClosedNode] leaves [new_node] alone.  Closing the
    uncommitted node keeps it the uncommitted node: the next [CreateNewNode]
    returns this node, now found in the closed index, and allocates nothing;
    [InsertOpenNode] of the uncommitted node resets [new_node]. *)
Theorem C10_closing_keeps_new_node s item r s' :
  InsertClosedNode item s = Done (r, s') →
  new_node s' = new_node s ∧
  (new_node s = Some item →
     CreateNewNode s' = Done (item, s') ∧
     returns (FindClosedNode (GetKey (items s' !!! item))) s' (Some item) ∧
     returns TotalCount s' (to_int (BumpAllocContainer.Length (items s)))) ∧
  (∀ r'' s'', new_node s = Some item →
     InsertOpenNode item s = Done (r'', s'') → new_node s'' = None).
Proof.
  intros (it & Hit & Hopen & Hclosed & ->)%InsertClosedNode_Done.
  split; [done|]. split.
  - intros Hnew. split; [|split].
    + rewrite CreateNewNode_eq. simpl. by rewrite Hnew.
    + exists (set_closed_nodes (<[GetKey it:=item]> (closed_nodes s)) s).
      rewrite FindClosedNode_eq. simpl.
      rewrite (list_lookup_total_correct _ _ _ Hit).
      by rewrite lookup_insert_eq.
    + eexists. reflexivity.
  - intros r'' s'' Hnew (it' & _ & _ & _ & ->)%InsertOpenNode_Done. simpl.
    by rewrite decide_True.
Qed.

End claims.

(** C2 -- min-order extraction (P3, scenario A).  After the open set has been
    filled through [InsertOpenNode] and [ReenqueueOpenNode], any number of
    [PopBestOpenNode] calls returns nodes in non-decreasing order of cost
    estimate; when the queued nodes are in the open index the calls return
    every queued node and leave the queue empty.  Opening A, B, C with cost
    estimates 5, 3, 7 and popping three times returns B, A, C, with cost
    estimates 3, 5, 7, and leaves [OpenCount] at 0. *)
Theorem C2_min_order_extraction :
  (∀ (Titem : Type) (item_ops : NodeItem Titem) (s0 s : NodeList Titem),
     queue_ordered s0 → queue_valid s0 → rtc fill s0 s →
     (∀ n, Sorted Z.le (cost_of (items s) <$> drain n s)) ∧
     (queue_indexed s →
        drain (length (open_queue s)) s ≡ₚ open_queue s ∧
        open_queue (drained (length (open_queue s)) s) = [])) ∧
  scenario_A = Done opened_ABC ∧
  drain 3 opened_ABC = [1; 0; 2] ∧
  cost_of (items opened_ABC) <$> drain 3 opened_ABC = [3; 5; 7]%Z ∧
  returns OpenCount (drained 3 opened_ABC) 0%Z.
Proof.
  split; [|split; [|split; [|split]]].
  - intros Titem item_ops s0 s Hord Hvalid Hfill.
    destruct (fills_heap s0 s Hfill (conj Hord Hvalid)) as [Hord' _].
    split.
    + intros n. by apply StronglySorted_Sorted, drain_sorted.
    + intros Hpaired.
      destruct (drain_complete (length (open_queue s)) s Hpaired)
        as (Hperm & Hq & _); done.
  - vm_compute. reflexivity.
  - vm_compute. reflexivity.
  - vm_compute. reflexivity.
  - eexists. vm_compute. reflexivity.
Qed.

(** ** Further properties of the node list *)

Section further.
Context {Titem : Type} {item_ops : NodeItem Titem}.
Implicit Types s : NodeList Titem.

(** X1 -- invariant I2.  In every state the search loop reaches through the
    combined methods, leaving the queued nodes alone, the queue and the open
    index hold the same nodes, each queued once, the queue is a heap on the
    cost estimates, and [OpenCount] counts the queue. *)
Theorem X1_settled_states_are_paired s :
  settled s →
  queue_indexed s ∧ index_queued s ∧ queue_ordered s ∧
  HashTable.Count (open_nodes s) = CBinaryHeapT.Length (open_queue s).
Proof.
  intros Hsettled.
  destruct (settled_paired_heap s Hsettled) as (Hqi & Hiq & Hord & _).
  split; [done|]. split; [done|]. split; [done|].
  by apply reachable_combined_paired, settled_reachable.
Qed.

(** X2 -- [PopOpenNode].  In a state where I2 holds and the queue is a heap,
    [PopOpenNode] with the key of an open node returns that node and removes
    it from the open index and from the queue, wherever it stands there; I2
    and the heap order hold afterwards. *)
Theorem X2_pop_open_node s key item :
  paired_heap s → returns (FindOpenNode key) s (Some item) →
  ∃ s',
    PopOpenNode key s = Done (item, s') ∧
    returns (FindOpenNode key) s' None ∧
    (item ∉ open_queue s') ∧
    open_queue s ≡ₚ item :: open_queue s' ∧
    paired_heap s'.
Proof.
  intros Hpaired [s0 [= Hopen _]].
  pose proof Hpaired as ([Hnodup _] & Hiq & _ & _).
  destruct (FindIndex_elem item (open_queue s)) as [index Hindex];
    [by eapply Hiq|].
  pose proof (FindIndex_Done _ _ _ Hindex) as Hat.
  destruct (Remove_ok (cost_of (items s)) index (open_queue s))
    as [q' HRemove]; [by eapply lookup_lt_Some|].
  pose proof (Remove_Done _ _ _ _ HRemove) as (_ & Hperm & _).
  rewrite (list_lookup_total_correct _ _ _ Hat) in Hperm.
  eexists. split; [by apply (PopOpenNode_ok key s item index q')|].
  split; [|split; [|split]].
  - eexists. rewrite FindOpenNode_eq. simpl. by rewrite lookup_delete_eq.
  - simpl. rewrite Hperm in Hnodup. by apply NoDup_cons in Hnodup as [? _].
  - done.
  - apply (transition_paired_heap s (Call_PopOpenNode key)); [|done|done].
    by apply (tr_pop_open s key item index q').
Qed.

(** X3 -- [FoundBestNode] releases the uncommitted node.  After
    [FoundBestNode] of the node [CreateNewNode] returned, the node list has
    no uncommitted node and is otherwise unchanged; the next [CreateNewNode]
    allocates another node and the data of the released one stays in the
    arena.  [FoundBestNode] of any other node changes nothing. *)
Theorem X3_found_best_node_releases s item s1 :
  reachable s → CreateNewNode s = Done (item, s1) →
  (∃ item' s3,
     FoundBestNode item s1 = Done (tt, set_new_node None s1) ∧
     CreateNewNode (set_new_node None s1) = Done (item', s3) ∧
     item' ≠ item ∧
     is_Some (items s1 !! item) ∧
     items s3 !! item = items s1 !! item ∧
     BumpAllocContainer.Length (items s3) =
       S (BumpAllocContainer.Length (items s1))) ∧
  (∀ other, other ≠ item →
     other < BumpAllocContainer.Length (items s1) →
     FoundBestNode other s1 = Done (tt, s1)).
Proof.
  intros [_ Hvalid]%reachable_via_valid Hcreate.
  destruct (CreateNewNode_new_node s item s1 Hcreate) as [Hnew Hlt].
  specialize (Hlt Hvalid).
  split.
  - exists (length (items s1)), 
      (mkNodeList (items s1 ++ [item_init]) (open_nodes s1) (closed_nodes s1)
         (open_queue s1) (Some (length (items s1)))).
    split; [|split; [|split; [|split; [|split]]]].
    + rewrite (FoundBestNode_ok item s1 Hlt). by rewrite decide_True.
    + by rewrite CreateNewNode_eq.
    + lia.
    + by apply lookup_lt_is_Some.
    + simpl. by rewrite lookup_app_l.
    + unfold BumpAllocContainer.Length. simpl. rewrite length_app. simpl. lia.
  - intros other Hne Hother. rewrite (FoundBestNode_ok other s1 Hother).
    rewrite decide_False; [done|]. rewrite Hnew. congruence.
Qed.

(** X4 -- a newly created node is in no container.  When there is no
    uncommitted node, [CreateNewNode] returns a node that was not in the
    arena before, holds the initial item, is not queued and is in neither
    index; the search loop may store any item into it. *)
Theorem X4_created_node_is_fresh s item s' :
  reachable s → new_node s = None → CreateNewNode s = Done (item, s') →
  BumpAllocContainer.Length (items s) ≤ item ∧
  items s' !! item = Some item_init ∧
  (item ∉ open_queue s') ∧
  (∀ key, ¬ returns (FindOpenNode key) s' (Some item)) ∧
  (∀ key, ¬ returns (FindClosedNode key) s' (Some item)) ∧
  (∀ v, store_settled s' item v).
Proof.
  intros Hreach Hnone. rewrite CreateNewNode_eq, Hnone. intros [= <- <-].
  destruct (reachable_via_invariants _ _ Hreach) as (_ & Hko & Hkc).
  destruct (reachable_via_valid _ _ Hreach) as [Hq _].
  assert (length (items s) ∉ open_queue s) as Hnotin.
  { intros Hx%Hq. lia. }
  assert (∀ key, open_nodes s !! key ≠ Some (length (items s))) as Hno.
  { intros key [Hlt _]%Hko. lia. }
  assert (∀ key, closed_nodes s !! key ≠ Some (length (items s))) as Hnc.
  { intros key [Hlt _]%Hkc. lia. }
  unfold BumpAllocContainer.Length. simpl.
  split; [done|]. split; [|split; [done|split; [|split]]].
  - rewrite lookup_app_r by done. by rewrite Nat.sub_diag.
  - intros key [s0 [= Hl _]]. by eapply Hno.
  - intros key [s0 [= Hl _]]. by eapply Hnc.
  - intros v. unfold store_settled, store_allowed, store_unqueued, in_open,
      in_closed. simpl. rewrite length_app. simpl.
    split; [|split; [lia|done]]. split; [lia|].
    intros [Hl|Hl]; [by apply Hno in Hl|by apply Hnc in Hl].
Qed.

(** X5 -- a closed node stays closed.  No method takes a node out of the
    closed index: whatever the search loop does next, [FindClosedNode] keeps
    returning the node under its key, the node keeps that key,
    [FindOpenNode] never finds the key, and [ClosedCount] does not
    decrease. *)
Theorem X5_closed_nodes_stay_closed s s' key item :
  reachable s → rtc (step any_call store_allowed) s s' →
  returns (FindClosedNode key) s (Some item) →
  returns (FindClosedNode key) s' (Some item) ∧
  (∃ it, items s' !! item = Some it ∧ GetKey it = key) ∧
  returns (FindOpenNode key) s' None ∧
  HashTable.Count (closed_nodes s) ≤ HashTable.Count (closed_nodes s').
Proof.
  intros Hreach Hsteps [s0 [= Hclosed _]].
  pose proof (steps_closed _ _ _ _ Hsteps) as Hsub.
  pose proof (steps_reachable _ _ _ Hreach Hsteps) as Hreach'.
  destruct (reachable_via_invariants _ _ Hreach') as (Hdis & _ & Hkc).
  assert (closed_nodes s' !! key = Some item) as Hclosed'
    by (by eapply lookup_weaken).
  split; [|split; [|split]].
  - exists s'. rewrite FindClosedNode_eq. by rewrite Hclosed'.
  - destruct (Hkc key item Hclosed') as [Hlt Hkey].
    exists (items s' !!! item). split; [|done].
    by apply list_lookup_lookup_total_lt.
  - exists s'. rewrite FindOpenNode_eq.
    destruct (open_nodes s' !! key) as [x|] eqn:Hopen; [|done].
    destruct (Hdis key). split; eauto.
  - by apply map_subseteq_size.
Qed.

(** X6 -- re-prioritising the best node.  In a state where I2 holds and the
    queue is a heap, [DequeueBestOpenNode] takes the best node off the
    queue; after the search loop has written the node, leaving its key,
    [ReenqueueOpenNode] puts it back: the indexes are as before, the queue
    holds the same nodes, and I2 and the heap order hold for the new cost
    estimates. *)
Theorem X6_dequeue_write_reenqueue s :
  paired_heap s → IsEmpty (open_queue s) = false →
  ∃ item s1,
    GetBestOpenNode s = Done (Some item, s) ∧
    DequeueBestOpenNode s = Done (tt, s1) ∧
    ∀ v, GetKey v = GetKey (items s !!! item) →
      ∃ s2,
        ReenqueueOpenNode item (store_item item v s1) = Done (tt, s2) ∧
        items s2 = <[item := v]> (items s) ∧
        open_nodes s2 = open_nodes s ∧ closed_nodes s2 = closed_nodes s ∧
        open_queue s2 ≡ₚ open_queue s ∧
        paired_heap s2.
Proof.
  intros Hpaired Hne.
  destruct (Shift_nonempty (cost_of (items s)) _ Hne) as (item & q' & HShift).
  pose proof HShift as (Hhead & Hperm & _)%Shift_Done.
  assert (item < length (items s)) as Hlt.
  { destruct Hpaired as ([_ Hin] & _). apply Hin.
    by eapply list_elem_of_lookup_2. }
  exists item, (set_open_queue q' s).
  split; [|split].
  - rewrite GetBestOpenNode_eq. by rewrite head_lookup, Hhead.
  - by eapply DequeueBestOpenNode_ok.
  - intros v Hkey.
    destruct (reenqueue_paired_heap s item q' v Hpaired HShift Hkey)
      as [Hperm' Hpaired'].
    eexists. split.
    { apply ReenqueueOpenNode_ok. simpl. by rewrite length_insert. }
    simpl. done.
Qed.

(** X7 -- closing the best node.  In a state the search loop reaches through
    the combined methods, the node [PopBestOpenNode] returns can always be
    closed: [InsertClosedNode] returns, the node is found by
    [FindClosedNode] and no longer by [FindOpenNode], one node has moved
    from the open to the closed index, and the state is again such a
    state. *)
Theorem X7_best_node_moves_to_closed s :
  settled s → IsEmpty (open_queue s) = false →
  ∃ item s1 s2,
    PopBestOpenNode s = Done (Some item, s1) ∧
    InsertClosedNode item s1 = Done (tt, s2) ∧
    returns (FindClosedNode (GetKey (items s !!! item))) s2 (Some item) ∧
    returns (FindOpenNode (GetKey (items s !!! item))) s2 None ∧
    HashTable.Count (open_nodes s) = S (HashTable.Count (open_nodes s2)) ∧
    HashTable.Count (closed_nodes s2) =
      S (HashTable.Count (closed_nodes s)) ∧
    settled s2.
Proof.
  intros Hsettled Hne.
  pose proof (settled_paired_heap s Hsettled) as (Hqi & _).
  destruct (reachable_via_invariants _ _ (settled_reachable s Hsettled))
    as (Hdis & _ & _).
  destruct (PopBestOpenNode_paired s Hqi Hne)
    as (item & q' & HShift & Hopen & Hpop).
  destruct (queue_head_indexed s item q' Hqi HShift) as (Hit & _).
  set (key := GetKey (items s !!! item)) in *.
  set (s1 := mkNodeList (items s) (delete key (open_nodes s))
               (closed_nodes s) q' (new_node s)) in *.
  assert (closed_nodes s !! key = None) as Hclosed.
  { destruct (closed_nodes s !! key) as [x|] eqn:Hc; [|done].
    destruct (Hdis key). unfold in_open in Hopen. split; eauto. }
  assert (InsertClosedNode item s1 =
    Done (tt, set_closed_nodes (<[key := item]> (closed_nodes s1)) s1))
    as Hclose.
  { apply (InsertClosedNode_ok item (items s !!! item) s1); [done|  |done].
    simpl. apply lookup_delete_eq. }
  exists item, s1, (set_closed_nodes (<[key := item]> (closed_nodes s1)) s1).
  split; [done|]. split; [done|]. split; [|split; [|split; [|split]]].
  - eexists. rewrite FindClosedNode_eq. simpl. by rewrite lookup_insert_eq.
  - eexists. rewrite FindOpenNode_eq. simpl. by rewrite lookup_delete_eq.
  - unfold HashTable.Count. simpl.
    pose proof (map_size_delete_Some _ _ (mk_is_Some _ _ Hopen)) as Hsize.
    fold key in Hsize.
    assert (size (open_nodes s) ≠ 0); [|lia].
    intros Hz%map_size_empty_iff. unfold in_open in Hopen.
    rewrite Hz in Hopen. by rewrite lookup_empty in Hopen.
  - unfold HashTable.Count. simpl. by apply map_size_insert_None.
  - unfold settled. eapply rtc_r; [eapply rtc_r; [exact Hsettled|]|].
    + apply (step_call _ _ _ Call_PopBestOpenNode); [done|].
      simpl. unfold after. by rewrite Hpop.
    + apply (step_call _ _ _ (Call_InsertClosedNode item)); [done|].
      simpl. unfold after. by rewrite Hclose.
Qed.

(** X8 -- insertion and lookup.  [InsertOpenNode] of a node returns exactly
    when its key is in neither index; then [FindOpenNode] finds the node
    under its key, the node is queued, the lookups of the other keys and
    the closed index are as before and [OpenCount] has one node more.  The
    same holds for [InsertClosedNode] and the closed index, which leaves
    the queue alone. *)
Theorem X8_insert_then_find s item it :
  items s !! item = Some it →
  ((∃ s', InsertOpenNode item s = Done (tt, s')) ↔
     returns (FindOpenNode (GetKey it)) s None ∧
     returns (FindClosedNode (GetKey it)) s None) ∧
  (∀ r s', InsertOpenNode item s = Done (r, s') →
     returns (FindOpenNode (GetKey it)) s' (Some item) ∧
     item ∈ open_queue s' ∧
     (∀ key, key ≠ GetKey it →
        FindOpenNode key s' = Done (open_nodes s !! key, s')) ∧
     closed_nodes s' = closed_nodes s ∧
     HashTable.Count (open_nodes s') = S (HashTable.Count (open_nodes s))) ∧
  ((∃ s', InsertClosedNode item s = Done (tt, s')) ↔
     returns (FindOpenNode (GetKey it)) s None ∧
     returns (FindClosedNode (GetKey it)) s None) ∧
  (∀ r s', InsertClosedNode item s = Done (r, s') →
     returns (FindClosedNode (GetKey it)) s' (Some item) ∧
     (∀ key, key ≠ GetKey it →
        FindClosedNode key s' = Done (closed_nodes s !! key, s')) ∧
     open_nodes s' = open_nodes s ∧ open_queue s' = open_queue s ∧
     HashTable.Count (closed_nodes s') =
       S (HashTable.Count (closed_nodes s))).
Proof.
  intros Hit.
  assert (∀ (t : NodeList Titem → gmap Key Handle) find,
    (∀ k s0, find k s0 = Done (t s0 !! k, s0)) →
    returns (find (GetKey it)) s None ↔ t s !! GetKey it = None) as Hnone.
  { intros t find Hfind. unfold returns. rewrite Hfind. split.
    - by intros [s0 [= ->]].
    - intros ->. by exists s. }
  rewrite (Hnone open_nodes FindOpenNode FindOpenNode_eq).
  rewrite (Hnone closed_nodes FindClosedNode FindClosedNode_eq).
  split; [|split; [|split]].
  - split.
    + intros [s' (it' & Hit' & Hclosed & Hopen & _)%InsertOpenNode_Done].
      by assert (it' = it) as -> by congruence.
    + intros [Hopen Hclosed]. eexists. by apply InsertOpenNode_ok.
  - intros r s' (it' & Hit' & Hclosed & Hopen & ->)%InsertOpenNode_Done.
    assert (it' = it) as -> by congruence. simpl.
    split; [|split; [|split; [|split]]].
    + eexists. rewrite FindOpenNode_eq. simpl. by rewrite lookup_insert_eq.
    + unfold item_lt. rewrite Include_Permutation. by left.
    + intros key Hne. rewrite FindOpenNode_eq. simpl.
      by rewrite lookup_insert_ne.
    + done.
    + unfold HashTable.Count. by apply map_size_insert_None.
  - split.
    + intros [s' (it' & Hit' & Hopen & Hclosed & _)%InsertClosedNode_Done].
      by assert (it' = it) as -> by congruence.
    + intros [Hopen Hclosed]. eexists. by apply InsertClosedNode_ok.
  - intros r s' (it' & Hit' & Hopen & Hclosed & ->)%InsertClosedNode_Done.
    assert (it' = it) as -> by congruence. simpl.
    split; [|split; [|split; [|split]]].
    + eexists. rewrite FindClosedNode_eq. simpl. by rewrite lookup_insert_eq.
    + intros key Hne. rewrite FindClosedNode_eq. simpl.
      by rewrite lookup_insert_ne.
    + done.
    + done.
    + unfold HashTable.Count. by apply map_size_insert_None.
Qed.

(** X9 -- [InsertOpenNode] undone by [PopOpenNode].  In a state where I2
    holds and the queue is a heap, a node that [InsertOpenNode] has put into
    the open set is taken out again by [PopOpenNode] on its key: the call
    returns the node, the two indexes and the arena are as before the
    insertion, the queue holds the nodes it held, and I2 and the heap order
    hold. *)
Theorem X9_insert_then_pop_open_node s item r s1 :
  paired_heap s → InsertOpenNode item s = Done (r, s1) →
  ∃ s2,
    PopOpenNode (GetKey (items s !!! item)) s1 = Done (item, s2) ∧
    items s2 = items s ∧ open_nodes s2 = open_nodes s ∧
    closed_nodes s2 = closed_nodes s ∧
    open_queue s2 ≡ₚ open_queue s ∧
    paired_heap s2.
Proof.
  intros Hpaired Hinsert.
  pose proof Hinsert as (it & Hit & Hclosed & Hopen & ->)%InsertOpenNode_Done.
  rewrite (list_lookup_total_correct _ _ _ Hit).
  set (s1 := mkNodeList _ _ _ _ _) in *.
  assert (paired_heap s1) as Hpaired1.
  { apply (transition_paired_heap s (Call_InsertOpenNode item)); [|done|done].
    by apply (tr_insert_open s item it). }
  assert (open_queue s1 ≡ₚ item :: open_queue s) as Hperm1.
  { unfold s1, item_lt. simpl. apply Include_Permutation. }
  assert (open_nodes s1 !! GetKey it = Some item) as Hopen1
    by apply lookup_insert_eq.
  destruct (FindIndex_elem item (open_queue s1)) as [index Hindex];
    [rewrite Hperm1; by left|].
  pose proof (FindIndex_Done _ _ _ Hindex) as Hat.
  destruct (Remove_ok (cost_of (items s1)) index (open_queue s1))
    as [q' HRemove]; [by eapply lookup_lt_Some|].
  pose proof (Remove_Done _ _ _ _ HRemove) as (_ & Hperm & _).
  rewrite (list_lookup_total_correct _ _ _ Hat) in Hperm.
  eexists. split; [by apply (PopOpenNode_ok (GetKey it) s1 item index q')|].
  simpl. split; [done|]. split; [by apply delete_insert_id|].
  split; [done|]. split.
  - apply (Permutation_cons_inv (a := item)). by rewrite <-Hperm, Hperm1.
  - apply (transition_paired_heap s1 (Call_PopOpenNode (GetKey it)));
      [|done|done].
    by apply (tr_pop_open s1 (GetKey it) item index q').
Qed.

(** X10 -- the uncommitted node is outside the open set.  In a state the
    search loop reaches through the combined methods, the node
    [CreateNewNode] returns is a node of the arena that is not queued and is
    not found by [FindOpenNode] under any key, so a store to it leaves the
    heap alone; and [CreateNewNode] changes neither index nor the queue. *)
Theorem X10_uncommitted_node_is_not_open s item s' :
  settled s → CreateNewNode s = Done (item, s') →
  is_Some (items s' !! item) ∧
  (item ∉ open_queue s') ∧
  (∀ key, ¬ returns (FindOpenNode key) s' (Some item)) ∧
  (∀ v, store_unqueued s' item v) ∧
  open_nodes s' = open_nodes s ∧ closed_nodes s' = closed_nodes s ∧
  open_queue s' = open_queue s ∧
  settled s'.
Proof.
  intros Hsettled Hcreate.
  assert (settled s') as Hsettled'.
  { unfold settled. eapply rtc_r; [exact Hsettled|].
    apply (step_call _ _ _ Call_CreateNewNode); [done|].
    simpl. unfold after. by rewrite Hcreate. }
  destruct (CreateNewNode_new_node s item s' Hcreate) as [Hnew _].
  destruct (settled_new_node_apart s' Hsettled' item Hnew)
    as (Hlt & Hnotin & Hnotopen).
  split; [by apply lookup_lt_is_Some|]. split; [done|].
  split; [|split].
  - intros key [s0 [= Hl _]]. by eapply Hnotopen.
  - done.
  - rewrite CreateNewNode_eq in Hcreate.
    by destruct (new_node s); injection Hcreate as <- <-.
Qed.

(** X11 -- a lookup returns a node with the key asked for.  In every state
    the search loop can reach, whether the nodes it has passed in are items
    of the arena or nodes of its own, the node [FindOpenNode] or
    [FindClosedNode] returns for a key is a node whose key is that key. *)
Theorem X11_lookups_return_keyed_nodes (w : InMemory.World Titem) :
  InMemory.reachable w →
  (∀ key item, InMemory.returns (InMemory.FindOpenNode key) w (Some item) →
     ∃ it, InMemory.memory w !! item = Some it ∧ GetKey it = key) ∧
  (∀ key item, InMemory.returns (InMemory.FindClosedNode key) w (Some item) →
     ∃ it, InMemory.memory w !! item = Some it ∧ GetKey it = key).
Proof.
  intros (_ & Hko & Hkc & _)%reachable_invariant. split.
  - intros key item [w0 [= Hl _]]. by apply Hko.
  - intros key item [w0 [= Hl _]]. by apply Hkc.
Qed.

(** X12 -- [DequeueBestOpenNode].  On an empty queue the call fails the
    assertion of line 109, where [PopBestOpenNode] returns [nullptr]; on a
    queue that is not empty it returns and takes the node that
    [GetBestOpenNode] shows off the queue, leaving the arena, the indexes
    and [new_node] alone; the rest of a heap is a heap, and the node taken
    had the least cost estimate. *)
Theorem X12_dequeue_best_open_node s :
  (IsEmpty (open_queue s) = true →
     DequeueBestOpenNode s =
       assert_str_error 109 nodelist_hpp "!this->open_queue.IsEmpty()" None ∧
     PopBestOpenNode s = Done (None, s)) ∧
  (IsEmpty (open_queue s) = false →
     ∃ item s',
       GetBestOpenNode s = Done (Some item, s) ∧
       DequeueBestOpenNode s = Done (tt, s') ∧
       open_queue s ≡ₚ item :: open_queue s' ∧
       items s' = items s ∧ open_nodes s' = open_nodes s ∧
       closed_nodes s' = closed_nodes s ∧ new_node s' = new_node s ∧
       (queue_ordered s →
          queue_ordered s' ∧
          ∀ x, x ∈ open_queue s →
            (cost_of (items s) item ≤ cost_of (items s) x)%Z)).
Proof.
  split.
  - intros Hempty.
    split; [by apply DequeueBestOpenNode_empty|by apply PopBestOpenNode_empty].
  - intros Hne.
    destruct (Shift_nonempty (cost_of (items s)) _ Hne)
      as (item & q' & HShift).
    pose proof HShift as (Hhead & Hperm & _ & Hheap)%Shift_Done.
    exists item, (set_open_queue q' s).
    split; [|split; [by eapply DequeueBestOpenNode_ok|done]].
    rewrite GetBestOpenNode_eq. by rewrite head_lookup, Hhead.
Qed.

(** X13 -- the methods leave the node data alone.  No call moves or
    overwrites an item of the arena: a pointer to a node stays good and
    reads the same item after any returning call; the arena grows by one
    item in [CreateNewNode] when there is no uncommitted node, and in no
    other call. *)
Theorem X13_calls_keep_node_data c s s' :
  exec c s = Done s' →
  (∀ item it, items s !! item = Some it → items s' !! item = Some it) ∧
  (BumpAllocContainer.Length (items s') =
     S (BumpAllocContainer.Length (items s)) ↔
   c = Call_CreateNewNode ∧ new_node s = None) ∧
  (BumpAllocContainer.Length (items s') =
     BumpAllocContainer.Length (items s) ∨
   BumpAllocContainer.Length (items s') =
     S (BumpAllocContainer.Length (items s))).
Proof.
  intros Htr%exec_transition. unfold BumpAllocContainer.Length.
  pose proof (transition_items s c s' Htr) as [Hsame|(-> & Hnone & Hgrow)].
  - rewrite Hsame. split; [done|]. split; [|by left].
    split; [lia|]. intros [-> Hnone]. inversion Htr as [Hn| | | | | | | | | | | | | | | |]; subst.
    + simpl in Hsame. apply (f_equal length) in Hsame.
      rewrite length_app in Hsame. simpl in Hsame. lia.
    + congruence.
  - rewrite Hgrow, length_app. simpl. split; [|split; [|right; lia]].
    + intros item it Hit. by apply lookup_app_l_Some.
    + split; [done|lia].
Qed.

(** X14 -- the queue stays best-first under insertion.  When the queue is a
    heap, after [InsertOpenNode] or [ReenqueueOpenNode] of a node
    [GetBestOpenNode] returns the inserted node or a node queued before,
    and its cost estimate is at most that of the inserted node and of every
    node queued before. *)
Theorem X14_insertion_keeps_best_first s item r s' :
  queue_ordered s →
  InsertOpenNode item s = Done (r, s') ∨
  ReenqueueOpenNode item s = Done (r, s') →
  ∃ best,
    GetBestOpenNode s' = Done (Some best, s') ∧
    (best = item ∨ best ∈ open_queue s) ∧
    (cost_of (items s') best ≤ cost_of (items s') item)%Z ∧
    (∀ x, x ∈ open_queue s →
       (cost_of (items s') best ≤ cost_of (items s') x)%Z) ∧
    queue_ordered s'.
Proof.
  intros Hord Hcall.
  destruct (Include_best (cost_of (items s)) item (open_queue s) Hord)
    as (best & Hhead & Hbest & Hitem & Hmin).
  assert (items s' = items s ∧
    open_queue s' = Include (item_lt (items s)) item (open_queue s))
    as [Hitems Hqueue].
  { destruct Hcall as [(it & _ & _ & _ & ->)%InsertOpenNode_Done
                      |[_ ->]%ReenqueueOpenNode_Done]; done. }
  unfold item_lt in Hqueue.
  exists best. rewrite GetBestOpenNode_eq, Hqueue, Hitems.
  split; [by rewrite Hhead|]. split; [done|]. split; [done|].
  split; [done|].
  unfold queue_ordered. rewrite Hqueue, Hitems. by apply Include_ordered.
Qed.

(** X15 -- exhausting the open set.  In a state the search loop reaches
    through the combined methods, as many [PopBestOpenNode] calls as there
    are open nodes return every open node once, in non-decreasing order of
    cost estimate; afterwards the open index is empty, [PopBestOpenNode]
    returns [nullptr], and the arena and the closed index are as before. *)
Theorem X15_exhausting_the_open_set s :
  settled s →
  NoDup (drain (HashTable.Count (open_nodes s)) s) ∧
  (∀ item, item ∈ drain (HashTable.Count (open_nodes s)) s ↔
           ∃ key, returns (FindOpenNode key) s (Some item)) ∧
  Sorted Z.le
    (cost_of (items s) <$> drain (HashTable.Count (open_nodes s)) s) ∧
  HashTable.Count
    (open_nodes (drained (HashTable.Count (open_nodes s)) s)) = 0 ∧
  PopBestOpenNode (drained (HashTable.Count (open_nodes s)) s) =
    Done (None, drained (HashTable.Count (open_nodes s)) s) ∧
  items (drained (HashTable.Count (open_nodes s)) s) = items s ∧
  closed_nodes (drained (HashTable.Count (open_nodes s)) s) =
    closed_nodes s ∧
  settled (drained (HashTable.Count (open_nodes s)) s).
Proof.
  intros Hsettled.
  pose proof (settled_paired_heap s Hsettled) as (Hqi & Hiq & Hord & Hkeyed).
  pose proof (reachable_combined_paired s (settled_reachable s Hsettled))
    as Hsize.
  unfold HashTable.Count. rewrite Hsize.
  destruct (drain_complete (length (open_queue s)) s Hqi)
    as (Hperm & Hq & Hitems & Hopen); [done|].
  destruct (drained_settled (length (open_queue s)) s Hsettled)
    as [Hsettled' Hclosed].
  split; [|split; [|split; [|split; [|split]]]].
  - rewrite Hperm. apply Hqi.
  - intros item. rewrite Hperm. split.
    + intros [_ Hin]%Hqi. eexists _, s. rewrite FindOpenNode_eq.
      by rewrite Hin.
    + intros (key & s0 & [= Hl _]). by eapply Hiq.
  - by apply StronglySorted_Sorted, drain_sorted.
  - rewrite Hopen by done. apply map_size_empty.
  - apply PopBestOpenNode_empty. by rewrite Hq.
  - done.
Qed.
End further.

(** ** Properties of the reports *)

(** X16 -- a NOT_REACHED report names its place.  Two calls of
    [not_reached_error] end in the same fatal error exactly when they were
    made for the same line and the same file. *)
Theorem X16_not_reached_report_names_the_place (A : Type)
    (line line' : nat) (file file' : string) :
  not_reached_error (A := A) line file = not_reached_error line' file' ↔
  line = line' ∧ file = file'.
Proof.
  split; [|by intros [-> ->]].
  unfold not_reached_error, FatalErrorI, not_reached_message.
  intros [= Heq%append_inv_head].
  change (" of " +:+ ?f)%string with (String " " ("of " +:+ f)) in Heq.
  apply word_then_blank in Heq as [Hl Hf]; try apply format_line_blank_free.
  split; [by apply format_line_inj|]. by apply append_inv_head in Hf.
Qed.

(** X17 -- an assertion report names its line.  Two calls of
    [assert_str_error] for different lines end in different fatal errors,
    whatever the file, the expression and the further text are; and no
    assertion report is a NOT_REACHED report. *)
Theorem X17_assertion_report_names_the_line (A : Type)
    (line line' : nat) (file file' expr expr' : string)
    (str str' : option string) :
  (line ≠ line' →
   assert_str_error (A := A) line file expr str ≠
     assert_str_error line' file' expr' str') ∧
  assert_str_error (A := A) line file expr str ≠
    not_reached_error line' file'.
Proof.
  split; [|by destruct str].
  intros Hne [= Heq]. apply Hne.
  destruct (assert_message_shape line file expr str) as [rest Hr].
  destruct (assert_message_shape line' file' expr' str') as [rest' Hr'].
  rewrite Hr, Hr' in Heq. apply append_inv_head in Heq.
  apply word_then_blank in Heq as [Hl _]; try apply format_line_blank_free.
  by apply format_line_inj.
Qed.

(** X18 -- the overload of [assert_str_error] for a [std::string].  Its
    report is the report without further text, a newline, and the
    characters of the string before its first NUL; it is never the report
    without further text, even for the empty string; and for a string
    without NUL it is the report [assert_str_error] makes for that text. *)
Theorem X18_string_overload_adds_a_line (A : Type)
    (line : nat) (file expr str : string) :
  assert_str_error_string (A := A) line file expr str =
    FatalErrorI
      (assert_message line file expr None +:+ newline +:+ c_str str) ∧
  assert_str_error_string (A := A) line file expr str ≠
    assert_str_error line file expr None ∧
  (∃ rest, str = c_str str +:+ rest) ∧
  nul_free (c_str str) ∧
  (nul_free str →
   assert_str_error_string (A := A) line file expr str =
     assert_str_error line file expr (Some str)).
Proof.
  split; [done|]. split; [|split; [|split]].
  - unfold assert_str_error_string, assert_str_error, FatalErrorI,
      assert_message.
    intros [= Heq]. apply (f_equal String.length) in Heq.
    rewrite !length_append in Heq. simpl in Heq. lia.
  - apply c_str_prefix.
  - apply c_str_nul_free.
  - intros Hstr. unfold assert_str_error_string. by rewrite c_str_id.
Qed.

(** ** The claims at the scenarios *)

Lemma closed_X_reachable : reachable closed_X.
Proof.
  apply (run_reachable any_call (λ _, true) open_pop_close_X); [done|].
  vm_compute. reflexivity.
Qed.

Lemma opened_ABC_filled : rtc fill NodeList_ctor opened_ABC.
Proof.
  apply (run_sound fill_call fills_open_set store_unqueued store_unqueued_b)
    with (acts := open_A_B_C);
    [done|apply store_unqueued_b_true|].
  vm_compute. reflexivity.
Qed.

Lemma opened_ABC_reachable : reachable_via combined_call opened_ABC.
Proof.
  apply (run_reachable combined_call (λ c, negb (split_phase c)) open_A_B_C).
  - intros c. by destruct (split_phase c) eqn:Hc.
  - vm_compute. reflexivity.
Qed.

Lemma opened_ABC_settled : settled opened_ABC.
Proof.
  apply (run_sound combined_call (λ c, negb (split_phase c))
           store_settled store_settled_b) with (acts := open_A_B_C).
  - intros c. by destruct (split_phase c) eqn:Hc.
  - apply store_settled_b_true.
  - vm_compute. reflexivity.
Qed.

Lemma opened_ABC_indexed : queue_indexed opened_ABC.
Proof. apply (settled_paired_heap _ opened_ABC_settled). Qed.

Lemma opened_ABC_ordered : queue_ordered opened_ABC.
Proof. apply (settled_paired_heap _ opened_ABC_settled). Qed.

Lemma dequeued_A_reachable : reachable dequeued_A.
Proof.
  apply (run_reachable any_call (λ _, true) open_dequeue_A); [done|].
  vm_compute. reflexivity.
Qed.

Lemma two_released_reachable : reachable two_released.
Proof.
  apply (run_reachable any_call (λ _, true) create_release_twice); [done|].
  vm_compute. reflexivity.
Qed.

Lemma closed_uncommitted_steps :
  rtc (step keeps_new_node store_allowed) created closed_uncommitted.
Proof.
  apply (run_sound keeps_new_node (λ c, negb (commits c))
           store_allowed store_allowed_b) with (acts := close_uncommitted_X).
  - intros c. unfold keeps_new_node. by destruct (commits c).
  - apply store_allowed_b_true.
  - vm_compute. reflexivity.
Qed.

(** C1 at the state scenario B ends in: X is reachable, closed, and not
    found in both indexes. *)
Lemma C1_witness :
  reachable closed_X ∧
  ¬ (returns (FindOpenNode (GetKey node_X)) closed_X (Some 0) ∧
     returns (FindClosedNode (GetKey node_X)) closed_X (Some 0)).
Proof.
  split; [exact closed_X_reachable|].
  exact (proj1 (C1_open_closed_disjoint closed_X closed_X_reachable) _ _ _).
Defined.

(** C2 at scenario A: the queue filled with A, B, C from the empty node list
    drains in the order of the cost estimates. *)
Lemma C2_witness :
  queue_ordered (NodeList_ctor (Titem := SampleNode)) ∧
  queue_valid (NodeList_ctor (Titem := SampleNode)) ∧
  rtc fill NodeList_ctor opened_ABC ∧
  Sorted Z.le (cost_of (items opened_ABC) <$> drain 3 opened_ABC).
Proof.
  assert (queue_ordered (NodeList_ctor (Titem := SampleNode))) as Hord
    by (intros i Hi; simpl in Hi; lia).
  assert (queue_valid (NodeList_ctor (Titem := SampleNode))) as Hvalid
    by (intros item Hin; by apply elem_of_nil in Hin).
  split; [done|]. split; [done|]. split; [exact opened_ABC_filled|].
  apply (proj1 C2_min_order_extraction SampleNode _ NodeList_ctor opened_ABC
           Hord Hvalid opened_ABC_filled).
Defined.

(** C3 at a fresh node list: the created node is written and even closed, and
    [CreateNewNode] still returns it. *)
Lemma C3_witness :
  CreateNewNode (NodeList_ctor (Titem := SampleNode)) =
    Done (0, created) ∧
  rtc (step keeps_new_node store_allowed) created closed_uncommitted ∧
  CreateNewNode closed_uncommitted = Done (0, closed_uncommitted).
Proof.
  assert (CreateNewNode (NodeList_ctor (Titem := SampleNode)) =
    Done (0, created)) as Hcreate
    by reflexivity.
  split; [done|]. split; [exact closed_uncommitted_steps|].
  apply (proj1 (C3_create_idempotent _ _ _ Hcreate)).
  exact closed_uncommitted_steps.
Defined.

(** C4 at a fresh node list (scenario D). *)
Lemma C4_witness :
  CBinaryHeapT.IsEmpty (open_queue (NodeList_ctor (Titem := SampleNode))) = true ∧
  PopBestOpenNode (NodeList_ctor (Titem := SampleNode)) =
    Done (None, NodeList_ctor).
Proof.
  assert (CBinaryHeapT.IsEmpty
    (open_queue (NodeList_ctor (Titem := SampleNode))) = true) as Hempty
    by reflexivity.
  split; [done|].
  exact (proj1 (proj2 (C4_absence_is_not_an_error NodeList_ctor Hempty))).
Defined.

(** C5 at the state scenario A ends in. *)
Lemma C5_witness :
  queue_indexed opened_ABC ∧ queue_ordered opened_ABC ∧
  CBinaryHeapT.IsEmpty (open_queue opened_ABC) = false ∧
  (Z.of_nat (HashTable.Count (open_nodes opened_ABC)) ≤ INT_MAX)%Z ∧
  ∃ item s',
    PopBestOpenNode opened_ABC = Done (Some item, s') ∧
    returns (FindOpenNode (GetKey (items opened_ABC !!! item))) s' None.
Proof.
  assert (Z.of_nat (HashTable.Count (open_nodes opened_ABC)) ≤ INT_MAX)%Z
    as Hfits by (vm_compute; discriminate).
  assert (CBinaryHeapT.IsEmpty (open_queue opened_ABC) = false) as Hne
    by reflexivity.
  split; [exact opened_ABC_indexed|]. split; [exact opened_ABC_ordered|].
  split; [done|]. split; [done|].
  destruct (C5_pop_best_open_node opened_ABC opened_ABC_indexed
              opened_ABC_ordered Hne Hfits)
    as (item & s' & Hpop & _ & _ & _ & _ & Hfind & _).
  by exists item, s'.
Defined.

(** C6 at the state scenario A ends in (scenario C). *)
Lemma C6_witness :
  queue_indexed opened_ABC ∧
  CBinaryHeapT.IsEmpty (open_queue opened_ABC) = false ∧
  ∃ item s1 s2,
    DequeueBestOpenNode opened_ABC = Done (tt, s1) ∧
    PopAlreadyDequeuedOpenNode (GetKey (items opened_ABC !!! item)) s1 =
      Done (item, s2) ∧
    returns (FindOpenNode (GetKey (items opened_ABC !!! item))) s2 None.
Proof.
  assert (CBinaryHeapT.IsEmpty (open_queue opened_ABC) = false) as Hne
    by reflexivity.
  split; [exact opened_ABC_indexed|]. split; [done|].
  destruct (C6_matched_pair_removal opened_ABC opened_ABC_indexed Hne)
    as (item & s1 & s2 & _ & Hdequeue & Hpop & Hfind & _).
  by exists item, s1, s2.
Defined.

(** C7 at the state scenario B ends in: opening X again fails the assertion
    of line 79. *)
Lemma C7_witness :
  scenario_B = Done (0, closed_X) ∧
  items closed_X !! 0 = Some node_X ∧
  returns (FindClosedNode (GetKey node_X)) closed_X (Some 0) ∧
  InsertOpenNode 0 closed_X =
    assert_str_error 79 nodelist_hpp
      "this->closed_nodes.Find(item.GetKey()) == nullptr" None.
Proof.
  assert (items closed_X !! 0 = Some node_X) as Hit by reflexivity.
  assert (returns (FindClosedNode (GetKey node_X)) closed_X (Some 0))
    as Hfind by (exists closed_X; vm_compute; reflexivity).
  split; [vm_compute; reflexivity|]. split; [done|]. split; [done|].
  apply (proj1 (C7_preconditions_fail_fast closed_X 0 node_X Hit) 0 Hfind).
Defined.

Lemma matched_B_runs : runs open_dequeue_match_B NodeList_ctor matched_B.
Proof. apply run_runs. vm_compute. reflexivity. Qed.

Lemma matched_B_reachable : reachable matched_B.
Proof. apply (runs_steps _ _ _ matched_B_runs). Qed.

(** C8, as amended, at a run in which [DequeueBestOpenNode] is made up for
    two calls later. *)
Lemma C8_witness :
  reachable matched_B ∧
  runs open_dequeue_match_B NodeList_ctor matched_B ∧
  pending open_dequeue_match_B = 0%Z ∧
  returns OpenCount matched_B
    (to_int (CBinaryHeapT.Length (open_queue matched_B))).
Proof.
  assert (pending open_dequeue_match_B = 0%Z) as Hpending by reflexivity.
  split; [exact matched_B_reachable|]. split; [exact matched_B_runs|].
  split; [done|].
  exact (proj1 (proj2 (proj1 (proj2 (C8_open_count_and_queue matched_B
                                matched_B_reachable))
                         _ matched_B_runs)) Hpending).
Defined.

(** C8 as stated fails after [DequeueBestOpenNode]: the state is reachable,
    [OpenCount] returns 1 and the queue holds no element. *)
Lemma C8_counterexample :
  reachable dequeued_A ∧
  returns OpenCount dequeued_A 1%Z ∧
  CBinaryHeapT.Length (open_queue dequeued_A) = 0 ∧
  ¬ returns OpenCount dequeued_A
      (to_int (CBinaryHeapT.Length (open_queue dequeued_A))).
Proof.
  split; [exact dequeued_A_reachable|].
  split; [eexists; vm_compute; reflexivity|]. split; [reflexivity|].
  intros [s' Hcount]. vm_compute in Hcount. discriminate.
Qed.

Lemma own_X_opened_reachable : InMemory.reachable own_X_opened.
Proof.
  unfold InMemory.reachable.
  apply (rtc_l _ _ own_X).
  { assert (own_X =
      InMemory.store_item 0 node_X InMemory.NodeList_ctor) as ->
      by reflexivity.
    by apply InMemory.step_own. }
  apply rtc_once, (InMemory.step_call _ (Call_InsertOpenNode 0)).
  vm_compute. reflexivity.
Qed.

(** C9, as amended, where the search loop has opened a node of its own: no
    item has been allocated and one node is open. *)
Lemma C9_witness :
  InMemory.reachable own_X_opened ∧
  (Z.of_nat (BumpAllocContainer.Length (InMemory.items own_X_opened))
     ≤ INT_MAX)%Z ∧
  (Z.of_nat (HashTable.Count (InMemory.open_nodes own_X_opened))
     ≤ INT_MAX)%Z ∧
  (Z.of_nat (HashTable.Count (InMemory.closed_nodes own_X_opened))
     ≤ INT_MAX)%Z ∧
  InMemory.returns InMemory.TotalCount own_X_opened 0%Z ∧
  InMemory.returns InMemory.OpenCount own_X_opened 1%Z ∧
  InMemory.returns InMemory.ClosedCount own_X_opened 0%Z ∧
  (0 +
     Z.of_nat (HashTable.Count
                 (InMemory.outside own_X_opened
                    (InMemory.open_nodes own_X_opened))) +
     Z.of_nat (HashTable.Count
                 (InMemory.outside own_X_opened
                    (InMemory.closed_nodes own_X_opened)))
   = 1 + 0 + Z.of_nat (length (InMemory.unindexed own_X_opened)))%Z.
Proof.
  assert (Z.of_nat (BumpAllocContainer.Length (InMemory.items own_X_opened))
            ≤ INT_MAX)%Z as Hfits by (vm_compute; discriminate).
  assert (Z.of_nat (HashTable.Count (InMemory.open_nodes own_X_opened))
            ≤ INT_MAX)%Z as Hfits_open by (vm_compute; discriminate).
  assert (Z.of_nat (HashTable.Count (InMemory.closed_nodes own_X_opened))
            ≤ INT_MAX)%Z as Hfits_closed by (vm_compute; discriminate).
  assert (InMemory.returns InMemory.TotalCount own_X_opened 0%Z) as Htotal
    by (eexists; vm_compute; reflexivity).
  assert (InMemory.returns InMemory.OpenCount own_X_opened 1%Z) as Hopen
    by (eexists; vm_compute; reflexivity).
  assert (InMemory.returns InMemory.ClosedCount own_X_opened 0%Z) as Hclosed
    by (eexists; vm_compute; reflexivity).
  split; [exact own_X_opened_reachable|].
  do 6 (split; [done|]).
  exact (proj1 (C9_conservation_among_all_nodes own_X_opened 0 1 0
                  own_X_opened_reachable Hfits Hfits_open Hfits_closed
                  Htotal Hopen Hclosed)).
Defined.

(** C9 as stated fails after two nodes were created and released through
    [FoundBestNode]: no uncommitted node exists, and [TotalCount] exceeds
    [OpenCount] plus [ClosedCount] by two. *)
Lemma C9_counterexample :
  reachable two_released ∧
  new_node two_released = None ∧
  returns TotalCount two_released 2%Z ∧
  returns OpenCount two_released 0%Z ∧
  returns ClosedCount two_released 0%Z.
Proof.
  split; [exact two_released_reachable|]. split; [reflexivity|].
  repeat split; eexists; vm_compute; reflexivity.
Qed.

(** C10 at the uncommitted node X. *)
Lemma C10_witness :
  InsertClosedNode 0 fresh_X = Done (tt, closed_uncommitted) ∧
  new_node fresh_X = Some 0 ∧
  CreateNewNode closed_uncommitted = Done (0, closed_uncommitted).
Proof.
  assert (InsertClosedNode 0 fresh_X = Done (tt, closed_uncommitted))
    as Hclose by (vm_compute; reflexivity).
  assert (new_node fresh_X = Some 0) as Hnew by reflexivity.
  split; [done|]. split; [done|].
  apply (proj1 (proj1 (proj2 (C10_closing_keeps_new_node _ _ _ _ Hclose)) Hnew)).
Defined.

Lemma opened_ABC_paired : paired_heap opened_ABC.
Proof. apply settled_paired_heap, opened_ABC_settled. Qed.

(** X1 at the state scenario A ends in. *)
Lemma X1_witness :
  settled opened_ABC ∧
  HashTable.Count (open_nodes opened_ABC) =
    CBinaryHeapT.Length (open_queue opened_ABC).
Proof.
  split; [exact opened_ABC_settled|].
  exact (proj2 (proj2 (proj2 (X1_settled_states_are_paired opened_ABC
                                opened_ABC_settled)))).
Defined.

(** X2 at the state scenario A ends in: A is removed from the second position
    of the queue. *)
Lemma X2_witness :
  paired_heap opened_ABC ∧
  returns (FindOpenNode (GetKey node_A)) opened_ABC (Some 0) ∧
  ∃ s', PopOpenNode (GetKey node_A) opened_ABC = Done (0, s') ∧
        returns (FindOpenNode (GetKey node_A)) s' None.
Proof.
  assert (returns (FindOpenNode (GetKey node_A)) opened_ABC (Some 0)) as Hfind
    by (exists opened_ABC; reflexivity).
  split; [exact opened_ABC_paired|]. split; [done|].
  destruct (X2_pop_open_node opened_ABC (GetKey node_A) 0
              opened_ABC_paired Hfind) as (s' & Hpop & Hnone & _).
  by exists s'.
Defined.

(** ** The further properties at the scenarios *)

Lemma ctor_reachable : reachable (NodeList_ctor (Titem := SampleNode)).
Proof. apply rtc_refl. Qed.

Lemma fresh_X_settled : settled fresh_X.
Proof.
  apply (run_sound combined_call (λ c, negb (split_phase c))
           store_settled store_settled_b) with (acts := create_fill_X).
  - intros c. by destruct (split_phase c) eqn:Hc.
  - apply store_settled_b_true.
  - vm_compute. reflexivity.
Qed.

Lemma created_beside_X_steps :
  rtc (step any_call store_allowed) closed_X created_beside_X.
Proof.
  apply rtc_once, (step_call _ _ _ Call_CreateNewNode); [done|].
  vm_compute. reflexivity.
Qed.

(** X3 at a fresh node list: the first node is created and released. *)
Lemma X3_witness :
  reachable (NodeList_ctor (Titem := SampleNode)) ∧
  CreateNewNode (NodeList_ctor (Titem := SampleNode)) = Done (0, created) ∧
  FoundBestNode 0 created = Done (tt, set_new_node None created).
Proof.
  assert (CreateNewNode (NodeList_ctor (Titem := SampleNode)) =
    Done (0, created)) as Hcreate by reflexivity.
  split; [exact ctor_reachable|]. split; [done|].
  destruct (proj1 (X3_found_best_node_releases _ _ _ ctor_reachable Hcreate))
    as (item' & s3 & Hfound & _).
  exact Hfound.
Defined.

(** X4 at the state scenario B ends in: the next node is new. *)
Lemma X4_witness :
  reachable closed_X ∧ new_node closed_X = None ∧
  CreateNewNode closed_X = Done (1, created_beside_X) ∧
  items created_beside_X !! 1 = Some item_init.
Proof.
  assert (new_node closed_X = None) as Hnone by reflexivity.
  assert (CreateNewNode closed_X = Done (1, created_beside_X)) as Hcreate
    by (vm_compute; reflexivity).
  split; [exact closed_X_reachable|]. split; [done|]. split; [done|].
  exact (proj1 (proj2 (X4_created_node_is_fresh _ _ _ closed_X_reachable
                         Hnone Hcreate))).
Defined.

(** X5 at the state scenario B ends in: X is still closed after the next
    node has been created. *)
Lemma X5_witness :
  reachable closed_X ∧
  rtc (step any_call store_allowed) closed_X created_beside_X ∧
  returns (FindClosedNode (GetKey node_X)) closed_X (Some 0) ∧
  returns (FindClosedNode (GetKey node_X)) created_beside_X (Some 0).
Proof.
  assert (returns (FindClosedNode (GetKey node_X)) closed_X (Some 0))
    as Hfind by (exists closed_X; vm_compute; reflexivity).
  split; [exact closed_X_reachable|]. split; [exact created_beside_X_steps|].
  split; [done|].
  exact (proj1 (X5_closed_nodes_stay_closed _ _ _ _ closed_X_reachable
                  created_beside_X_steps Hfind)).
Defined.

(** X6 at the state scenario A ends in: B is dequeued, given the cost
    estimate 9, and put back. *)
Lemma X6_witness :
  paired_heap opened_ABC ∧
  IsEmpty (open_queue opened_ABC) = false ∧
  ∃ s1 s2,
    DequeueBestOpenNode opened_ABC = Done (tt, s1) ∧
    ReenqueueOpenNode 1 (store_item 1 node_B_late s1) = Done (tt, s2) ∧
    paired_heap s2.
Proof.
  assert (IsEmpty (open_queue opened_ABC) = false) as Hne by reflexivity.
  split; [exact opened_ABC_paired|]. split; [done|].
  destruct (X6_dequeue_write_reenqueue opened_ABC opened_ABC_paired Hne)
    as (item & s1 & Hbest & Hdequeue & Hback).
  assert (item = 1) as ->.
  { rewrite GetBestOpenNode_eq in Hbest. simpl in Hbest. congruence. }
  destruct (Hback node_B_late) as (s2 & Hre & _ & _ & _ & _ & Hpaired);
    [reflexivity|].
  by exists s1, s2.
Defined.

(** X7 at the state scenario A ends in: B is popped and closed. *)
Lemma X7_witness :
  settled opened_ABC ∧
  IsEmpty (open_queue opened_ABC) = false ∧
  ∃ item s1 s2,
    PopBestOpenNode opened_ABC = Done (Some item, s1) ∧
    InsertClosedNode item s1 = Done (tt, s2) ∧
    settled s2.
Proof.
  assert (IsEmpty (open_queue opened_ABC) = false) as Hne by reflexivity.
  split; [exact opened_ABC_settled|]. split; [done|].
  destruct (X7_best_node_moves_to_closed opened_ABC opened_ABC_settled Hne)
    as (item & s1 & s2 & Hpop & Hclose & _ & _ & _ & _ & Hsettled).
  by exists item, s1, s2.
Defined.

(** X8 at the uncommitted node X: it is opened and found. *)
Lemma X8_witness :
  items fresh_X !! 0 = Some node_X ∧
  InsertOpenNode 0 fresh_X = Done (tt, opened_X) ∧
  returns (FindOpenNode (GetKey node_X)) opened_X (Some 0).
Proof.
  assert (items fresh_X !! 0 = Some node_X) as Hit by reflexivity.
  assert (InsertOpenNode 0 fresh_X = Done (tt, opened_X)) as Hinsert
    by (vm_compute; reflexivity).
  split; [done|]. split; [done|].
  exact (proj1 (proj1 (proj2 (X8_insert_then_find fresh_X 0 node_X Hit))
                  _ _ Hinsert)).
Defined.

(** X9 at the uncommitted node X: it is opened and popped again. *)
Lemma X9_witness :
  paired_heap fresh_X ∧
  InsertOpenNode 0 fresh_X = Done (tt, opened_X) ∧
  ∃ s2,
    PopOpenNode (GetKey (items fresh_X !!! 0)) opened_X = Done (0, s2) ∧
    open_nodes s2 = open_nodes fresh_X.
Proof.
  assert (paired_heap fresh_X) as Hpaired
    by apply settled_paired_heap, fresh_X_settled.
  assert (InsertOpenNode 0 fresh_X = Done (tt, opened_X)) as Hinsert
    by (vm_compute; reflexivity).
  split; [done|]. split; [done|].
  destruct (X9_insert_then_pop_open_node _ _ _ _ Hpaired Hinsert)
    as (s2 & Hpop & _ & Hopen & _).
  by exists s2.
Defined.

(** X10 at the uncommitted node X. *)
Lemma X10_witness :
  settled fresh_X ∧
  CreateNewNode fresh_X = Done (0, fresh_X) ∧
  (0 ∉ open_queue fresh_X).
Proof.
  assert (CreateNewNode fresh_X = Done (0, fresh_X)) as Hcreate
    by reflexivity.
  split; [exact fresh_X_settled|]. split; [done|].
  exact (proj1 (proj2 (X10_uncommitted_node_is_not_open _ _ _
                         fresh_X_settled Hcreate))).
Defined.

(** X11 where the search loop has opened a node of its own. *)
Lemma X11_witness :
  InMemory.reachable own_X_opened ∧
  InMemory.returns (InMemory.FindOpenNode (GetKey node_X)) own_X_opened
    (Some 0) ∧
  ∃ it, InMemory.memory own_X_opened !! 0 = Some it ∧
        GetKey it = GetKey node_X.
Proof.
  assert (InMemory.returns (InMemory.FindOpenNode (GetKey node_X))
            own_X_opened (Some 0)) as Hfind
    by (exists own_X_opened; vm_compute; reflexivity).
  split; [exact own_X_opened_reachable|]. split; [done|].
  exact (proj1 (X11_lookups_return_keyed_nodes _ own_X_opened_reachable)
           _ _ Hfind).
Defined.

(** X12 at a fresh node list: there is nothing to dequeue. *)
Lemma X12_witness :
  IsEmpty (open_queue (NodeList_ctor (Titem := SampleNode))) = true ∧
  DequeueBestOpenNode (NodeList_ctor (Titem := SampleNode)) =
    assert_str_error 109 nodelist_hpp "!this->open_queue.IsEmpty()" None.
Proof.
  assert (IsEmpty (open_queue (NodeList_ctor (Titem := SampleNode))) = true)
    as Hempty by reflexivity.
  split; [done|].
  exact (proj1 (proj1 (X12_dequeue_best_open_node NodeList_ctor) Hempty)).
Defined.

(** X13 at the first [CreateNewNode]. *)
Lemma X13_witness :
  exec Call_CreateNewNode (NodeList_ctor (Titem := SampleNode)) =
    Done created ∧
  BumpAllocContainer.Length (items created) =
    S (BumpAllocContainer.Length
         (items (NodeList_ctor (Titem := SampleNode)))).
Proof.
  assert (exec Call_CreateNewNode (NodeList_ctor (Titem := SampleNode)) =
    Done created) as Hexec by reflexivity.
  split; [done|].
  apply (proj1 (proj2 (X13_calls_keep_node_data _ _ _ Hexec))).
  done.
Defined.

(** X14 at the state scenario A ends in: C is put into the queue once more
    and B is still the best node. *)
Lemma X14_witness :
  queue_ordered opened_ABC ∧
  ReenqueueOpenNode 2 opened_ABC =
    Done (tt, set_open_queue [1; 0; 2; 2] opened_ABC) ∧
  ∃ best,
    GetBestOpenNode (set_open_queue [1; 0; 2; 2] opened_ABC) =
      Done (Some best, set_open_queue [1; 0; 2; 2] opened_ABC) ∧
    (best = 2 ∨ best ∈ open_queue opened_ABC).
Proof.
  assert (ReenqueueOpenNode 2 opened_ABC =
    Done (tt, set_open_queue [1; 0; 2; 2] opened_ABC)) as Hre
    by (vm_compute; reflexivity).
  split; [exact opened_ABC_ordered|]. split; [done|].
  destruct (X14_insertion_keeps_best_first opened_ABC 2 tt _
              opened_ABC_ordered (or_intror Hre))
    as (best & Hbest & Hwhich & _).
  by exists best.
Defined.

(** X15 at the state scenario A ends in. *)
Lemma X15_witness :
  settled opened_ABC ∧
  PopBestOpenNode
    (drained (HashTable.Count (open_nodes opened_ABC)) opened_ABC) =
  Done (None, drained (HashTable.Count (open_nodes opened_ABC)) opened_ABC).
Proof.
  split; [exact opened_ABC_settled|].
  exact (proj1 (proj2 (proj2 (proj2 (proj2
           (X15_exhausting_the_open_set opened_ABC opened_ABC_settled)))))).
Defined.

(** X17 at the two assertions of the node list. *)
Lemma X17_witness :
  79 ≠ 141 ∧
  assert_str_error (A := unit) 79 nodelist_hpp
    "this->closed_nodes.Find(item.GetKey()) == nullptr" None ≠
  assert_str_error 141 nodelist_hpp
    "this->open_nodes.Find(item.GetKey()) == nullptr" None.
Proof.
  assert (79 ≠ 141) as Hne by lia.
  split; [done|].
  exact (proj1 (X17_assertion_report_names_the_line unit 79 141 _ _ _ _ _ _)
           Hne).
Defined.
